(** * Verification of [examples/trie_utils.py]

    A shallow embedding of the character trie used to split text along a
    vocabulary of added tokens ([Trie], [ExtensionsTrie]) and of the sorted
    insertion helper [_insert_one_token_to_ordered_list], followed by the
    properties that the specification states about them.

    Modelling conventions
    - a Python [str] is a [list ascii]; its characters are the list elements;
    - a Python [dict] is an association list in insertion order (a Python
      dict iterates in insertion order, and [_collect_tokens] and the scan of
      [states] depend on it); keys are unique in every dict the code builds;
    - a trie node is [Node terminal children]: the reserved empty-string key
      [_termination_char] (whose value is always [1]) is the flag
      [terminal], the one-character keys are [children];
    - indices and offsets are natural numbers: every integer the code
      computes is a position between [0] and [len(text)];
    - a call either returns ([Ok]) or raises ([Raise]); the two [while]
      loops (the lookahead of [split] and the binary search) take fuel, and
      [OutOfFuel] is the outcome of the model when that fuel does not
      suffice; the theorems show that the fuel given always suffices. *)

From Stdlib Require Import Ascii String.
From stdpp Require Import base option list sorting gmap strings.

Abbreviation str := (list ascii).

(** ** Outcomes of a call *)

Inductive exn : Type :=
  | NameError (name : string)
  | UnboundLocalError (name : string)
  | IndexError
  | KeyError.

Inductive res (A : Type) : Type :=
  | Ok (a : A)
  | Raise (e : exn)
  | OutOfFuel.
Arguments Ok {A} a.
Arguments Raise {A} e.
Arguments OutOfFuel {A}.

#[global] Instance res_ret : MRet res := fun _ a => Ok a.
#[global] Instance res_bind : MBind res := fun _ _ f m =>
  match m with
  | Ok a => f a
  | Raise e => Raise e
  | OutOfFuel => OutOfFuel
  end.

(** ** Python dicts as insertion-ordered association lists *)

Section dict.
Context {K V : Type} `{!EqDecision K}.

(** [d.get(k)]: the value bound to [k], [None] when [k not in d]. *)
Fixpoint dict_get (k : K) (d : list (K * V)) : option V :=
  match d with
  | [] => None
  | (k', v') :: d' => if decide (k = k') then Some v' else dict_get k d'
  end.

(** [d[k] = v]: an existing key keeps its place, a new key goes last. *)
Fixpoint dict_set (k : K) (v : V) (d : list (K * V)) : list (K * V) :=
  match d with
  | [] => [(k, v)]
  | (k', v') :: d' =>
      if decide (k = k') then (k, v) :: d' else (k', v') :: dict_set k v d'
  end.

(** [del d[k]]: raises [KeyError] when [k not in d]. *)
Fixpoint dict_del (k : K) (d : list (K * V)) : res (list (K * V)) :=
  match d with
  | [] => Raise KeyError
  | (k', v') :: d' =>
      if decide (k = k') then Ok d' else d'' ← dict_del k d'; Ok ((k', v') :: d'')
  end.

Definition keys (d : list (K * V)) : list K := d.*1.
End dict.

(** ** Trie nodes *)

#[warnings="-register-all"]
Inductive node : Type :=
  | Node (terminal : bool) (children : list (ascii * node)).

(** [{}] *)
Definition empty_node : node := Node false [].

(** [_termination_char in n] *)
Definition terminal (n : node) : bool := let 'Node t _ := n in t.

Definition children (n : node) : list (ascii * node) := let 'Node _ cs := n in cs.

(** [n[c]] guarded by [c in n]. *)
Definition child (n : node) (c : ascii) : option node := dict_get c (children n).

(** The node reached from [n] along the characters of [w], if the whole
    path exists. *)
Fixpoint walk (n : node) (w : str) : option node :=
  match w with
  | [] => Some n
  | c :: w' => child n c ≫= fun n' => walk n' w'
  end.

(** [text[start:end]] for [0 <= start <= end]; Python clamps at [len(text)]. *)
Definition slice (text : str) (start end_ : nat) : str :=
  take (end_ - start) (drop start text).

Module Trie.

(** The object state: [self.data] and [self._tokens]
    ([self._termination_char] is the constant empty string). *)
Record t : Type := { data : node; _tokens : gset (list ascii) }.

(** [add]'s loop [for char in word: ref[char] = ref.setdefault(char, {});
    ref = ref[char]], then [ref[_termination_char] = 1].  The loop mutates the nodes in
    place through the alias [ref]; here the same update is written as the
    rebuilt path from [ref] downwards. *)
Fixpoint add_chars (word : str) (ref : node) : node :=
  match word with
  | [] => Node true (children ref)
  | char :: word' =>
      let sub := default empty_node (child ref char) in
      Node (terminal ref) (dict_set char (add_chars word' sub) (children ref))
  end.

Definition add (word : str) (self : t) : t :=
  match word with
  | [] => self
  | _ => {| data := add_chars word (data self); _tokens := {[ word ]} ∪ _tokens self |}
  end.

(** [for token in tuple(args): self.add(token)], [args] being the one
    iterable of words the constructor or [update] is given. *)
Definition update (args : list (list ascii)) (self : t) : t :=
  foldl (fun self token => add token self) self args.

Definition __init__ (args : list (list ascii)) : t :=
  update args {| data := empty_node; _tokens := ∅ |}.

(** *** [split]

    The local variables of [split] that live across the iterations of its
    main loop.  [end_] is the Python local [end]: it is unbound until the
    lookahead first assigns it, and keeps its last value afterwards. *)
Record locals : Type := Locals {
  states : list (nat * node);
  offsets : list nat;
  skip : nat;
  end_ : option nat
}.

(** The triple [(start, end, skip)] that the lookahead reassigns. *)
Definition cut : Type := nat * option nat * nat.

(** [if _termination_char in looktrie_pointer: start = lookstart;
    end = lookahead_index; skip = lookahead_index] *)
Definition record_match (looktrie_pointer : node) (lookstart lookahead_index : nat)
    (c : cut) : cut :=
  if terminal looktrie_pointer
  then (lookstart, Some lookahead_index, lookahead_index)
  else c.

(** [while next_char in looktrie_pointer: ...].  [next_char] is [None] when
    the source sets it to [None]; [None] is a key of no node.  Every
    iteration consumes one unit of [fuel]. *)
Fixpoint lookahead_while (fuel : nat) (text : str) (lookstart : nat)
    (next_char : option ascii) (looktrie_pointer : node) (lookahead_index : nat)
    (c : cut) : res cut :=
  match next_char ≫= child looktrie_pointer with
  | None => Ok c
  | Some looktrie_pointer =>
      match fuel with
      | 0 => OutOfFuel
      | S fuel =>
          let lookahead_index := lookahead_index + 1 in
          let c := record_match looktrie_pointer lookstart lookahead_index c in
          if decide (lookahead_index = length text) then Ok c
          else
            match text !! lookahead_index with
            | None => Raise IndexError
            | Some next_char =>
                lookahead_while fuel text lookstart (Some next_char)
                  looktrie_pointer lookahead_index c
            end
      end
  end.

(** [for lookstart, looktrie_pointer in states.items(): ...], the lookahead
    run when the state [start] is found terminal at position [current].
    [text !! lookahead_index] is [text[lookahead_index] if lookahead_index <
    len(text) else None].  The [while] gets [len(text)] units of fuel. *)
Fixpoint lookahead_for (text : str) (current : nat) (items : list (nat * node))
    (c : cut) : res cut :=
  match items with
  | [] => Ok c
  | (lookstart, looktrie_pointer) :: items =>
      let '(start, _, skip) := c in
      if decide (start < lookstart) then Ok c
      else
        let lookahead_index := if decide (lookstart < start) then current + 1 else current in
        let c := (start, Some lookahead_index, skip) in
        let next_char := text !! lookahead_index in
        let c := record_match looktrie_pointer lookstart lookahead_index c in
        c ← lookahead_while (length text) text lookstart next_char
              looktrie_pointer lookahead_index c;
        lookahead_for text current items c
  end.

(** [to_remove.add(start)] on a set kept in insertion order. *)
Definition set_add (x : nat) (s : list nat) : list nat :=
  if decide (x ∈ s) then s else s ++ [x].

(** [for start, trie_pointer in states.items(): ...] of the main loop.
    [items] is what is left to visit; the loop only ever rebinds the key it
    is visiting, so the entries still to visit are those of the dict at the
    start of the loop.  Returns the locals, [to_remove] and [reset]. *)
Fixpoint for_states (text : str) (current : nat) (current_char : ascii)
    (items : list (nat * node)) (to_remove : list nat) (l : locals)
    : res (locals * list nat * bool) :=
  match items with
  | [] => Ok (l, to_remove, false)
  | (start, trie_pointer) :: items =>
      if terminal trie_pointer then
        '(start, end_, skip) ← lookahead_for text current (states l) (start, end_ l, skip l);
        match end_ with
        | None => Raise (UnboundLocalError "end")
        | Some e =>
            Ok (Locals (states l) (offsets l ++ [start; e]) skip (Some e), to_remove, true)
        end
      else
        match child trie_pointer current_char with
        | Some trie_pointer =>
            for_states text current current_char items to_remove
              (Locals (dict_set start trie_pointer (states l)) (offsets l) (skip l) (end_ l))
        | None =>
            for_states text current current_char items (set_add start to_remove) l
        end
  end.

(** [for start in to_remove: del states[start]] *)
Fixpoint del_all (to_remove : list nat) (states : list (nat * node))
    : res (list (nat * node)) :=
  match to_remove with
  | [] => Ok states
  | start :: to_remove => states ← dict_del start states; del_all to_remove states
  end.

(** One iteration of [for current, current_char in enumerate(text)]. *)
Definition step (root : node) (text : str) (current : nat) (current_char : ascii)
    (l : locals) : res locals :=
  if negb (skip l =? 0) && (current <? skip l) then Ok l
  else
    '(l, to_remove, reset) ← for_states text current current_char (states l) [] l;
    states' ← (if reset : bool then Ok [] else del_all to_remove (states l));
    let states' :=
      if skip l <=? current then
        match child root current_char with
        | Some p => dict_set current p states'
        | None => states'
        end
      else states' in
    Ok (Locals states' (offsets l) (skip l) (end_ l)).

Fixpoint main_loop (root : node) (text : str) (current : nat) (rest : str)
    (l : locals) : res locals :=
  match rest with
  | [] => Ok l
  | current_char :: rest =>
      l ← step root text current current_char l;
      main_loop root text (S current) rest l
  end.

(** The loop after the scan: the first terminal state, in the order of
    [states], is cut at [len(text)]. *)
Fixpoint final_cut (text : str) (items : list (nat * node)) (offsets : list nat)
    : list nat :=
  match items with
  | [] => offsets
  | (start, trie_pointer) :: items =>
      if terminal trie_pointer then offsets ++ [start; length text]
      else final_cut text items offsets
  end.

(** The loop of [cut_text].  The name [logger] is bound nowhere in the
    module (it is neither imported nor assigned), so evaluating
    [logger.error(...)] raises [NameError]. *)
Fixpoint cut_loop (text : str) (offsets : list nat) (start : nat)
    (tokens : list (list ascii)) : res (list (list ascii)) :=
  match offsets with
  | [] => Ok tokens
  | e :: offsets =>
      if decide (e < start) then Raise (NameError "logger")
      else if decide (start = e) then cut_loop text offsets start tokens
      else cut_loop text offsets e (tokens ++ [slice text start e])
  end.

Definition cut_text (text : str) (offsets : list nat) : res (list (list ascii)) :=
  cut_loop text (offsets ++ [length text]) 0 [].

(** The fragments [split] returns, computed from [self.data]. *)
Definition split_data (root : node) (text : str) : res (list (list ascii)) :=
  l ← main_loop root text 0 text (Locals [] [0] 0 None);
  cut_text text (final_cut text (states l) (offsets l)).

(** [self.split(text)]: the outcome of the call and the object after it.
    [split] assigns to its locals only and never to [self] or to a node. *)
Definition split (text : str) (self : t) : res (list (list ascii)) * t :=
  (split_data (data self) text, self).

End Trie.

Module ExtensionsTrie.

Definition __init__ (args : list (list ascii)) : Trie.t := Trie.__init__ args.

(** [for char in token: if char not in node: break; node = node[char]] *)
Fixpoint _get_node (nd : node) (token : str) : node :=
  match token with
  | [] => nd
  | char :: token =>
      match child nd char with
      | None => nd
      | Some nd => _get_node nd token
      end
  end.

(** The termination key contributes the empty suffix first; then the
    one-character keys, in the order of the dict, each contribute their
    sub-trie's tokens behind the key. *)
Definition collect_items (collect : node → list (list ascii)) :=
  fix items (cs : list (ascii * node)) : list (list ascii) :=
    match cs with
    | [] => []
    | (token, subtrie_head) :: cs =>
        ((token ::.) <$> collect subtrie_head) ++ items cs
    end.

Fixpoint _collect_tokens (nd : node) : list (list ascii) :=
  match nd with
  | Node t cs => (if t then [[]] else []) ++ collect_items _collect_tokens cs
  end.

Definition extensions (prefix : str) (self : Trie.t) : list (list ascii) :=
  let prefix_node := _get_node (Trie.data self) prefix in
  let ret := _collect_tokens prefix_node in
  (fun token => prefix ++ token) <$> ret.

End ExtensionsTrie.

(** ** The sorted insertion helper *)

(** [a < b] on Python strings: lexicographic, character by code point. *)
Fixpoint str_ltb (a b : str) : bool :=
  match a, b with
  | _, [] => false
  | [], _ :: _ => true
  | x :: a', y :: b' =>
      if nat_of_ascii x <? nat_of_ascii y then true
      else if nat_of_ascii y <? nat_of_ascii x then false
      else str_ltb a' b'
  end.

(** The loop of [bisect.bisect_left(a, x)] as the Python standard library
    writes it: [while lo < hi: mid = (lo + hi) // 2; if a[mid] < x:
    lo = mid + 1 else: hi = mid], then [return lo]. *)
Fixpoint bisect_loop (fuel : nat) (a : list (list ascii)) (x : str) (lo hi : nat)
    : res nat :=
  if decide (lo < hi) then
    match fuel with
    | 0 => OutOfFuel
    | S fuel =>
        let mid := (lo + hi) `div` 2 in
        match a !! mid with
        | None => Raise IndexError
        | Some a_mid =>
            if str_ltb a_mid x then bisect_loop fuel a x (mid + 1) hi
            else bisect_loop fuel a x lo mid
        end
    end
  else Ok lo.

Definition bisect_left (a : list (list ascii)) (x : str) : res nat :=
  bisect_loop (length a) a x 0 (length a).

(** [token_list.insert(i, x)] *)
Definition list_insert_at {A} (i : nat) (x : A) (l : list A) : list A :=
  take i l ++ x :: drop i l.

(** The call mutates [token_list] in place and returns nothing; the model
    returns the list after the call. *)
Definition _insert_one_token_to_ordered_list (token_list : list (list ascii))
    (new_token : str) : res (list (list ascii)) :=
  insertion_idx ← bisect_left token_list new_token;
  if decide (insertion_idx < length token_list
             ∧ token_list !! insertion_idx = Some new_token)
  then Ok token_list
  else Ok (list_insert_at insertion_idx new_token token_list).

(** [a[i] <= a[i+1]] for all adjacent elements. *)
Fixpoint is_sorted (l : list (list ascii)) : bool :=
  match l with
  | [] => true
  | a :: l' =>
      match l' with
      | [] => true
      | b :: _ => negb (str_ltb b a) && is_sorted l'
      end
  end.

(** ** Vocabulary-level notions used by the statements *)

(** A string literal as a Python [str]. *)
Definition chars (s : string) : list ascii := list_ascii_of_string s.

(** The words of [args] that [add] really inserts (the empty word is
    ignored). *)
Definition vocabulary (args : list (list ascii)) : list (list ascii) :=
  filter (fun w => w ≠ []) args.

(** Whether walking [n] along [w] ends at a node bearing the termination
    marker. *)
Definition accepts (n : node) (w : str) : bool :=
  match walk n w with
  | Some m => terminal m
  | None => false
  end.

(** The states a [Trie] object can be in: built by the constructor, then
    changed by [add] and [update] only. *)
Inductive reachable : Trie.t → Prop :=
  | reachable_init args : reachable (Trie.__init__ args)
  | reachable_add word self : reachable self → reachable (Trie.add word self)
  | reachable_update args self : reachable self → reachable (Trie.update args self).

(** [a < b] as a relation, and a sorted duplicate-free list: each element is
    strictly below all the later ones. *)
Definition str_lt (a b : str) : Prop := str_ltb a b = true.

(** Every dict of the tree has unique keys, as every Python dict has. *)
Inductive wf_node : node → Prop :=
  | wf_Node t cs :
      NoDup (keys cs) → Forall (λ kc, wf_node kc.2) cs → wf_node (Node t cs).

(** The part of [token] that [_get_node] follows in the tree before it
    stops: all of it, or what comes before the first character that is not
    a key of the node reached. *)
Fixpoint followed (nd : node) (token : str) : str :=
  match token with
  | [] => []
  | char :: token =>
      match child nd char with
      | None => []
      | Some nd => char :: followed nd token
      end
  end.

(** What holds of the locals of [split] before the iteration at [current]:
    the starts in [states] ascend, lie at or after [skip] and before
    [current]; the offsets ascend and none exceeds [skip], which is within
    the text. *)
Record loop_inv (text : str) (current : nat) (l : Trie.locals) : Prop := LoopInv {
  inv_keys_sorted : StronglySorted lt (keys (Trie.states l));
  inv_keys_range : Forall (λ k, Trie.skip l ≤ k < current) (keys (Trie.states l));
  inv_offsets_sorted : StronglySorted le (Trie.offsets l);
  inv_offsets_le : Forall (λ o, o ≤ Trie.skip l) (Trie.offsets l);
  inv_skip_le : Trie.skip l ≤ length text
}.

(** A string that begins some word of the vocabulary. *)
Definition begins_word (args : list (list ascii)) (p : str) : Prop :=
  Exists (λ x, p `prefix_of` x) (vocabulary args).

Global Instance begins_word_dec (args : list (list ascii)) (p : str) :
  Decision (begins_word args p).
Proof. unfold begins_word. apply _. Defined.

(** The state [e] of [states], before the iteration at [c], points to the
    node reached along the text from its start to [c]. *)
Definition tracks (root : node) (text : str) (c : nat) (e : nat * node) : Prop :=
  walk root (slice text e.1 c) = Some e.2.

(** The state [e] once the iteration at [c] has visited it without finding
    it terminal: either it went on with the character at [c] and points one
    node further, or that character ended it and it still points to the
    node it had. *)
Definition seen (root : node) (text : str) (c : nat) (e : nat * node) : Prop :=
  accepts root (slice text e.1 c) = false ∧
  (walk root (slice text e.1 (c + 1)) = Some e.2 ∨
   (walk root (slice text e.1 c) = Some e.2 ∧
    walk root (slice text e.1 (c + 1)) = None)).

(** A visited state that is not listed in [to_remove] went on. *)
Definition visited (root : node) (text : str) (c : nat) (to_remove : list nat)
    (e : nat * node) : Prop :=
  seen root text c e ∧
  (e.1 ∉ to_remove → walk root (slice text e.1 (c + 1)) = Some e.2).

(** What holds of the locals before the iteration at [c] while the scan
    has not yet cut around the occurrence that starts at [pos]: every state
    points to the node its text leads to, no cut made so far reaches beyond
    [pos], and once the scan is past [pos] the state started there is kept. *)
Definition scanning (root : node) (text : str) (pos c : nat) (l : Trie.locals) : Prop :=
  loop_inv text c l ∧
  Forall (tracks root text c) (Trie.states l) ∧
  Trie.skip l ≤ pos ∧
  (pos < c → pos ∈ keys (Trie.states l)).

(** The occurrence of [w] between [a] and [b] is not extended by the
    characters around it into a longer vocabulary word: no word of the
    vocabulary is [w] with a non-empty end of [a] before it or a non-empty
    beginning of [b] behind it. *)
Definition not_extended (args : list (list ascii)) (a w b : str) : Prop :=
  ∀ a2 b1, a2 `suffix_of` a → b1 `prefix_of` b →
           a2 ++ w ++ b1 ∈ vocabulary args → a2 = [] ∧ b1 = [].

(** Two nodes that cannot be told apart by walking: the same paths exist
    from both and the same words are accepted.  Trees built from the same
    words in another order are such nodes; their dicts differ in order. *)
Definition node_equiv (n1 n2 : node) : Prop :=
  ∀ w, (is_Some (walk n1 w) ↔ is_Some (walk n2 w)) ∧ accepts n1 w = accepts n2 w.

(** Outcomes that agree: the same exception, or results related by [R]. *)
Definition res_rel {A B : Type} (R : A → B → Prop) (r1 : res A) (r2 : res B) : Prop :=
  match r1, r2 with
  | Ok a, Ok b => R a b
  | Raise e1, Raise e2 => e1 = e2
  | OutOfFuel, OutOfFuel => True
  | _, _ => False
  end.

(** [states] with the same starts in the same order and equivalent nodes. *)
Definition states_rel : list (nat * node) → list (nat * node) → Prop :=
  Forall2 (λ a b, a.1 = b.1 ∧ node_equiv a.2 b.2).

Definition locals_rel (l1 l2 : Trie.locals) : Prop :=
  states_rel (Trie.states l1) (Trie.states l2) ∧
  Trie.offsets l1 = Trie.offsets l2 ∧ Trie.skip l1 = Trie.skip l2 ∧
  Trie.end_ l1 = Trie.end_ l2.

(** ** Character classification

    [unicodedata.category] is a table of the Python standard library; the
    predicates take it as the parameter [category], from a character to the
    two-letter name of its general category. *)

Definition _is_whitespace (category : ascii → string) (char : ascii) : bool :=
  if decide (char = " "%char ∨ char = "009"%char ∨ char = "010"%char ∨ char = "013"%char)
  then true
  else
    let cat := category char in
    if decide (cat = "Zs"%string) then true else false.

Definition _is_control (category : ascii → string) (char : ascii) : bool :=
  if decide (char = "009"%char ∨ char = "010"%char ∨ char = "013"%char)
  then false
  else
    let cat := category char in
    if String.prefix "C" cat then true else false.

Definition _is_punctuation (category : ascii → string) (char : ascii) : bool :=
  let cp := nat_of_ascii char in
  if ((33 <=? cp) && (cp <=? 47)) || ((58 <=? cp) && (cp <=? 64))
     || ((91 <=? cp) && (cp <=? 96)) || ((123 <=? cp) && (cp <=? 126))
  then true
  else
    let cat := category char in
    if String.prefix "P" cat then true else false.

(** [text[-1]] and [text[0]] raise [IndexError] on the empty string. *)
Definition _is_end_of_word (category : ascii → string) (text : str) : res bool :=
  match last text with
  | None => Raise IndexError
  | Some last_char =>
      Ok (_is_control category last_char || _is_punctuation category last_char
          || _is_whitespace category last_char)
  end.

Definition _is_start_of_word (category : ascii → string) (text : str) : res bool :=
  match head text with
  | None => Raise IndexError
  | Some first_char =>
      Ok (_is_control category first_char || _is_punctuation category first_char
          || _is_whitespace category first_char)
  end.

(** ** [cut_text] called directly

    [Trie.cut_text] above takes the offsets [split] computes, which are
    positions in the text.  A direct caller may pass any list of Python
    ints; this is the same loop on integers.  A slice is only ever taken
    with [0 <= start < end] ([start] is [0] or an earlier [end] that
    exceeded the [start] before it), so it is [slice] at those positions. *)
Fixpoint cut_loop_int (text : str) (offsets : list Z) (start : Z)
    (tokens : list (list ascii)) : res (list (list ascii)) :=
  match offsets with
  | [] => Ok tokens
  | e :: offsets =>
      if decide (e < start)%Z then Raise (NameError "logger")
      else if decide (start = e) then cut_loop_int text offsets start tokens
      else cut_loop_int text offsets e
             (tokens ++ [slice text (Z.to_nat start) (Z.to_nat e)])
  end.

Definition cut_text_int (text : str) (offsets : list Z) : res (list (list ascii)) :=
  cut_loop_int text (offsets ++ [Z.of_nat (length text)]) 0%Z [].

(** ** The trie as objects in a store

    In Python the nodes are dict objects and [trie_pointer],
    [looktrie_pointer] and the values of [states] are references to them.
    To state what a call does to the object, the nodes are put in a store:
    a reference is a location, the store maps every location to the dict it
    denotes, and the object holds [self.data], a reference to the root, and
    [self._tokens].  A method is a function from the store before the call
    to its outcome and the store after it. *)

Abbreviation loc := nat.

(** A node dict: the termination key and the one-character keys, each bound
    to a reference. *)
Record hdict : Type := HDict { hterminal : bool; hchildren : list (ascii * loc) }.

Record store : Type := Store {
  heap : loc → hdict;
  self_data : loc;
  self_tokens : gset (list ascii);
  next_loc : loc
}.

Definition M (A : Type) : Type := store → res A * store.

#[global] Instance M_ret : MRet M := λ A (a : A) (s : store), (Ok a, s).
#[global] Instance M_bind : MBind M := λ A B (f : A → M B) (m : M A) (s : store),
  match m s with
  | (Ok a, s') => f a s'
  | (Raise e, s') => (Raise e, s')
  | (OutOfFuel, s') => (OutOfFuel, s')
  end.

(** Reading the dict behind a reference. *)
Definition load (l : loc) : M hdict := λ s, (Ok (heap s l), s).

(** Assigning to a dict in place, [d[k] = v]: the dict behind the reference
    changes for every holder of the reference. *)
Definition store_dict (l : loc) (d : hdict) : M unit :=
  λ s, (Ok tt, Store (λ l', if decide (l' = l) then d else heap s l')
                 (self_data s) (self_tokens s) (next_loc s)).

(** The display [{}]: a new, empty dict, at the next location not in use. *)
Definition alloc : M loc :=
  λ s, (Ok (next_loc s),
        Store (λ l', if decide (l' = next_loc s) then HDict false [] else heap s l')
          (self_data s) (self_tokens s) (S (next_loc s))).

(** [self._tokens.add(word)] *)
Definition self_tokens_add (word : str) : M unit :=
  λ s, (Ok tt, Store (heap s) (self_data s) ({[ word ]} ∪ self_tokens s) (next_loc s)).

(** Reading [self.data]. *)
Definition get_self_data : M loc := λ s, (Ok (self_data s), s).

(** An outcome that involves no object. *)
Definition lift {A : Type} (r : res A) : M A := λ s, (r, s).

(** The tree [n] is what the store holds at the reference [l]. *)
Inductive repr (h : loc → hdict) : loc → node → Prop :=
  | repr_node l t cs ns :
      h l = HDict t cs →
      Forall2 (λ kc kn, kc.1 = kn.1 ∧ repr h kc.2 kn.2) cs ns →
      repr h l (Node t ns).

Module StoreTrie.

Record locals : Type := Locals {
  states : list (nat * loc);
  offsets : list nat;
  skip : nat;
  end_ : option nat
}.

(** [_termination_char in trie_pointer] *)
Definition terminal (trie_pointer : loc) : M bool :=
  d ← load trie_pointer; mret (hterminal d).

(** [trie_pointer[c]] guarded by [c in trie_pointer]. *)
Definition child (trie_pointer : loc) (c : ascii) : M (option loc) :=
  d ← load trie_pointer; mret (dict_get c (hchildren d)).

Definition record_match (looktrie_pointer : loc) (lookstart lookahead_index : nat)
    (c : Trie.cut) : M Trie.cut :=
  t ← terminal looktrie_pointer;
  mret (if t : bool then (lookstart, Some lookahead_index, lookahead_index) else c).

Fixpoint lookahead_while (fuel : nat) (text : str) (lookstart : nat)
    (next_char : option ascii) (looktrie_pointer : loc) (lookahead_index : nat)
    (c : Trie.cut) : M Trie.cut :=
  match next_char with
  | None => mret c
  | Some ch =>
      o ← child looktrie_pointer ch;
      match o with
      | None => mret c
      | Some looktrie_pointer =>
          match fuel with
          | 0 => lift OutOfFuel
          | S fuel =>
              let lookahead_index := lookahead_index + 1 in
              c ← record_match looktrie_pointer lookstart lookahead_index c;
              if decide (lookahead_index = length text) then mret c
              else
                match text !! lookahead_index with
                | None => lift (Raise IndexError)
                | Some next_char =>
                    lookahead_while fuel text lookstart (Some next_char)
                      looktrie_pointer lookahead_index c
                end
          end
      end
  end.

Fixpoint lookahead_for (text : str) (current : nat) (items : list (nat * loc))
    (c : Trie.cut) : M Trie.cut :=
  match items with
  | [] => mret c
  | (lookstart, looktrie_pointer) :: items =>
      let '(start, _, skip) := c in
      if decide (start < lookstart) then mret c
      else
        let lookahead_index := if decide (lookstart < start) then current + 1 else current in
        let c := (start, Some lookahead_index, skip) in
        let next_char := text !! lookahead_index in
        c ← record_match looktrie_pointer lookstart lookahead_index c;
        c ← lookahead_while (length text) text lookstart next_char
              looktrie_pointer lookahead_index c;
        lookahead_for text current items c
  end.

Fixpoint for_states (text : str) (current : nat) (current_char : ascii)
    (items : list (nat * loc)) (to_remove : list nat) (l : locals)
    : M (locals * list nat * bool) :=
  match items with
  | [] => mret (l, to_remove, false)
  | (start, trie_pointer) :: items =>
      t ← terminal trie_pointer;
      if t : bool then
        c ← lookahead_for text current (states l) (start, end_ l, skip l);
        match c with
        | (start, None, skip) => lift (Raise (UnboundLocalError "end"))
        | (start, Some e, skip) =>
            mret (Locals (states l) (offsets l ++ [start; e]) skip (Some e), to_remove, true)
        end
      else
        o ← child trie_pointer current_char;
        match o with
        | Some trie_pointer =>
            for_states text current current_char items to_remove
              (Locals (dict_set start trie_pointer (states l)) (offsets l) (skip l) (end_ l))
        | None =>
            for_states text current current_char items (Trie.set_add start to_remove) l
        end
  end.

Fixpoint del_all (to_remove : list nat) (states : list (nat * loc))
    : res (list (nat * loc)) :=
  match to_remove with
  | [] => Ok states
  | start :: to_remove => states ← dict_del start states; del_all to_remove states
  end.

Definition step (text : str) (current : nat) (current_char : ascii) (l : locals)
    : M locals :=
  if negb (skip l =? 0) && (current <? skip l) then mret l
  else
    r ← for_states text current current_char (states l) [] l;
    let '(l, to_remove, reset) := r in
    states' ← lift (if reset : bool then Ok [] else del_all to_remove (states l));
    states' ← (if skip l <=? current then
                 root ← get_self_data;
                 o ← child root current_char;
                 mret (match o with
                       | Some p => dict_set current p states'
                       | None => states'
                       end)
               else mret states');
    mret (Locals states' (offsets l) (skip l) (end_ l)).

Fixpoint main_loop (text : str) (current : nat) (rest : str) (l : locals) : M locals :=
  match rest with
  | [] => mret l
  | current_char :: rest =>
      l ← step text current current_char l;
      main_loop text (S current) rest l
  end.

Fixpoint final_cut (text : str) (items : list (nat * loc)) (offsets : list nat)
    : M (list nat) :=
  match items with
  | [] => mret offsets
  | (start, trie_pointer) :: items =>
      t ← terminal trie_pointer;
      if t : bool then mret (offsets ++ [start; length text])
      else final_cut text items offsets
  end.

(** [self.split(text)] on the store. *)
Definition split (text : str) : M (list (list ascii)) :=
  l ← main_loop text 0 text (Locals [] [0] 0 None);
  offsets ← final_cut text (states l) (offsets l);
  lift (Trie.cut_text text offsets).

(** [add]'s loop [for char in word: ref[char] = ref.setdefault(char, {});
    ref = ref[char]], then [ref[_termination_char] = 1], on the dicts in
    the store.  The argument [{}] is built on every iteration, whether or
    not [setdefault] binds it. *)
Fixpoint add_chars (word : str) (ref : loc) : M unit :=
  match word with
  | [] => d ← load ref; store_dict ref (HDict true (hchildren d))
  | char :: word =>
      new ← alloc;
      d ← load ref;
      let next := default new (dict_get char (hchildren d)) in
      store_dict ref (HDict (hterminal d) (dict_set char next (hchildren d)));;
      add_chars word next
  end.

Definition add (word : str) : M unit :=
  match word with
  | [] => mret tt
  | _ => self_tokens_add word;; ref ← get_self_data; add_chars word ref
  end.

End StoreTrie.

(** A computation that leaves the store as it found it. *)
Definition frame {A : Type} (m : M A) : Prop := ∀ s, (m s).2 = s.

(** [states] of the two models that hold the same starts, with references
    to the nodes the other holds. *)
Definition states_repr (h : loc → hdict)
    : list (nat * loc) → list (nat * node) → Prop :=
  Forall2 (λ a b, a.1 = b.1 ∧ repr h a.2 b.2).

Definition locals_repr (h : loc → hdict) (lh : StoreTrie.locals) (l : Trie.locals) : Prop :=
  states_repr h (StoreTrie.states lh) (Trie.states l) ∧
  StoreTrie.offsets lh = Trie.offsets l ∧ StoreTrie.skip lh = Trie.skip l ∧
  StoreTrie.end_ lh = Trie.end_ l.

(** A store that holds the tree of the single word [ab]: the root at
    location 0, the node after [a] at 1, the terminal node after [ab] at 2. *)
Definition example_store : store :=
  Store (λ l, match l with
              | 0 => HDict false [("a"%char, 1)]
              | 1 => HDict false [("b"%char, 2)]
              | 2 => HDict true []
              | _ => HDict false []
              end)
        0 {[ chars "ab" ]} 3.

(** * Properties *)

(** ** Dicts *)

Section dict_facts.
Context {K V : Type} `{!EqDecision K}.
Implicit Types (k : K) (v : V) (d : list (K * V)).

Lemma dict_get_set_eq k v d : dict_get k (dict_set k v d) = Some v.
Proof.
  induction d as [|[k' v'] d IH]; simpl.
  - by rewrite decide_True.
  - destruct (decide (k = k')) as [->|Hne]; simpl.
    + by rewrite decide_True.
    + by rewrite decide_False.
Qed.

Lemma dict_get_set_ne k k' v d :
  k ≠ k' → dict_get k' (dict_set k v d) = dict_get k' d.
Proof.
  intros Hne. induction d as [|[k0 v0] d IH]; simpl.
  - by rewrite decide_False.
  - destruct (decide (k = k0)) as [->|Hne0]; simpl.
    + by rewrite !decide_False.
    + by rewrite IH.
Qed.

Lemma dict_set_set k v v' d : dict_set k v (dict_set k v' d) = dict_set k v d.
Proof.
  induction d as [|[k0 v0] d IH]; simpl.
  - by rewrite decide_True.
  - destruct (decide (k = k0)) as [->|Hne]; simpl.
    + by rewrite decide_True.
    + by rewrite decide_False, IH.
Qed.

Lemma dict_get_Some_keys k v d : dict_get k d = Some v → k ∈ keys d.
Proof.
  unfold keys. induction d as [|[k0 v0] d IH]; simpl; [done|].
  destruct (decide (k = k0)) as [->|Hne]; [left|right; auto].
Qed.

Lemma dict_get_None_keys k d : dict_get k d = None ↔ k ∉ keys d.
Proof.
  unfold keys. induction d as [|[k0 v0] d IH]; simpl.
  - split; [intros _; apply not_elem_of_nil|done].
  - rewrite not_elem_of_cons. destruct (decide (k = k0)) as [->|Hne]; [naive_solver|].
    rewrite IH. naive_solver.
Qed.

Lemma keys_dict_set_in k v d : k ∈ keys d → keys (dict_set k v d) = keys d.
Proof.
  unfold keys. induction d as [|[k0 v0] d IH]; simpl.
  - by intros ?%elem_of_nil.
  - intros Hin. destruct (decide (k = k0)) as [->|Hne]; simpl; [done|].
    f_equal. apply IH. by apply elem_of_cons in Hin as [?|?].
Qed.

Lemma keys_dict_set_notin k v d : k ∉ keys d → keys (dict_set k v d) = keys d ++ [k].
Proof.
  unfold keys. induction d as [|[k0 v0] d IH]; simpl; [done|].
  rewrite not_elem_of_cons. intros [Hne Hnin].
  rewrite decide_False by done. simpl. f_equal. by apply IH.
Qed.
End dict_facts.

(** ** Nodes and insertion *)

Lemma accepts_nil n : accepts n [] = terminal n.
Proof. done. Qed.

Lemma accepts_cons n c w :
  accepts n (c :: w) = match child n c with Some m => accepts m w | None => false end.
Proof. unfold accepts. simpl. by destruct (child n c). Qed.

Lemma accepts_empty_node w : accepts empty_node w = false.
Proof. by destruct w. Qed.

Lemma child_add_chars_eq c w n :
  child (Trie.add_chars (c :: w) n) c
  = Some (Trie.add_chars w (default empty_node (child n c))).
Proof. unfold child. simpl. apply dict_get_set_eq. Qed.

Lemma child_add_chars_ne c c' w n :
  c ≠ c' → child (Trie.add_chars (c :: w) n) c' = child n c'.
Proof. intros. unfold child. simpl. by apply dict_get_set_ne. Qed.

Lemma add_chars_idemp w n : Trie.add_chars w (Trie.add_chars w n) = Trie.add_chars w n.
Proof.
  revert n. induction w as [|c w IH]; intros n; [done|].
  change (Trie.add_chars (c :: w) (Trie.add_chars (c :: w) n)) with
    (Node (terminal (Trie.add_chars (c :: w) n))
       (dict_set c
          (Trie.add_chars w (default empty_node (child (Trie.add_chars (c :: w) n) c)))
          (children (Trie.add_chars (c :: w) n)))).
  rewrite child_add_chars_eq. simpl. by rewrite IH, dict_set_set.
Qed.

Lemma add_idemp w self : Trie.add w (Trie.add w self) = Trie.add w self.
Proof.
  destruct w as [|c w]; [done|]. unfold Trie.add. cbn [Trie.data Trie._tokens].
  rewrite add_chars_idemp. f_equal. set_solver.
Qed.

(** Which words a node accepts after [add_chars]: the added word and those
    accepted before. *)
Lemma accepts_add_chars w n w' :
  accepts (Trie.add_chars w n) w' = bool_decide (w' = w) || accepts n w'.
Proof.
  revert n w'. induction w as [|c w IH]; intros n w'.
  - destruct w' as [|c' w']; [done|]. rewrite !accepts_cons. by destruct n.
  - destruct w' as [|c' w'].
    + rewrite !accepts_nil. by destruct n.
    + rewrite !accepts_cons. destruct (decide (c = c')) as [<-|Hne].
      * rewrite child_add_chars_eq, IH.
        destruct (child n c) as [m|]; simpl.
        -- f_equal. apply bool_decide_ext. naive_solver.
        -- rewrite accepts_empty_node, !orb_false_r. apply bool_decide_ext. naive_solver.
      * rewrite child_add_chars_ne by done.
        rewrite bool_decide_eq_false_2 by congruence. done.
Qed.

Lemma tokens_agree_add w self :
  (∀ x, x ∈ Trie._tokens self ↔ accepts (Trie.data self) x = true) →
  ∀ x, x ∈ Trie._tokens (Trie.add w self) ↔ accepts (Trie.data (Trie.add w self)) x = true.
Proof.
  intros Hagree x. destruct w as [|c w]; [apply Hagree|].
  cbn [Trie.add Trie.data Trie._tokens].
  rewrite accepts_add_chars, orb_true_iff, bool_decide_eq_true, <-Hagree. set_solver.
Qed.

Lemma tokens_agree_update args self :
  (∀ x, x ∈ Trie._tokens self ↔ accepts (Trie.data self) x = true) →
  ∀ x, x ∈ Trie._tokens (Trie.update args self)
       ↔ accepts (Trie.data (Trie.update args self)) x = true.
Proof.
  revert self. induction args as [|w args IH]; intros self Hagree; [done|].
  apply IH. by apply tokens_agree_add.
Qed.

Lemma tokens_update args self x :
  x ∈ Trie._tokens (Trie.update args self) ↔ x ∈ vocabulary args ∨ x ∈ Trie._tokens self.
Proof.
  revert self. induction args as [|w args IH]; intros self; simpl.
  - unfold vocabulary. set_solver.
  - unfold Trie.update in *. simpl. rewrite IH. unfold vocabulary.
    rewrite filter_cons. destruct w as [|c w].
    + rewrite decide_False by naive_solver. done.
    + rewrite decide_True by done. cbn [Trie.add Trie._tokens]. set_solver.
Qed.

Lemma tokens_init args x : x ∈ Trie._tokens (Trie.__init__ args) ↔ x ∈ vocabulary args.
Proof. unfold Trie.__init__. rewrite tokens_update. set_solver. Qed.

Lemma tokens_agree_reachable self :
  reachable self → ∀ x, x ∈ Trie._tokens self ↔ accepts (Trie.data self) x = true.
Proof.
  induction 1 as [args|w self _ IH|args self _ IH].
  - apply tokens_agree_update. intros x. cbn. rewrite accepts_empty_node. set_solver.
  - by apply tokens_agree_add.
  - by apply tokens_agree_update.
Qed.

(** The root of the trie built from [args] accepts exactly the vocabulary. *)
Lemma accepts_init args x :
  accepts (Trie.data (Trie.__init__ args)) x = true ↔ x ∈ vocabulary args.
Proof. rewrite <-tokens_agree_reachable by constructor. apply tokens_init. Qed.

(** ** The order on strings *)

Lemma str_ltb_irrefl a : str_ltb a a = false.
Proof.
  induction a as [|x a IH]; [done|]. simpl.
  by rewrite Nat.ltb_irrefl.
Qed.

Lemma str_ltb_trans a b c : str_ltb a b = true → str_ltb b c = true → str_ltb a c = true.
Proof.
  revert b c. induction a as [|x a IH]; intros [|y b] [|z c]; simpl; try done.
  destruct (Nat.ltb_spec (nat_of_ascii x) (nat_of_ascii y)),
           (Nat.ltb_spec (nat_of_ascii y) (nat_of_ascii x)),
           (Nat.ltb_spec (nat_of_ascii y) (nat_of_ascii z)),
           (Nat.ltb_spec (nat_of_ascii z) (nat_of_ascii y)),
           (Nat.ltb_spec (nat_of_ascii x) (nat_of_ascii z)),
           (Nat.ltb_spec (nat_of_ascii z) (nat_of_ascii x));
    try done; try lia.
  apply IH.
Qed.

Lemma str_ltb_total a b : str_ltb a b = false → str_ltb b a = false → a = b.
Proof.
  revert b. induction a as [|x a IH]; intros [|y b]; simpl; try done.
  destruct (Nat.ltb_spec (nat_of_ascii x) (nat_of_ascii y)),
           (Nat.ltb_spec (nat_of_ascii y) (nat_of_ascii x)); try done; try lia.
  intros Hab Hba. f_equal; [|by apply IH].
  rewrite <-(ascii_nat_embedding x), <-(ascii_nat_embedding y). f_equal. lia.
Qed.

#[local] Instance str_lt_trans : Transitive str_lt.
Proof. intros a b c. apply str_ltb_trans. Qed.

Lemma str_lt_irrefl a : ¬ str_lt a a.
Proof. unfold str_lt. by rewrite str_ltb_irrefl. Qed.

(** [is_sorted] and [NoDup] together are strict sortedness. *)
Lemma is_sorted_NoDup_strict l :
  is_sorted l = true → NoDup l → StronglySorted str_lt l.
Proof.
  intros Hs Hnd. apply Sorted_StronglySorted; [apply _|].
  induction l as [|a l IH]; [constructor|].
  apply NoDup_cons in Hnd as [Hnin Hnd].
  destruct l as [|b l]; [by repeat constructor|].
  simpl in Hs. apply andb_true_iff in Hs as [Hab Hs].
  constructor; [by apply IH|]. constructor.
  apply negb_true_iff in Hab. unfold str_lt.
  destruct (str_ltb a b) eqn:Hlt; [done|].
  exfalso. apply Hnin. rewrite (str_ltb_total a b) by done. left.
Qed.

Lemma strict_is_sorted_NoDup l :
  StronglySorted str_lt l → is_sorted l = true ∧ NoDup l.
Proof.
  induction 1 as [|a l Hs [IHs IHn] Hall]; [split; [done|constructor]|].
  split.
  - destruct l as [|b l]; [done|]. simpl. rewrite andb_true_iff. split; [|done].
    apply negb_true_iff. apply Forall_cons in Hall as [Hab _].
    destruct (str_ltb b a) eqn:Hba; [|done].
    destruct (str_lt_irrefl a). by etrans.
  - constructor; [|done]. intros Hin.
    rewrite Forall_forall in Hall. by apply (str_lt_irrefl a), Hall.
Qed.

Lemma strict_lookup_lt l i j a b :
  StronglySorted str_lt l → i < j → l !! i = Some a → l !! j = Some b → str_lt a b.
Proof.
  intros Hs. revert i j. induction Hs as [|x l Hs IH Hall]; intros i j Hij Hi Hj; [done|].
  destruct j as [|j]; [lia|]. simpl in Hj. destruct i as [|i]; simpl in Hi.
  - simplify_eq. rewrite Forall_forall in Hall. apply Hall. by eapply list_elem_of_lookup_2.
  - eapply (IH i j); [lia|done..].
Qed.

(** ** Binary search and sorted insertion *)

Lemma bisect_loop_spec a x fuel lo hi :
  StronglySorted str_lt a →
  hi - lo ≤ fuel → lo ≤ hi → hi ≤ length a →
  (∀ j aj, j < lo → a !! j = Some aj → str_ltb aj x = true) →
  (∀ j aj, hi ≤ j → a !! j = Some aj → str_ltb aj x = false) →
  ∃ i, bisect_loop fuel a x lo hi = Ok i ∧ i ≤ length a ∧
       (∀ j aj, j < i → a !! j = Some aj → str_ltb aj x = true) ∧
       (∀ j aj, i ≤ j → a !! j = Some aj → str_ltb aj x = false).
Proof.
  intros Hs. revert lo hi.
  induction fuel as [|fuel IH]; intros lo hi Hfuel Hle Hhi Hlo_lt Hhi_ge.
  - exists lo. simpl. rewrite decide_False by lia.
    repeat split; [lia|done|]. intros j aj ?. apply Hhi_ge. lia.
  - cbn [bisect_loop]. destruct (decide (lo < hi)) as [Hlt|Hge]; last first.
    { exists lo. repeat split; [lia|done|]. intros j aj ?. apply Hhi_ge. lia. }
    assert (lo ≤ (lo + hi) `div` 2 < hi) as [Hmid1 Hmid2].
    { split; [apply Nat.div_le_lower_bound|apply Nat.Div0.div_lt_upper_bound]; lia. }
    destruct (lookup_lt_is_Some_2 a ((lo + hi) `div` 2)) as [am Ham]; [lia|].
    rewrite Ham. destruct (str_ltb am x) eqn:Hcmp.
    + apply IH; [lia..| |done].
      intros j aj Hj Haj. destruct (decide (j = (lo + hi) `div` 2)) as [->|Hne].
      * by simplify_eq.
      * eapply str_ltb_trans; [|exact Hcmp].
        eapply (strict_lookup_lt a j ((lo + hi) `div` 2)); [done|lia|done..].
    + apply IH; [lia..|done|].
      intros j aj Hj Haj. destruct (decide (j = (lo + hi) `div` 2)) as [->|Hne].
      * by simplify_eq.
      * destruct (str_ltb aj x) eqn:Hajx; [|done].
        rewrite <-Hcmp. symmetry. eapply str_ltb_trans; [|exact Hajx].
        eapply (strict_lookup_lt a ((lo + hi) `div` 2) j); [done|lia|done..].
Qed.

(** On a sorted duplicate-free list [bisect_left] returns the position that
    separates the elements below [x] from the others. *)
Lemma bisect_left_spec a x :
  StronglySorted str_lt a →
  ∃ i, bisect_left a x = Ok i ∧ i ≤ length a ∧
       Forall (λ y, str_lt y x) (take i a) ∧
       Forall (λ y, str_ltb y x = false) (drop i a).
Proof.
  intros Hs.
  destruct (bisect_loop_spec a x (length a) 0 (length a)) as (i & Hi & Hlen & Hlo & Hhi);
    [done|lia..| | |].
  { intros; lia. }
  { intros j aj Hj Haj. apply lookup_lt_Some in Haj. lia. }
  exists i. repeat split; [done..| |].
  - apply Forall_lookup. intros j y Hy.
    pose proof (lookup_lt_Some _ _ _ Hy) as Hj. rewrite length_take in Hj.
    rewrite lookup_take_lt in Hy by lia. eapply Hlo; [|done]. lia.
  - apply Forall_lookup. intros j y Hy. rewrite lookup_drop in Hy.
    eapply Hhi; [|done]. lia.
Qed.

Lemma strict_insert_at a i x :
  StronglySorted str_lt a →
  Forall (λ y, str_lt y x) (take i a) →
  Forall (λ y, str_lt x y) (drop i a) →
  StronglySorted str_lt (list_insert_at i x a).
Proof.
  intros Hs Hlo Hhi. unfold list_insert_at.
  rewrite <-(take_drop i a) in Hs. apply StronglySorted_app in Hs as (H12 & Hs1 & Hs2).
  apply StronglySorted_app. split_and!; [|done|].
  - intros y z Hy Hz. apply elem_of_cons in Hz as [->|Hz].
    + rewrite Forall_forall in Hlo. by apply Hlo.
    + by apply H12.
  - by constructor.
Qed.

(** C10. On a sorted duplicate-free list, inserting a token that is already
    there leaves the list as it is; inserting a new token puts it at the
    position found by the binary search, and the list stays sorted and
    duplicate-free and holds the old elements plus the token. *)
Theorem insert_one_token_sorted_unique (L : list (list ascii)) (t : str) :
  is_sorted L = true → NoDup L →
  ∃ L', _insert_one_token_to_ordered_list L t = Ok L' ∧
        (t ∈ L → L' = L) ∧
        (t ∉ L →
           ∃ i, bisect_left L t = Ok i ∧ L' = take i L ++ t :: drop i L ∧
                is_sorted L' = true ∧ NoDup L' ∧ L' ≡ₚ t :: L).
Proof.
  intros Hsorted Hnodup.
  pose proof (is_sorted_NoDup_strict L Hsorted Hnodup) as Hs.
  destruct (bisect_left_spec L t Hs) as (i & Hi & Hlen & Hlo & Hhi).
  unfold _insert_one_token_to_ordered_list. rewrite Hi. simpl.
  assert (t ∉ take i L) as Hnot_lo.
  { intros Hin. rewrite Forall_forall in Hlo. by apply (str_lt_irrefl t), Hlo. }
  destruct (decide (i < length L ∧ L !! i = Some t)) as [[Hlt Hat]|Hnot].
  - exists L. split; [done|]. split; [done|]. intros Hnin. destruct Hnin.
    by eapply list_elem_of_lookup_2.
  - eexists. split; [done|].
    assert (t ∈ L → False) as Hnin.
    { intros Hin. rewrite <-(take_drop i L) in Hin.
      apply elem_of_app in Hin as [Hin|Hin]; [done|].
      destruct (drop i L) as [|y rest] eqn:Hdrop; [by apply elem_of_nil in Hin|].
      assert (L !! i = Some y) as Hy.
      { by rewrite <-(Nat.add_0_r i), <-lookup_drop, Hdrop. }
      apply Hnot. split; [by eapply lookup_lt_Some|]. rewrite Hy. f_equal.
      apply elem_of_cons in Hin as [->|Hin]; [done|].
      apply Forall_cons in Hhi as [Hyt _]. apply str_ltb_total; [done|].
      destruct (str_ltb t y) eqn:Hty; [|done].
      assert (StronglySorted str_lt (y :: rest)) as Hs'.
      { rewrite <-Hdrop. rewrite <-(take_drop i L) in Hs.
        by apply StronglySorted_app in Hs as (_ & _ & ?). }
      apply StronglySorted_cons in Hs' as [Hall _]. rewrite Forall_forall in Hall.
      destruct (str_lt_irrefl t). etrans; [exact Hty|]. by apply Hall. }
    split; [done|]. intros _. exists i. split; [done|]. split; [done|].
    assert (StronglySorted str_lt (list_insert_at i t L)) as Hs'.
    { apply strict_insert_at; [done..|].
      apply Forall_forall. intros y Hy. rewrite Forall_forall in Hhi.
      unfold str_lt. destruct (str_ltb t y) eqn:Hty; [done|].
      destruct Hnin. rewrite (str_ltb_total t y); [|done|by apply Hhi].
      rewrite <-(take_drop i L). apply elem_of_app. by right. }
    apply strict_is_sorted_NoDup in Hs' as [? ?]. split; [done|]. split; [done|].
    unfold list_insert_at. rewrite <-Permutation_middle. by rewrite take_drop.
Qed.

Lemma insert_one_token_sorted_unique_witness :
  is_sorted (chars <$> ["a"; "c"; "e"]%string) = true ∧
  NoDup (chars <$> ["a"; "c"; "e"]%string) ∧
  ∃ L', _insert_one_token_to_ordered_list (chars <$> ["a"; "c"; "e"]%string) (chars "d") = Ok L' ∧
        (chars "d" ∈ chars <$> ["a"; "c"; "e"]%string → L' = chars <$> ["a"; "c"; "e"]%string) ∧
        (chars "d" ∉ chars <$> ["a"; "c"; "e"]%string →
           ∃ i, bisect_left (chars <$> ["a"; "c"; "e"]%string) (chars "d") = Ok i ∧
                L' = take i (chars <$> ["a"; "c"; "e"]%string)
                       ++ chars "d" :: drop i (chars <$> ["a"; "c"; "e"]%string) ∧
                is_sorted L' = true ∧ NoDup L' ∧
                L' ≡ₚ chars "d" :: (chars <$> ["a"; "c"; "e"]%string)).
Proof.
  split; [reflexivity|]. split; [apply (bool_decide_unpack _); vm_compute; exact I|].
  apply (insert_one_token_sorted_unique (chars <$> ["a"; "c"; "e"]%string) (chars "d"));
    [reflexivity|apply (bool_decide_unpack _); vm_compute; exact I].
Defined.

(** ** Insertion and the token set *)

(** C7. Insertion is idempotent: adding a word twice, or any number of
    times above one, leaves the node tree and the token set as one [add]
    leaves them, and so [split] answers the same on every text. *)
Theorem add_idempotent (self : Trie.t) (w : str) (n : nat) (text : str) :
  Trie.add w (Trie.add w self) = Trie.add w self ∧
  Nat.iter (2 + n) (Trie.add w) self = Trie.add w self ∧
  Trie.split text (Nat.iter (2 + n) (Trie.add w) self) = Trie.split text (Trie.add w self).
Proof.
  assert (Nat.iter (2 + n) (Trie.add w) self = Trie.add w self) as Hiter.
  { induction n as [|n IH]; simpl in *; [apply add_idemp|].
    by rewrite IH, add_idemp. }
  split; [apply add_idemp|]. split; [done|]. by rewrite Hiter.
Qed.

(** C8. In every state reached by construction followed by [add] and
    [update] calls, a word is in the token set exactly when the walk from
    the root along its characters ends at a node that bears the termination
    marker. *)
Theorem tokens_agree_with_tree (self : Trie.t) (w : str) :
  reachable self →
  (w ∈ Trie._tokens self ↔ ∃ n, walk (Trie.data self) w = Some n ∧ terminal n = true).
Proof.
  intros Hreach. rewrite (tokens_agree_reachable self Hreach). unfold accepts.
  destruct (walk (Trie.data self) w) as [m|]; naive_solver.
Qed.

Lemma tokens_agree_with_tree_witness :
  reachable (Trie.add (chars "b") (Trie.__init__ [chars "ab"; chars "a"])) ∧
  (chars "ab" ∈ Trie._tokens (Trie.add (chars "b") (Trie.__init__ [chars "ab"; chars "a"]))
   ↔ ∃ n, walk (Trie.data (Trie.add (chars "b") (Trie.__init__ [chars "ab"; chars "a"])))
            (chars "ab") = Some n ∧ terminal n = true).
Proof.
  split.
  - apply reachable_add, reachable_init.
  - apply (tokens_agree_with_tree
             (Trie.add (chars "b") (Trie.__init__ [chars "ab"; chars "a"])) (chars "ab")).
    apply reachable_add, reachable_init.
Defined.

(** ** [split] on concrete inputs and its effect on the object *)

(** C2. With the vocabulary extra_id_1 and extra_id_100, in either order of
    insertion, the text [a extra_id_100 b] is split into [a ],
    [extra_id_100] and [ b]: the lookahead takes the longest continuation. *)
Theorem split_longest_match :
  (Trie.split (chars "a extra_id_100 b")
     (Trie.__init__ [chars "extra_id_1"; chars "extra_id_100"])).1
  = Ok [chars "a "; chars "extra_id_100"; chars " b"] ∧
  (Trie.split (chars "a extra_id_100 b")
     (Trie.__init__ [chars "extra_id_100"; chars "extra_id_1"])).1
  = Ok [chars "a "; chars "extra_id_100"; chars " b"].
Proof. split; vm_compute; reflexivity. Qed.


(** ** [cut_text] on an inverted span *)

(** C5. On the offsets [1, 0] for the text [ab], the second offset is below
    the cut already made at 1; the branch meant to log and skip evaluates
    the unbound name [logger], and the call raises instead of returning the
    fragments. *)
Theorem cut_text_inverted_span_raises :
  Trie.cut_text (chars "ab") [1; 0] = Raise (NameError "logger").
Proof. reflexivity. Qed.

(** The same for every offsets list that starts with an inverted pair. *)
Lemma cut_text_inverted_head text a b rest :
  b < a → Trie.cut_text text (a :: b :: rest) = Raise (NameError "logger").
Proof.
  intros Hlt. unfold Trie.cut_text. cbn [app Trie.cut_loop].
  repeat case_decide; done || lia.
Qed.

(** ** Well-formed trees *)

Lemma node_ind' (P : node → Prop) :
  (∀ t cs, Forall (λ kc, P kc.2) cs → P (Node t cs)) → ∀ n, P n.
Proof.
  intros H. fix IH 1. intros [t cs]. apply H.
  induction cs as [|[k c] cs IHcs]; constructor; [apply IH|apply IHcs].
Qed.

Section dict_values.
Context {K V : Type} `{!EqDecision K}.
Implicit Types (k : K) (v : V) (d : list (K * V)).

Lemma dict_get_elem_of k v d : dict_get k d = Some v → (k, v) ∈ d.
Proof.
  induction d as [|[k0 v0] d IH]; simpl; [done|].
  destruct (decide (k = k0)) as [->|Hne].
  - intros [= ->]. left.
  - intros. right. auto.
Qed.

Lemma elem_of_dict_get k v d : NoDup (keys d) → (k, v) ∈ d → dict_get k d = Some v.
Proof.
  unfold keys. induction d as [|[k0 v0] d IH]; simpl.
  - by intros _ ?%elem_of_nil.
  - intros [Hnin Hnd]%NoDup_cons [Heq|Hin]%elem_of_cons.
    + simplify_eq. by rewrite decide_True.
    + rewrite decide_False; [by apply IH|].
      intros ->. apply Hnin. by apply (list_elem_of_fmap_2 fst _ (k0, v)).
Qed.

Lemma Forall_dict_set (P : K * V → Prop) k v d :
  P (k, v) → Forall P d → Forall P (dict_set k v d).
Proof.
  intros Hv. induction 1 as [|[k0 v0] d Hx Hd IH]; simpl; [by repeat constructor|].
  destruct (decide (k = k0)); by constructor.
Qed.

Lemma NoDup_keys_dict_set k v d : NoDup (keys d) → NoDup (keys (dict_set k v d)).
Proof.
  intros Hnd. destruct (decide (k ∈ keys d)) as [Hin|Hnin].
  - by rewrite keys_dict_set_in.
  - rewrite keys_dict_set_notin by done.
    apply NoDup_app. split_and!; [done| |apply NoDup_singleton].
    intros x Hx ->%list_elem_of_singleton. done.
Qed.
End dict_values.

Lemma wf_empty_node : wf_node empty_node.
Proof. constructor; [apply NoDup_nil_2|constructor]. Qed.

Lemma wf_child n c m : wf_node n → child n c = Some m → wf_node m.
Proof.
  intros Hwf Hc. destruct Hwf as [t cs Hnd Hall]. unfold child in Hc. simpl in Hc.
  apply dict_get_elem_of in Hc. rewrite Forall_forall in Hall. by apply (Hall (c, m)).
Qed.

Lemma wf_walk n w m : wf_node n → walk n w = Some m → wf_node m.
Proof.
  revert n. induction w as [|c w IH]; intros n Hwf; simpl.
  - by intros [= <-].
  - destruct (child n c) as [n'|] eqn:Hc; [|done]. simpl. apply IH. by eapply wf_child.
Qed.

Lemma wf_add_chars w n : wf_node n → wf_node (Trie.add_chars w n).
Proof.
  revert n. induction w as [|c w IH]; intros n Hwf.
  - destruct Hwf. by constructor.
  - simpl. assert (wf_node (default empty_node (child n c))) as Hsub.
    { destruct (child n c) eqn:Hc; simpl; [by eapply wf_child|apply wf_empty_node]. }
    destruct Hwf as [t cs Hnd Hall]. constructor.
    + by apply NoDup_keys_dict_set.
    + apply Forall_dict_set; [|done]. by apply IH.
Qed.

Lemma wf_reachable self : reachable self → wf_node (Trie.data self).
Proof.
  assert (∀ w s, wf_node (Trie.data s) → wf_node (Trie.data (Trie.add w s))) as Hadd.
  { intros [|c w] s Hs; [done|]. by apply wf_add_chars. }
  assert (∀ args s, wf_node (Trie.data s) → wf_node (Trie.data (Trie.update args s)))
    as Hupd.
  { intros args. induction args as [|w args IH]; intros s Hs; [done|].
    apply IH. by apply Hadd. }
  induction 1; [apply Hupd, wf_empty_node|by apply Hadd|by apply Hupd].
Qed.

(** ** [extensions] *)

Lemma walk_app n p s : walk n (p ++ s) = walk n p ≫= λ m, walk m s.
Proof.
  revert n. induction p as [|c p IH]; intros n; simpl; [done|].
  destruct (child n c); simpl; [apply IH|done].
Qed.

Lemma accepts_app n p m s : walk n p = Some m → accepts n (p ++ s) = accepts m s.
Proof. intros Hp. unfold accepts. by rewrite walk_app, Hp. Qed.

Lemma walk_followed n token :
  walk n (followed n token) = Some (ExtensionsTrie._get_node n token).
Proof.
  revert n. induction token as [|c token IH]; intros n; simpl; [done|].
  destruct (child n c) as [m|] eqn:Hc; simpl; [|done]. rewrite Hc. simpl. apply IH.
Qed.

Lemma followed_all n token : is_Some (walk n token) → followed n token = token.
Proof.
  revert n. induction token as [|c token IH]; intros n; simpl; [done|].
  destruct (child n c) as [m|]; simpl; [|by intros [? ?]].
  intros. f_equal. by apply IH.
Qed.

Lemma elem_of_collect_items f cs w :
  w ∈ ExtensionsTrie.collect_items f cs ↔ ∃ k c w', (k, c) ∈ cs ∧ w = k :: w' ∧ w' ∈ f c.
Proof.
  induction cs as [|[k c] cs IH]; simpl.
  - split; [by intros ?%elem_of_nil|]. intros (? & ? & ? & ?%elem_of_nil & _). done.
  - rewrite elem_of_app, IH, list_elem_of_fmap. split.
    + intros [(w' & -> & Hw')|(k' & c' & w' & Hin & -> & Hw')].
      * exists k, c, w'. split; [left|done].
      * exists k', c', w'. split; [by right|done].
    + intros (k' & c' & w' & [Heq|Hin]%elem_of_cons & -> & Hw').
      * simplify_eq. left. by exists w'.
      * right. by exists k', c', w'.
Qed.

(** [_collect_tokens] lists exactly the suffixes that lead from the node to
    a termination marker. *)
Lemma elem_of_collect_tokens n w :
  wf_node n → (w ∈ ExtensionsTrie._collect_tokens n ↔ accepts n w = true).
Proof.
  revert w. induction n as [t cs IH] using node_ind'. intros w Hwf.
  inversion Hwf as [? ? Hnd Hall]; subst.
  cbn [ExtensionsTrie._collect_tokens]. rewrite elem_of_app, elem_of_collect_items.
  destruct w as [|c w].
  - rewrite accepts_nil. simpl. split.
    + intros [Hin|(? & ? & ? & _ & ? & _)]; [|done].
      destruct t; [done|by apply elem_of_nil in Hin].
    + intros ->. left. left.
  - rewrite accepts_cons. unfold child. simpl. split.
    + intros [Hin|(k & m & w' & Hin & [= -> ->] & Hw')].
      { destruct t; [|by apply elem_of_nil in Hin].
        by apply list_elem_of_singleton in Hin. }
      rewrite (elem_of_dict_get k m cs Hnd Hin).
      rewrite Forall_forall in IH, Hall.
      by apply (IH (k, m) Hin w' (Hall (k, m) Hin)).
    + destruct (dict_get c cs) as [m|] eqn:Hget; [|done]. intros Hacc.
      apply dict_get_elem_of in Hget.
      right. exists c, m, w. split; [done|]. split; [done|].
      rewrite Forall_forall in IH, Hall.
      by apply (IH (c, m) Hget w (Hall (c, m) Hget)).
Qed.

(** What [extensions] returns on any state and any prefix: the prefix
    followed by each suffix that completes, to an inserted word, the part of
    the prefix that the tree follows. *)
Lemma extensions_followed self prefix x :
  reachable self →
  (x ∈ ExtensionsTrie.extensions prefix self ↔
   ∃ s, x = prefix ++ s ∧ followed (Trie.data self) prefix ++ s ∈ Trie._tokens self).
Proof.
  intros Hreach. unfold ExtensionsTrie.extensions. rewrite list_elem_of_fmap.
  pose proof (walk_followed (Trie.data self) prefix) as Hwalk.
  apply exist_proper. intros s. apply and_iff_compat_l.
  rewrite elem_of_collect_tokens by (eapply wf_walk; [by apply wf_reachable|done]).
  rewrite (tokens_agree_reachable self Hreach). by rewrite (accepts_app _ _ _ _ Hwalk).
Qed.

Lemma walk_prefix_of n p w : p `prefix_of` w → is_Some (walk n w) → is_Some (walk n p).
Proof.
  intros [k ->]. rewrite walk_app. destruct (walk n p); [by eexists|by intros [? ?]].
Qed.

(** C3, amended. When the prefix is empty or begins some inserted word,
    [extensions] returns, as a set, exactly the inserted words that start
    with the prefix. *)
Theorem extensions_of_present_prefix (args : list (list ascii)) (prefix x : str) :
  prefix = [] ∨ (∃ w, w ∈ vocabulary args ∧ prefix `prefix_of` w) →
  (x ∈ ExtensionsTrie.extensions prefix (ExtensionsTrie.__init__ args)
   ↔ x ∈ vocabulary args ∧ prefix `prefix_of` x).
Proof.
  intros Hpre. unfold ExtensionsTrie.__init__.
  rewrite extensions_followed by constructor.
  rewrite followed_all; last first.
  { destruct Hpre as [->|(w & Hw & Hpw)]; [by eexists|].
    apply (walk_prefix_of _ _ w Hpw). apply accepts_init in Hw. unfold accepts in Hw.
    destruct (walk _ w); [by eexists|done]. }
  split.
  - intros (s & -> & Hin). split; [by apply tokens_init|by exists s].
  - intros [Hin [s ->]]. exists s. split; [done|by apply tokens_init].
Qed.

Lemma extensions_of_present_prefix_witness :
  (chars "app" = [] ∨
   ∃ w, w ∈ vocabulary (chars <$> ["apple"; "app"; "application"; "bee"]%string)
        ∧ chars "app" `prefix_of` w) ∧
  (chars "apple" ∈ ExtensionsTrie.extensions (chars "app")
       (ExtensionsTrie.__init__ (chars <$> ["apple"; "app"; "application"; "bee"]%string))
   ↔ chars "apple" ∈ vocabulary (chars <$> ["apple"; "app"; "application"; "bee"]%string)
     ∧ chars "app" `prefix_of` chars "apple").
Proof.
  assert (chars "app" = [] ∨
     ∃ w, w ∈ vocabulary (chars <$> ["apple"; "app"; "application"; "bee"]%string)
          ∧ chars "app" `prefix_of` w) as Hpre.
  { right. exists (chars "app"). split; [|done].
    apply (bool_decide_unpack _). vm_compute. exact I. }
  split; [exact Hpre|].
  apply (extensions_of_present_prefix
           (chars <$> ["apple"; "app"; "application"; "bee"]%string)
           (chars "app") (chars "apple") Hpre).
Defined.

(** C3 as stated fails on a prefix that leaves the tree: with the single
    word [app], the prefix [apx] stops at the node of [ap], and the answer
    is [apxp], which is no inserted word. *)
Lemma extensions_departing_prefix_counterexample :
  ExtensionsTrie.extensions (chars "apx") (ExtensionsTrie.__init__ [chars "app"])
    = [chars "apxp"] ∧
  ¬ (∀ x, x ∈ ExtensionsTrie.extensions (chars "apx") (ExtensionsTrie.__init__ [chars "app"])
          ↔ x ∈ vocabulary [chars "app"] ∧ chars "apx" `prefix_of` x).
Proof.
  split; [reflexivity|]. intros H.
  destruct (H (chars "apxp")) as [H1 _].
  destruct H1 as [Hin _]; [left|].
  revert Hin. apply (bool_decide_unpack _). vm_compute. exact I.
Qed.

(** ** The lookahead *)

Lemma record_match_cases p ls idx c :
  Trie.record_match p ls idx c = c ∨ Trie.record_match p ls idx c = (ls, Some idx, idx).
Proof. unfold Trie.record_match. destruct (terminal p); auto. Qed.

(** With fuel for the rest of the text the [while] returns; it either leaves
    the cut as it was or moves it to a later end for [lookstart]. *)
Lemma lookahead_while_spec text ls fuel nc ptr idx c :
  nc = text !! idx → length text - idx ≤ fuel →
  ∃ c', Trie.lookahead_while fuel text ls nc ptr idx c = Ok c' ∧
        (c' = c ∨ ∃ e, c' = (ls, Some e, e) ∧ idx < e ≤ length text).
Proof.
  revert nc ptr idx c. induction fuel as [|fuel IH]; intros nc ptr idx c -> Hfuel.
  - simpl. rewrite lookup_ge_None_2 by lia. simpl. eauto.
  - cbn [Trie.lookahead_while]. destruct (text !! idx) as [ch|] eqn:Hch; simpl; [|eauto].
    destruct (child ptr ch) as [p'|]; [|eauto].
    apply lookup_lt_Some in Hch.
    destruct (decide (idx + 1 = length text)) as [Hend|Hnend].
    + eexists. split; [done|].
      destruct (record_match_cases p' ls (idx + 1) c) as [-> | ->]; [by left|].
      right. eexists. split; [done|lia].
    + destruct (lookup_lt_is_Some_2 text (idx + 1)) as [ch' Hch']; [lia|]. rewrite Hch'.
      destruct (IH (Some ch') p' (idx + 1) (Trie.record_match p' ls (idx + 1) c))
        as (c' & Hrun & Hc'); [done|lia|].
      exists c'. split; [done|].
      destruct Hc' as [->|(e & -> & He)].
      * destruct (record_match_cases p' ls (idx + 1) c) as [-> | ->]; [by left|].
        right. eexists. split; [done|lia].
      * right. eexists. split; [done|lia].
Qed.

(** Once the cut belongs to a start below all the remaining ones, the [for]
    of the lookahead stops. *)
Lemma lookahead_for_break text current items s eo sk :
  Forall (λ k, s < k) (keys items) →
  Trie.lookahead_for text current items (s, eo, sk) = Ok (s, eo, sk).
Proof.
  destruct items as [|[ls lp] items]; [done|].
  intros [Hlt _]%Forall_cons. simpl in *. by rewrite decide_True.
Qed.

Lemma sorted_keys_cons (V : Type) (k0 : nat) (v0 : V) (d : list (nat * V)) :
  StronglySorted lt (keys ((k0, v0) :: d))
  ↔ Forall (λ k, k0 < k) (keys d) ∧ StronglySorted lt (keys d).
Proof. apply StronglySorted_cons. Qed.

Lemma elem_of_keys {K V : Type} (k : K) (v : V) (d : list (K * V)) : (k, v) ∈ d → k ∈ keys d.
Proof. apply (list_elem_of_fmap_2 fst). Qed.

Lemma sorted_keys_head (V : Type) (k k0 : nat) (v0 : V) (d : list (nat * V)) :
  StronglySorted lt (keys ((k0, v0) :: d)) → k ∈ keys ((k0, v0) :: d) → k0 ≤ k.
Proof.
  intros [Hall _]%sorted_keys_cons [->|Hin]%elem_of_cons; [done|].
  rewrite Forall_forall in Hall. apply Hall in Hin. lia.
Qed.

Lemma sorted_keys_NoDup (V : Type) (d : list (nat * V)) :
  StronglySorted lt (keys d) → NoDup (keys d).
Proof.
  induction 1 as [|k l Hs IH Hall]; [constructor|]. constructor; [|done].
  intros Hin. rewrite Forall_forall in Hall. apply Hall in Hin. lia.
Qed.

(** The lookahead started for a terminal state [s] returns a cut for a
    state at or before [s], with an end from [current] on and within the
    text, and leaves [skip] at that end. *)
Lemma lookahead_for_spec text current items s eo sk :
  current < length text →
  StronglySorted lt (keys items) →
  (∃ ptr, (s, ptr) ∈ items ∧ terminal ptr = true) →
  ∃ s' e', Trie.lookahead_for text current items (s, eo, sk) = Ok (s', Some e', e') ∧
           s' ∈ keys items ∧ s' ≤ s ∧ current ≤ e' ≤ length text.
Proof.
  intros Hcur. revert eo sk.
  induction items as [|[ls lp] items IH]; intros eo sk Hsorted (ptr & Hin & Hterm).
  { by apply elem_of_nil in Hin. }
  assert (ls ≤ s) as Hle.
  { eapply sorted_keys_head; [done|]. by eapply elem_of_keys. }
  pose proof Hsorted as [Hall Hsorted']%sorted_keys_cons.
  cbn [Trie.lookahead_for]. rewrite decide_False by lia.
  destruct (decide (ls < s)) as [Hlt|Hge].
  - destruct (lookahead_while_spec text ls (length text) (text !! (current + 1)) lp
                (current + 1)
                (Trie.record_match lp ls (current + 1) (s, Some (current + 1), sk)))
      as (c' & -> & Hc'); [done|lia|]. simpl.
    assert (c' = (s, Some (current + 1), sk)
            ∨ ∃ e, c' = (ls, Some e, e) ∧ current < e ≤ length text) as [->|(e & -> & He)].
    { destruct Hc' as [->|(e & -> & He)].
      - destruct (record_match_cases lp ls (current + 1) (s, Some (current + 1), sk))
          as [-> | ->]; [by left|]. right. eexists. split; [done|lia].
      - right. eexists. split; [done|lia]. }
    + destruct (IH (Some (current + 1)) sk Hsorted') as (s' & e' & -> & Hs' & ? & ?).
      { exists ptr. split; [|done].
        apply elem_of_cons in Hin as [Heq|Hin]; [|done]. simplify_eq. lia. }
      exists s', e'. split; [done|]. split; [by right|done].
    + rewrite lookahead_for_break by done.
      exists ls, e. split; [done|]. split; [left|lia].
  - assert (ls = s) as -> by lia.
    assert (lp = ptr) as ->.
    { apply elem_of_cons in Hin as [Heq|Hin]; [by simplify_eq|].
      apply elem_of_keys in Hin.
      rewrite Forall_forall in Hall. apply Hall in Hin. lia. }
    unfold Trie.record_match at 1. rewrite Hterm.
    destruct (lookahead_while_spec text s (length text) (text !! current) ptr current
                (s, Some current, current)) as (c' & -> & Hc'); [done|lia|]. simpl.
    assert (∃ e, c' = (s, Some e, e) ∧ current ≤ e ≤ length text) as (e & -> & He).
    { destruct Hc' as [->|(e & -> & He)]; eexists; (split; [done|lia]). }
    rewrite lookahead_for_break by done.
    exists s, e. split; [done|]. split; [left|lia].
Qed.

(** ** One iteration of the scan *)

Lemma keys_app {K V : Type} (d1 d2 : list (K * V)) : keys (d1 ++ d2) = keys d1 ++ keys d2.
Proof. apply fmap_app. Qed.

Lemma dict_set_middle {K V : Type} `{!EqDecision K} (k : K) (v v0 : V) d1 d2 :
  k ∉ keys d1 → dict_set k v (d1 ++ (k, v0) :: d2) = d1 ++ (k, v) :: d2.
Proof.
  induction d1 as [|[k1 v1] d1 IH]; simpl.
  - intros _. by rewrite decide_True.
  - intros [Hne Hnin]%not_elem_of_cons. rewrite decide_False by done. f_equal. by apply IH.
Qed.

Lemma sublist_keys {K V : Type} (d1 d2 : list (K * V)) :
  d1 `sublist_of` d2 → keys d1 `sublist_of` keys d2.
Proof. induction 1; simpl; by constructor. Qed.

Lemma sublist_strongly_sorted {A} (R : relation A) (l1 l2 : list A) :
  l1 `sublist_of` l2 → StronglySorted R l2 → StronglySorted R l1.
Proof.
  induction 1 as [|x l1 l2 Hsub IH|x l1 l2 Hsub IH]; [done|..].
  - intros [Hall Hs]%StronglySorted_cons. apply StronglySorted_cons. split; [|auto].
    rewrite Forall_forall in *. intros y Hy. apply Hall. by eapply elem_of_sublist.
  - intros [_ Hs]%StronglySorted_cons. auto.
Qed.

Lemma sublist_Forall' {A} (P : A → Prop) (l1 l2 : list A) :
  l1 `sublist_of` l2 → Forall P l2 → Forall P l1.
Proof.
  intros Hsub. rewrite !Forall_forall. intros H x Hx. apply H. by eapply elem_of_sublist.
Qed.

Lemma dict_del_spec {V : Type} (k : nat) (d : list (nat * V)) :
  k ∈ keys d →
  ∃ d', dict_del k d = Ok d' ∧ d' `sublist_of` d ∧
        ∀ k', k' ≠ k → k' ∈ keys d → k' ∈ keys d'.
Proof.
  induction d as [|[k0 v0] d IH]; [by intros ?%elem_of_nil|].
  intros Hin. simpl. destruct (decide (k = k0)) as [->|Hne].
  - exists d. split; [done|]. split; [by constructor|].
    intros k' Hk' [?|?]%elem_of_cons; [by simplify_eq|done].
  - apply elem_of_cons in Hin as [?|Hin]; [by simplify_eq|].
    destruct (IH Hin) as (d' & -> & Hsub & Hkeep). simpl.
    exists ((k0, v0) :: d'). split; [done|]. split; [by constructor|].
    intros k' Hk' [->|Hin']%elem_of_cons; [left|right; by apply Hkeep].
Qed.

Lemma del_all_spec to_remove d :
  to_remove ⊆ keys d → NoDup to_remove →
  ∃ d', Trie.del_all to_remove d = Ok d' ∧ d' `sublist_of` d.
Proof.
  revert d. induction to_remove as [|k tr IH]; intros d Hsub Hnd.
  - by exists d.
  - apply NoDup_cons in Hnd as [Hnin Hnd]. simpl.
    destruct (dict_del_spec k d) as (d1 & -> & Hsub1 & Hkeep); [apply Hsub; left|].
    simpl. destruct (IH d1) as (d' & -> & Hsub'); [|done|].
    { intros k' Hk'. apply Hkeep; [by intros ->|]. apply Hsub. by right. }
    exists d'. split; [done|]. by etrans.
Qed.

Lemma set_add_spec x s : NoDup s → NoDup (Trie.set_add x s) ∧ ∀ y, y ∈ Trie.set_add x s ↔ y = x ∨ y ∈ s.
Proof.
  intros Hnd. unfold Trie.set_add. destruct (decide (x ∈ s)) as [Hin|Hnin].
  - split; [done|]. intros y. naive_solver.
  - split.
    + apply NoDup_app. split_and!; [done| |apply NoDup_singleton].
      intros y Hy ->%list_elem_of_singleton. done.
    + intros y. rewrite elem_of_app, list_elem_of_singleton. naive_solver.
Qed.

(** What the scan of [states] at [current] returns: either a match, whose
    cut belongs to a start in [states] and ends from [current] on, or the
    same starts with their pointers advanced and the dead ones listed. *)
Lemma for_states_spec text current ch items done' to_remove l :
  current < length text →
  Trie.states l = done' ++ items →
  StronglySorted lt (keys (Trie.states l)) →
  to_remove ⊆ keys done' → NoDup to_remove →
  ∃ l' tr' reset,
    Trie.for_states text current ch items to_remove l = Ok (l', tr', reset) ∧
    if reset : bool then
      ∃ s e, Trie.offsets l' = Trie.offsets l ++ [s; e] ∧ Trie.skip l' = e ∧
             s ∈ keys (Trie.states l) ∧ current ≤ e ≤ length text
    else
      keys (Trie.states l') = keys (Trie.states l) ∧
      Trie.offsets l' = Trie.offsets l ∧ Trie.skip l' = Trie.skip l ∧
      tr' ⊆ keys (Trie.states l') ∧ NoDup tr'.
Proof.
  intros Hcur. revert done' to_remove l.
  induction items as [|[start tp] items IH]; intros done' to_remove l Hst Hsorted Htr Hnd.
  - exists l, to_remove, false. split; [done|]. rewrite app_nil_r in Hst.
    by rewrite Hst.
  - cbn [Trie.for_states]. destruct (terminal tp) eqn:Hterm.
    + destruct (lookahead_for_spec text current (Trie.states l) start (Trie.end_ l)
                  (Trie.skip l)) as (s' & e' & -> & Hs' & Hle & He'); [done..| |].
      { exists tp. split; [|done]. rewrite Hst. apply elem_of_app. right. left. }
      simpl. eexists _, _, true. split; [done|]. exists s', e'. done.
    + assert (start ∉ keys done') as Hnin.
      { rewrite Hst, keys_app in Hsorted.
        apply StronglySorted_app in Hsorted as (H12 & _ & _).
        intros Hin. assert (start < start); [|lia]. apply H12; [done|left]. }
      destruct (child tp ch) as [p|].
      * destruct (IH (done' ++ [(start, p)]) to_remove
                    (Trie.Locals (dict_set start p (Trie.states l)) (Trie.offsets l)
                       (Trie.skip l) (Trie.end_ l)))
          as (l' & tr' & reset & -> & Hres).
        { cbn [Trie.states]. rewrite Hst, dict_set_middle by done. by rewrite <-app_assoc. }
        { cbn [Trie.states]. rewrite keys_dict_set_in; [done|].
          rewrite Hst, keys_app. apply elem_of_app. right. left. }
        { intros k Hk. rewrite keys_app. apply elem_of_app. left. by apply Htr. }
        { done. }
        exists l', tr', reset. split; [done|].
        assert (keys (dict_set start p (Trie.states l)) = keys (Trie.states l)) as Hkeys.
        { apply keys_dict_set_in. rewrite Hst, keys_app. apply elem_of_app. right. left. }
        destruct reset; cbn [Trie.states Trie.offsets Trie.skip] in Hres.
        -- by rewrite Hkeys in Hres.
        -- by rewrite Hkeys in Hres.
      * destruct (set_add_spec start to_remove Hnd) as [Hnd' Hmem].
        destruct (IH (done' ++ [(start, tp)]) (Trie.set_add start to_remove) l)
          as (l' & tr' & reset & -> & Hres); [by rewrite <-app_assoc|done| |done|].
        { intros k [->|Hk]%Hmem; rewrite keys_app; apply elem_of_app.
          - right. left.
          - left. by apply Htr. }
        by exists l', tr', reset.
Qed.

Lemma step_inv root text current ch l :
  current < length text → loop_inv text current l →
  ∃ l', Trie.step root text current ch l = Ok l' ∧ loop_inv text (S current) l' ∧
        ∃ extra, Trie.offsets l' = Trie.offsets l ++ extra.
Proof.
  intros Hcur [Hks Hkr Hos Hol Hsk]. unfold Trie.step.
  destruct (negb (Trie.skip l =? 0) && (current <? Trie.skip l)) eqn:Hskip.
  { exists l. split; [done|]. split; [|exists []; by rewrite app_nil_r].
    split; [done| |done..]. eapply Forall_impl; [done|]. simpl. lia. }
  destruct (for_states_spec text current ch (Trie.states l) [] [] l)
    as (l' & tr' & reset & -> & Hres); [done..|by intros ? ?%elem_of_nil|constructor|].
  cbn [mbind res_bind]. destruct reset.
  - destruct Hres as (s & e & Hoff & Hske & Hs & He). cbn [mbind res_bind].
    rewrite Forall_forall in Hkr. specialize (Hkr s Hs).
    eexists. split; [done|]. split; [|by eexists].
    split; cbn [Trie.states Trie.offsets Trie.skip].
    + destruct (Trie.skip l' <=? current); [|constructor].
      destruct (child root ch); repeat constructor.
    + destruct (Nat.leb_spec (Trie.skip l') current); [|constructor].
      destruct (child root ch); repeat constructor; simpl; lia.
    + rewrite Hoff. apply StronglySorted_app. split_and!; [|done|].
      * rewrite Forall_forall in Hol. intros x1 x2 Hx1%Hol Hx2.
        assert (s ≤ x2); [|lia].
        apply elem_of_cons in Hx2 as [->|Hx2]; [done|].
        apply list_elem_of_singleton in Hx2 as ->. lia.
      * repeat constructor. lia.
    + rewrite Hoff, Hske. apply Forall_app. split.
      * eapply Forall_impl; [done|]. simpl. lia.
      * repeat constructor. lia.
    + lia.
  - destruct Hres as (Hkeys & Hoff & Hske & Htr & Hnd).
    destruct (del_all_spec tr' (Trie.states l')) as (d' & -> & Hsub); [done..|].
    cbn [mbind res_bind]. eexists. split; [done|].
    apply sublist_keys in Hsub. rewrite Hkeys in Hsub.
    pose proof (sublist_strongly_sorted _ _ _ Hsub Hks) as Hks'.
    pose proof (sublist_Forall' _ _ _ Hsub Hkr) as Hkr'.
    rewrite Hoff, Hske. split; [|exists []; by rewrite app_nil_r].
    split; cbn [Trie.states Trie.offsets Trie.skip]; [| |done..].
    + destruct (Trie.skip l <=? current); [|done].
      destruct (child root ch); [|done].
      rewrite keys_dict_set_notin.
      * apply StronglySorted_app. split_and!; [|done|repeat constructor].
        rewrite Forall_forall in Hkr'.
        intros x1 x2 Hx1%Hkr' ->%list_elem_of_singleton. lia.
      * intros Hin. rewrite Forall_forall in Hkr'. apply Hkr' in Hin. lia.
    + destruct (Nat.leb_spec (Trie.skip l) current).
      * destruct (child root ch).
        -- rewrite keys_dict_set_notin.
           ++ apply Forall_app. split; [|repeat constructor; lia].
              eapply Forall_impl; [done|]. simpl. lia.
           ++ intros Hin. rewrite Forall_forall in Hkr'. apply Hkr' in Hin. lia.
        -- eapply Forall_impl; [done|]. simpl. lia.
      * eapply Forall_impl; [done|]. simpl. lia.
Qed.

Lemma main_loop_inv root text current rest l :
  current + length rest = length text → loop_inv text current l →
  ∃ l', Trie.main_loop root text current rest l = Ok l' ∧ loop_inv text (length text) l' ∧
        ∃ extra, Trie.offsets l' = Trie.offsets l ++ extra.
Proof.
  revert current l. induction rest as [|ch rest IH]; intros current l Hlen Hinv.
  - simpl in *. exists l. split; [done|]. split; [|exists []; by rewrite app_nil_r].
    by replace (length text) with current by lia.
  - simpl in Hlen. cbn [Trie.main_loop].
    destruct (step_inv root text current ch l) as (l1 & -> & Hinv1 & ex1 & Hex1); [lia|done|].
    cbn [mbind res_bind].
    destruct (IH (S current) l1) as (l' & -> & Hinv' & ex2 & Hex2); [lia|done|].
    exists l'. split; [done|]. split; [done|].
    exists (ex1 ++ ex2). by rewrite Hex2, Hex1, <-app_assoc.
Qed.

Lemma loop_inv_init text : loop_inv text 0 (Trie.Locals [] [0] 0 None).
Proof. split; simpl; repeat constructor; lia. Qed.

(** ** The cut points and the fragments *)

Lemma final_cut_cases text items offsets :
  Trie.final_cut text items offsets = offsets
  ∨ ∃ start, start ∈ keys items
             ∧ Trie.final_cut text items offsets = offsets ++ [start; length text].
Proof.
  induction items as [|[start tp] items IH]; simpl; [by left|].
  destruct (terminal tp).
  - right. exists start. split; [left|done].
  - destruct IH as [->|(s & Hs & ->)]; [by left|]. right. exists s. split; [by right|done].
Qed.

(** The offsets handed to [cut_text], with the final [len(text)], ascend
    and stay within the text. *)
Lemma final_offsets_sorted text l :
  loop_inv text (length text) l →
  StronglySorted le (Trie.final_cut text (Trie.states l) (Trie.offsets l) ++ [length text])
  ∧ Forall (λ o, o ≤ length text)
      (Trie.final_cut text (Trie.states l) (Trie.offsets l) ++ [length text]).
Proof.
  intros [Hks Hkr Hos Hol Hsk].
  assert (Forall (λ o, o ≤ length text) (Trie.offsets l)) as Hol'.
  { eapply Forall_impl; [done|]. simpl. lia. }
  destruct (final_cut_cases text (Trie.states l) (Trie.offsets l)) as [->|(s & Hs & ->)].
  - split.
    + apply StronglySorted_app. split_and!; [|done|repeat constructor].
      rewrite Forall_forall in Hol'. by intros x1 x2 Hx1%Hol' ->%list_elem_of_singleton.
    + apply Forall_app. split; [done|]. by repeat constructor.
  - rewrite Forall_forall in Hkr. specialize (Hkr s Hs).
    rewrite <-app_assoc. simpl. split.
    + apply StronglySorted_app. split_and!; [|done|].
      * rewrite Forall_forall in Hol. intros x1 x2 Hx1%Hol Hx2.
        assert (s ≤ x2); [|lia].
        repeat (apply elem_of_cons in Hx2 as [->|Hx2]; [lia|]). by apply elem_of_nil in Hx2.
      * repeat constructor; lia.
    + apply Forall_app. split; [done|]. repeat constructor; lia.
Qed.

Lemma slice_app text a b c :
  a ≤ b → b ≤ c → slice text a b ++ slice text b c = slice text a c.
Proof.
  intros Hab Hbc. unfold slice.
  replace (drop b text) with (drop (b - a) (drop a text)) by (rewrite drop_drop; f_equal; lia).
  rewrite take_take_drop. f_equal. lia.
Qed.

Lemma slice_all text : slice text 0 (length text) = text.
Proof. unfold slice. rewrite Nat.sub_0_r. simpl. apply firstn_all. Qed.

(** On ascending offsets the loop of [cut_text] returns, and the fragments
    it adds make up the text from the current cut to the last offset. *)
Lemma cut_loop_spec text offsets start tokens :
  StronglySorted le (start :: offsets) →
  ∃ frags, Trie.cut_loop text offsets start tokens = Ok (tokens ++ frags) ∧
           concat frags = slice text start (default start (last offsets)) ∧
           Forall (λ f, ∃ a b, a < b ∧ f = slice text a b) frags.
Proof.
  revert start tokens. induction offsets as [|e offsets IH]; intros start tokens Hs.
  - exists []. rewrite app_nil_r. split; [done|]. split; [|constructor].
    simpl. unfold slice. by rewrite Nat.sub_diag.
  - apply StronglySorted_cons in Hs as [Hall Hs].
    pose proof Hall as [Hse Hall']%Forall_cons.
    cbn [Trie.cut_loop]. rewrite decide_False by lia.
    destruct (decide (start = e)) as [->|Hne].
    + destruct (IH e tokens Hs) as (frags & -> & Hcat & Hne).
      exists frags. split; [done|]. split; [|done]. rewrite Hcat. f_equal.
      rewrite last_cons. by destruct (last offsets).
    + destruct (IH e (tokens ++ [slice text start e]) Hs) as (frags & -> & Hcat & Hfr).
      exists (slice text start e :: frags). split; [by rewrite <-app_assoc|]. split.
      * simpl. rewrite Hcat, last_cons.
        assert (e ≤ default e (last offsets)) as Hlast.
        { destruct (last offsets) as [x|] eqn:Hx; simpl; [|done].
          apply last_Some in Hx as [l' ->]. apply StronglySorted_cons in Hs as [Hall'' _].
          rewrite Forall_forall in Hall''. apply Hall''. apply elem_of_app. right. left. }
        rewrite slice_app by lia. by destruct (last offsets).
      * constructor; [|done]. exists start, e. split; [lia|done].
Qed.

(** [split] returns on every tree and every text, and its fragments, put
    together in order, are the text. *)
Lemma split_data_spec root text :
  ∃ l frags,
    Trie.main_loop root text 0 text (Trie.Locals [] [0] 0 None) = Ok l ∧
    StronglySorted le
      (Trie.final_cut text (Trie.states l) (Trie.offsets l) ++ [length text]) ∧
    Trie.split_data root text = Ok frags ∧ concat frags = text ∧
    Forall (λ f, ∃ a b, a < b ∧ f = slice text a b) frags.
Proof.
  destruct (main_loop_inv root text 0 text (Trie.Locals [] [0] 0 None))
    as (l & Hloop & Hinv & _); [done|apply loop_inv_init|].
  destruct (final_offsets_sorted text l Hinv) as [Hsorted Hle].
  destruct (cut_loop_spec text
              (Trie.final_cut text (Trie.states l) (Trie.offsets l) ++ [length text]) 0 [])
    as (frags & Hcut & Hcat & Hfr).
  { apply StronglySorted_cons. split; [|done]. apply Forall_forall. intros; lia. }
  exists l, frags. split; [done|]. split; [done|].
  unfold Trie.split_data. rewrite Hloop. cbn [mbind res_bind]. unfold Trie.cut_text.
  rewrite Hcut. split; [done|]. split; [|done].
  rewrite Hcat, last_snoc. simpl. apply slice_all.
Qed.

(** C1. For every vocabulary inserted into a Trie and every text, [split]
    returns fragments whose concatenation, in order, is the text. *)
Theorem split_concat (args : list (list ascii)) (text : str) :
  ∃ frags, (Trie.split text (Trie.__init__ args)).1 = Ok frags ∧ concat frags = text.
Proof.
  destruct (split_data_spec (Trie.data (Trie.__init__ args)) text)
    as (l & frags & _ & _ & Hsplit & Hcat & _).
  by exists frags.
Qed.

(** C4. For every vocabulary and every text, [split] returns and raises
    nothing: the scan ends, the offsets it hands to [cut_text] ascend, and
    so the branch of [cut_text] for an inverted span is not taken. *)
Theorem split_returns (args : list (list ascii)) (text : str) :
  (∃ frags, (Trie.split text (Trie.__init__ args)).1 = Ok frags) ∧
  (∀ e, (Trie.split text (Trie.__init__ args)).1 ≠ Raise e) ∧
  (Trie.split text (Trie.__init__ args)).1 ≠ OutOfFuel ∧
  ∃ l, Trie.main_loop (Trie.data (Trie.__init__ args)) text 0 text
         (Trie.Locals [] [0] 0 None) = Ok l ∧
       StronglySorted le
         (Trie.final_cut text (Trie.states l) (Trie.offsets l) ++ [length text]).
Proof.
  destruct (split_data_spec (Trie.data (Trie.__init__ args)) text)
    as (l & frags & Hloop & Hsorted & Hsplit & _ & _).
  simpl. rewrite Hsplit. split_and!; [by exists frags|done|done|by exists l].
Qed.

(** ** Which paths the tree has *)

Lemma walk_empty_node p : is_Some (walk empty_node p) ↔ p = [].
Proof.
  destruct p as [|c p]; simpl; [naive_solver|].
  split; [by intros [? ?]|done].
Qed.

(** After [add_chars] the tree has the paths along the added word and the
    paths it had. *)
Lemma is_Some_walk_add_chars w n p :
  is_Some (walk (Trie.add_chars w n) p) ↔ p `prefix_of` w ∨ is_Some (walk n p).
Proof.
  revert n p. induction w as [|c w IH]; intros n p.
  - destruct p as [|c' p].
    + simpl. split; [by left|by eexists].
    + change (walk (Trie.add_chars [] n) (c' :: p)) with (walk n (c' :: p)).
      split; [by right|]. intros [[k Hk]|?]; [done|done].
  - destruct p as [|c' p].
    + simpl. split; [intros _; left; by exists (c :: w)|by eexists].
    + cbn [walk]. destruct (decide (c = c')) as [<-|Hne].
      * rewrite child_add_chars_eq. simpl. rewrite IH. split.
        -- intros [[k ->]|Hsome]; [left; by exists k|].
           destruct (child n c) as [m|]; simpl in *; [by right|].
           apply walk_empty_node in Hsome as ->. left. by exists w.
        -- intros [[k [= ->]]|Hsome]; [left; by exists k|].
           destruct (child n c) as [m|]; simpl in *; [by right|].
           by destruct Hsome.
      * rewrite child_add_chars_ne by done. split; [by right|].
        intros [[k [= ? ?]]|?]; done.
Qed.

Lemma is_Some_walk_update args self p :
  is_Some (walk (Trie.data (Trie.update args self)) p) ↔
  (∃ x, x ∈ vocabulary args ∧ p `prefix_of` x) ∨ is_Some (walk (Trie.data self) p).
Proof.
  revert self. induction args as [|w args IH]; intros self.
  - simpl. split; [by right|]. intros [(x & Hx & _)|?]; [|done].
    by apply elem_of_nil in Hx.
  - change (Trie.update (w :: args) self) with (Trie.update args (Trie.add w self)).
    rewrite IH. unfold vocabulary. rewrite filter_cons. destruct w as [|c w].
    + rewrite decide_False by naive_solver. done.
    + rewrite decide_True by done. cbn [Trie.add Trie.data].
      rewrite is_Some_walk_add_chars. split.
      * intros [(x & Hx & Hp)|[Hp|Hs]].
        -- left. exists x. split; [by right|done].
        -- left. exists (c :: w). split; [left|done].
        -- by right.
      * intros [(x & [->|Hx]%elem_of_cons & Hp)|Hs].
        -- right. by left.
        -- left. by exists x.
        -- right. by right.
Qed.

(** The tree built from a vocabulary has exactly the paths that begin its
    words. *)
Lemma is_Some_walk_init args p :
  is_Some (walk (Trie.data (Trie.__init__ args)) p) ↔
  p = [] ∨ ∃ x, x ∈ vocabulary args ∧ p `prefix_of` x.
Proof.
  unfold Trie.__init__. rewrite is_Some_walk_update. cbn [Trie.data].
  rewrite walk_empty_node. naive_solver.
Qed.

Lemma child_init_None args c :
  (∀ x, x ∈ vocabulary args → head x ≠ Some c) →
  child (Trie.data (Trie.__init__ args)) c = None.
Proof.
  intros Hhead. destruct (child _ c) as [m|] eqn:Hc; [|done].
  assert (is_Some (walk (Trie.data (Trie.__init__ args)) [c])) as Hsome.
  { simpl. rewrite Hc. by eexists. }
  apply is_Some_walk_init in Hsome as [?|(x & Hx & [k ->])]; [done|].
  by destruct (Hhead _ Hx).
Qed.

(** ** Isolation of a word *)

Lemma slice_singleton text i ch : text !! i = Some ch → slice text i (i + 1) = [ch].
Proof.
  intros H. unfold slice. rewrite (drop_S _ _ _ H).
  by replace (i + 1 - i) with 1 by lia.
Qed.

Lemma slice_snoc text a b ch :
  a ≤ b → text !! b = Some ch → slice text a (b + 1) = slice text a b ++ [ch].
Proof.
  intros Hab H. rewrite <-(slice_app text a b (b + 1)) by lia.
  by rewrite (slice_singleton _ _ ch).
Qed.

Lemma slice_uncons text i e ch :
  text !! i = Some ch → i < e → slice text i e = ch :: slice text (i + 1) e.
Proof.
  intros H Hlt. rewrite <-(slice_app text i (i + 1) e) by lia.
  by rewrite (slice_singleton _ _ ch).
Qed.

Lemma walk_snoc n q p ch : walk n q = Some p → walk n (q ++ [ch]) = child p ch.
Proof. intros Hq. rewrite walk_app, Hq. simpl. by destruct (child p ch). Qed.

Lemma accepts_walk n x p : walk n x = Some p → accepts n x = terminal p.
Proof. intros H. unfold accepts. by rewrite H. Qed.

Lemma elem_of_set_add y x s : y ∈ Trie.set_add x s ↔ y = x ∨ y ∈ s.
Proof.
  unfold Trie.set_add. destruct (decide (x ∈ s)).
  - naive_solver.
  - rewrite elem_of_app, list_elem_of_singleton. naive_solver.
Qed.

Lemma elem_of_keys_inv {K V : Type} (k : K) (d : list (K * V)) :
  k ∈ keys d → ∃ v, (k, v) ∈ d.
Proof. intros ([k' v] & -> & Hin)%list_elem_of_fmap. by exists v. Qed.

Lemma elem_of_keys_dict_set {K V : Type} `{!EqDecision K} (k k' : K) (v : V) d :
  k' = k ∨ k' ∈ keys d → k' ∈ keys (dict_set k v d).
Proof.
  intros H. destruct (decide (k ∈ keys d)) as [Hin|Hnin].
  - rewrite keys_dict_set_in by done. by destruct H as [->|].
  - rewrite keys_dict_set_notin by done. apply elem_of_app.
    destruct H as [->|]; [right; left|by left].
Qed.

(** A state of a dict with ascending keys splits the dict into the states
    started before it and those started after it. *)
Lemma sorted_split (V : Type) (k : nat) (v : V) (d : list (nat * V)) :
  StronglySorted lt (keys d) → (k, v) ∈ d →
  ∃ d1 d2, d = d1 ++ (k, v) :: d2 ∧
           Forall (λ e, e.1 < k) d1 ∧ Forall (λ k', k < k') (keys d2) ∧
           StronglySorted lt (keys (d1 ++ (k, v) :: d2)).
Proof.
  intros Hs (d1 & d2 & ->)%list_elem_of_split. exists d1, d2. split; [done|].
  split; [|split; [|done]].
  - rewrite keys_app in Hs. apply StronglySorted_app in Hs as (H12 & _ & _).
    apply Forall_forall. intros e He. apply H12; [|left].
    by apply (list_elem_of_fmap_2 fst).
  - rewrite keys_app in Hs. apply StronglySorted_app in Hs as (_ & _ & Hs).
    by apply sorted_keys_cons in Hs as [? _].
Qed.

(** What [del states[start]] over [to_remove] keeps and what it drops. *)
Lemma dict_del_removed {V : Type} (k : nat) (d d' : list (nat * V)) :
  NoDup (keys d) → dict_del k d = Ok d' → k ∉ keys d'.
Proof.
  revert d'. induction d as [|[k0 v0] d IH]; intros d' Hnd; simpl; [done|].
  apply NoDup_cons in Hnd as [Hnin Hnd].
  destruct (decide (k = k0)) as [->|Hne].
  - by intros [= <-].
  - destruct (dict_del k d) as [d1| |] eqn:Hdel; simpl; [|done..].
    intros [= <-]. simpl. apply not_elem_of_cons. split; [done|]. by apply IH.
Qed.

Lemma del_all_removed tr d d' :
  tr ⊆ keys d → NoDup tr → NoDup (keys d) → Trie.del_all tr d = Ok d' →
  ∀ e, e ∈ d' → e ∈ d ∧ e.1 ∉ tr.
Proof.
  revert d. induction tr as [|k tr IH]; intros d Hsub Hndt Hnd; simpl.
  - intros [= <-] e He. split; [done|]. by intros ?%elem_of_nil.
  - apply NoDup_cons in Hndt as [Hnin Hndt].
    destruct (dict_del_spec k d) as (d1 & Hdel & Hsub1 & Hkeep); [apply Hsub; left|].
    rewrite Hdel. simpl. intros Hall e He.
    assert (NoDup (keys d1)) as Hnd1.
    { apply (sublist_NoDup (keys d1) (keys d)); [done|by apply sublist_keys]. }
    destruct (IH d1) with (e := e) as [He1 Hntr]; [|done..|].
    { intros k' Hk'. apply Hkeep; [by intros ->|]. apply Hsub. by right. }
    split; [by eapply elem_of_sublist|].
    apply not_elem_of_cons. split; [|done]. intros Heq.
    apply (dict_del_removed k d d1 Hnd Hdel). rewrite <-Heq.
    by apply (list_elem_of_fmap_2 fst).
Qed.

Lemma dict_del_kept {V : Type} (k : nat) (d d' : list (nat * V)) e :
  dict_del k d = Ok d' → e ∈ d → e.1 ≠ k → e ∈ d'.
Proof.
  revert d'. induction d as [|[k0 v0] d IH]; intros d'; simpl; [done|].
  destruct (decide (k = k0)) as [->|Hne].
  - intros [= <-] [->|?]%elem_of_cons Hk; [done|done].
  - destruct (dict_del k d) as [d1| |] eqn:Hdel; simpl; [|done..].
    intros [= <-] [->|?]%elem_of_cons Hk; [left|right; by apply IH].
Qed.

Lemma del_all_kept tr d d' e :
  Trie.del_all tr d = Ok d' → e ∈ d → e.1 ∉ tr → e ∈ d'.
Proof.
  revert d. induction tr as [|k tr IH]; intros d; simpl.
  - by intros [= <-].
  - destruct (dict_del k d) as [d1| |] eqn:Hdel; simpl; [|done..].
    intros Hall He [Hne Hntr]%not_elem_of_cons.
    apply (IH d1); [done| |done]. by eapply dict_del_kept.
Qed.

(** The [while] of the lookahead, started at a node reached along [q],
    either leaves the cut as it was or ends it where [q] followed by the
    text read is a word of the tree. *)
Lemma lookahead_while_sem root text ls fuel nc p idx c q :
  walk root q = Some p → nc = text !! idx → length text - idx ≤ fuel →
  ∃ c', Trie.lookahead_while fuel text ls nc p idx c = Ok c' ∧
        (c' = c ∨ ∃ e, c' = (ls, Some e, e) ∧ idx < e ≤ length text ∧
                       accepts root (q ++ slice text idx e) = true).
Proof.
  revert nc p idx c q. induction fuel as [|fuel IH]; intros nc p idx c q Hq -> Hfuel.
  - simpl. rewrite lookup_ge_None_2 by lia. simpl. eauto.
  - cbn [Trie.lookahead_while]. destruct (text !! idx) as [ch|] eqn:Hch; simpl; [|eauto].
    destruct (child p ch) as [p'|] eqn:Hchild; [|eauto].
    pose proof (lookup_lt_Some _ _ _ Hch) as Hlt.
    assert (walk root (q ++ [ch]) = Some p') as Hq'.
    { by rewrite (walk_snoc _ _ p). }
    assert (Trie.record_match p' ls (idx + 1) c = c ∨
            (Trie.record_match p' ls (idx + 1) c = (ls, Some (idx + 1), idx + 1) ∧
             accepts root (q ++ slice text idx (idx + 1)) = true)) as Hrec.
    { unfold Trie.record_match. destruct (terminal p') eqn:Hterm; [right|by left].
      split; [done|]. rewrite (slice_singleton _ _ ch) by done.
      by rewrite (accepts_walk _ _ p'). }
    destruct (decide (idx + 1 = length text)) as [Hend|Hnend].
    + eexists. split; [done|]. destruct Hrec as [->|[-> Hacc]]; [by left|].
      right. eexists. split; [done|]. split; [lia|done].
    + destruct (lookup_lt_is_Some_2 text (idx + 1)) as [ch' Hch']; [lia|]. rewrite Hch'.
      destruct (IH (Some ch') p' (idx + 1) (Trie.record_match p' ls (idx + 1) c) (q ++ [ch]))
        as (c' & Hrun & Hc'); [done|done|lia|].
      exists c'. split; [done|].
      destruct Hc' as [->|(e & -> & He & Hacc)].
      * destruct Hrec as [->|[-> Hacc]]; [by left|].
        right. eexists. split; [done|]. split; [lia|done].
      * right. exists e. split; [done|]. split; [lia|].
        rewrite (slice_uncons _ idx e ch) by (done || lia).
        by rewrite <-app_assoc in Hacc.
Qed.

(** The loop of [cut_text] over the first offsets: the fragments it adds
    make up the text up to the last of them. *)
Lemma cut_loop_app text o1 o2 start :
  StronglySorted le (start :: o1) →
  ∃ frags, concat frags = slice text start (default start (last o1)) ∧
           ∀ tokens, Trie.cut_loop text (o1 ++ o2) start tokens
                     = Trie.cut_loop text o2 (default start (last o1)) (tokens ++ frags).
Proof.
  revert start. induction o1 as [|a o1 IH]; intros start Hs.
  - exists []. split; [|intros; by rewrite app_nil_r].
    simpl. unfold slice. by rewrite Nat.sub_diag.
  - apply StronglySorted_cons in Hs as [Hall Hs].
    pose proof Hall as [Hsa _]%Forall_cons.
    destruct (IH a Hs) as (frags & Hcat & Hrun).
    assert (default start (last (a :: o1)) = default a (last o1)) as Hlast.
    { rewrite last_cons. by destruct (last o1). }
    rewrite Hlast.
    destruct (decide (start = a)) as [->|Hne].
    + exists frags. split; [done|]. intros tokens. cbn [app Trie.cut_loop].
      rewrite decide_False by lia. rewrite decide_True by done. apply Hrun.
    + exists (slice text start a :: frags). split.
      * simpl. rewrite Hcat. apply slice_app; [done|].
        destruct (last o1) as [x|] eqn:Hx; simpl; [|done].
        apply last_Some in Hx as [l' ->]. apply StronglySorted_cons in Hs as [Hall' _].
        rewrite Forall_forall in Hall'. apply Hall'. apply elem_of_app. right. left.
      * intros tokens. cbn [app Trie.cut_loop].
        rewrite decide_False by lia. rewrite decide_False by done.
        rewrite Hrun. by rewrite <-app_assoc.
Qed.

Lemma final_cut_first text pre k p rest offsets :
  Forall (λ e, terminal e.2 = false) pre → terminal p = true →
  Trie.final_cut text (pre ++ (k, p) :: rest) offsets = offsets ++ [k; length text].
Proof.
  intros Hpre Hp. induction Hpre as [|[k0 p0] pre H0 _ IH]; simpl.
  - by rewrite Hp.
  - simpl in H0. by rewrite H0.
Qed.

Section isolation.
Variables (root : node) (u w v : str).

Local Abbreviation text := (u ++ w ++ v).
Local Abbreviation z := (w ++ v).
Local Abbreviation U := (length u).
Local Abbreviation E := (length u + length w).

(** [w] is a word of the tree, and no word of the tree is [w] followed by
    a non-empty beginning of [v]. *)
Hypothesis Hw : accepts root w = true.
Hypothesis Hw_ne : w ≠ [].
Hypothesis Hv : ∀ k, 0 < k ≤ length v → accepts root (w ++ take k v) = false.

Lemma text_length : length text = U + length z.
Proof using Type. by rewrite length_app. Qed.

Lemma text_lookup d : text !! (U + d) = z !! d.
Proof using Type. rewrite lookup_app_r by lia. f_equal. lia. Qed.

Lemma w_length : 0 < length w.
Proof using Hw_ne.
  destruct (decide (length w = 0)) as [H%nil_length_inv|]; [done|lia].
Qed.

Lemma slice_from_start d : slice text U (U + d) = take d z.
Proof using Type. unfold slice. rewrite drop_app_length. f_equal. lia. Qed.

Lemma path_depth d : d ≤ length w → is_Some (walk root (take d z)).
Proof using Hw.
  intros Hd. rewrite take_app_le by done.
  apply (walk_prefix_of root _ w); [apply prefix_take|].
  unfold accepts in Hw. destruct (walk root w); [by eexists|done].
Qed.

Lemma terminal_depth d p :
  walk root (take d z) = Some p → length w ≤ d → d ≤ length z →
  terminal p = bool_decide (d = length w).
Proof using Hw Hv.
  intros Hp Hwd Hdz. rewrite take_app_ge in Hp by done.
  destruct (decide (d = length w)) as [->|Hne].
  - rewrite bool_decide_eq_true_2 by done. rewrite Nat.sub_diag, take_0, app_nil_r in Hp.
    unfold accepts in Hw. by rewrite Hp in Hw.
  - rewrite bool_decide_eq_false_2 by done. rewrite length_app in Hdz.
    specialize (Hv (d - length w)). unfold accepts in Hv. rewrite Hp in Hv.
    apply Hv. lia.
Qed.

Lemma walk_step d p ch :
  walk root (take d z) = Some p → z !! d = Some ch →
  walk root (take (S d) z) = child p ch.
Proof using Type.
  intros Hp Hch. rewrite (take_S_r _ _ _ Hch), walk_app, Hp. simpl.
  by destruct (child p ch).
Qed.

(** From a node on the path of [w], the [while] of the lookahead for the
    start [length u] ends with the cut at the end of [w]. *)
Lemma lookahead_while_on_path fuel d p c :
  walk root (take d z) = Some p → d ≤ length z → length z - d ≤ fuel →
  (length w ≤ d → c = (U, Some E, E)) →
  Trie.lookahead_while fuel text U (text !! (U + d)) p (U + d) c = Ok (U, Some E, E).
Proof using Hw Hv.
  revert d p c. induction fuel as [|fuel IH]; intros d p c Hp Hd Hfuel Hc.
  - rewrite text_lookup, lookup_ge_None_2 by lia. simpl. f_equal. apply Hc.
    rewrite length_app in *. lia.
  - cbn [Trie.lookahead_while]. rewrite text_lookup.
    destruct (z !! d) as [ch|] eqn:Hch; simpl.
    2:{ f_equal. apply Hc. apply lookup_ge_None in Hch. rewrite length_app in *. lia. }
    pose proof (lookup_lt_Some _ _ _ Hch) as Hlt.
    pose proof (walk_step d p ch Hp Hch) as Hstep.
    destruct (child p ch) as [p'|] eqn:Hchild.
    2:{ f_equal. apply Hc. destruct (decide (length w ≤ d)); [done|].
        destruct (path_depth (S d)) as [? Hsome]; [lia|]. congruence. }
    assert (length w ≤ S d → Trie.record_match p' U (U + d + 1) c = (U, Some E, E)) as Hc'.
    { intros Hwd. unfold Trie.record_match.
      rewrite (terminal_depth (S d) p' Hstep Hwd) by lia.
      case_bool_decide as Heq.
      - by replace (U + d + 1) with E by lia.
      - apply Hc. lia. }
    destruct (decide (U + d + 1 = length text)) as [Hend|Hnend].
    + f_equal. apply Hc'. rewrite text_length, length_app in *. lia.
    + rewrite text_length in Hnend.
      replace (U + d + 1) with (U + S d) in * by lia.
      destruct (text !! (U + S d)) as [ch'|] eqn:Hch'.
      2:{ apply lookup_ge_None in Hch'. rewrite text_length in Hch'. lia. }
      rewrite <-Hch'. apply IH; [done|lia|lia|done].
Qed.

(** So the lookahead, when the first state left to read is the one started
    at [length u] and still on the path of [w], returns the cut around
    [w]. *)
Lemma lookahead_for_on_path cur d p rest s eo sk :
  walk root (take d z) = Some p → d ≤ length w →
  U ≤ s → Forall (λ k, U < k) (keys rest) →
  (if decide (U < s) then cur + 1 else cur) = U + d →
  Trie.lookahead_for text cur ((U, p) :: rest) (s, eo, sk) = Ok (U, Some E, E).
Proof using Hw Hv.
  intros Hp Hd Hs Hrest Hidx. cbn [Trie.lookahead_for].
  rewrite decide_False by lia. rewrite Hidx.
  rewrite lookahead_while_on_path; [|done|rewrite length_app; lia|rewrite text_length; lia|].
  - simpl. by apply lookahead_for_break.
  - intros Hwd. assert (d = length w) as -> by lia. unfold Trie.record_match.
    rewrite (terminal_depth (length w) p Hp) by (rewrite ?length_app; lia).
    by rewrite bool_decide_eq_true_2.
Qed.

(** No word of the tree occurs in the text from before the start of [w] to
    beyond it; and no word of the tree that ends beyond the start of [w] is
    read by leaving out the character that ended a state started before
    [w]. *)
Hypothesis Hleft :
  ∀ L e, L < U → U < e → e ≤ length text → accepts root (slice text L e) = false.
Hypothesis Hdead :
  ∀ L c e, L < c → L < U → c ≤ E → U < e → c + 1 < e → e ≤ length text →
           walk root (slice text L (c + 1)) = None →
           accepts root (slice text L c ++ slice text (c + 1) e) = false.

(** A word of the tree that starts before [w] ends at the start of [w] at
    the latest. *)
Lemma left_bound L e :
  L < U → L < e ≤ length text → accepts root (slice text L e) = true → e ≤ U.
Proof using Hleft.
  intros HL He Hacc. destruct (decide (e ≤ U)); [done|].
  rewrite Hleft in Hacc by lia. done.
Qed.

(** The lookahead over one state started before [w] that the iteration has
    visited: the cut stays with the terminal state, or moves to a match of
    that earlier state that ends at the start of [w] at the latest. *)
Lemma lookahead_entry c s sk ls lp :
  ls < c → ls < U → c ≤ E → c < length text → seen root text c (ls, lp) →
  ∃ c2, Trie.lookahead_while (length text) text ls (text !! (c + 1)) lp (c + 1)
          (Trie.record_match lp ls (c + 1) (s, Some (c + 1), sk)) = Ok c2 ∧
        (c2 = (s, Some (c + 1), sk) ∨ ∃ e, c2 = (ls, Some e, e) ∧ c < e ≤ U).
Proof using Hleft Hdead.
  intros Hls HlsU Hc Hlen [Hnacc Hcase]. cbn [fst snd] in *.
  destruct Hcase as [Hadv|[Hold Hnone]].
  - destruct (lookahead_while_sem root text ls (length text) (text !! (c + 1)) lp (c + 1)
                (Trie.record_match lp ls (c + 1) (s, Some (c + 1), sk))
                (slice text ls (c + 1)))
      as (c2 & Hrun & Hc2); [done|done|lia|].
    exists c2. split; [done|].
    destruct Hc2 as [->|(e & -> & He & Hacc)].
    + unfold Trie.record_match. destruct (terminal lp) eqn:Hterm; [|by left].
      right. eexists. split; [done|]. split; [lia|].
      apply (left_bound ls); [done|lia|]. by rewrite (accepts_walk _ _ lp).
    + right. exists e. split; [done|]. split; [lia|].
      rewrite slice_app in Hacc by lia. apply (left_bound ls); [done|lia|done].
  - assert (terminal lp = false) as Hterm.
    { by rewrite (accepts_walk _ _ lp) in Hnacc. }
    unfold Trie.record_match. rewrite Hterm.
    destruct (lookahead_while_sem root text ls (length text) (text !! (c + 1)) lp (c + 1)
                (s, Some (c + 1), sk) (slice text ls c))
      as (c2 & Hrun & Hc2); [done|done|lia|].
    exists c2. split; [done|].
    destruct Hc2 as [->|(e & -> & He & Hacc)]; [by left|].
    right. exists e. split; [done|]. split; [lia|].
    destruct (decide (e ≤ U)); [done|].
    rewrite Hdead in Hacc by (done || lia). done.
Qed.

(** The lookahead over the visited states started before [w]. *)
Lemma lookahead_for_left c pre rest s eo sk :
  c ≤ E → c < length text →
  StronglySorted lt (keys (pre ++ rest)) →
  Forall (λ e0, e0.1 < s ∧ e0.1 < c ∧ e0.1 < U ∧ seen root text c e0) pre →
  (∃ eo', Trie.lookahead_for text c (pre ++ rest) (s, eo, sk)
          = Trie.lookahead_for text c rest (s, eo', sk)) ∨
  (∃ s' e', Trie.lookahead_for text c (pre ++ rest) (s, eo, sk) = Ok (s', Some e', e') ∧
            c < e' ≤ U).
Proof using Hleft Hdead.
  intros Hc Hlen. revert eo.
  induction pre as [|[ls lp] pre IH]; intros eo Hsorted Hpre.
  - left. by exists eo.
  - apply Forall_cons in Hpre as [(Hls & Hlc & HlU & Hseen) Hpre]. cbn [fst] in *.
    cbn [app] in Hsorted. apply sorted_keys_cons in Hsorted as [Hall Hsorted].
    cbn [app Trie.lookahead_for]. rewrite decide_False by lia. rewrite decide_True by done.
    destruct (lookahead_entry c s sk ls lp) as (c2 & -> & Hc2); [done..|].
    cbn [mbind res_bind].
    destruct Hc2 as [->|(e & -> & He)].
    + by apply IH.
    + right. exists ls, e. split; [|done]. by apply lookahead_for_break.
Qed.

(** The lookahead run at or before the start of [w]: its cut ends at the
    start of [w] at the latest. *)
Lemma lookahead_for_before c items s ptr eo sk :
  c ≤ U → c < length text →
  StronglySorted lt (keys items) → Forall (λ k, k < c) (keys items) →
  (s, ptr) ∈ items → terminal ptr = true → walk root (slice text s c) = Some ptr →
  (∀ e0, e0 ∈ items → e0.1 < s → seen root text c e0) →
  ∃ s' e', Trie.lookahead_for text c items (s, eo, sk) = Ok (s', Some e', e') ∧ e' ≤ U.
Proof using Hleft Hdead.
  intros Hc Hlen Hsorted Hrange Hin Hterm Hptr Hseen.
  assert (s < c) as Hsc.
  { rewrite Forall_forall in Hrange. apply Hrange. by apply (elem_of_keys _ ptr). }
  destruct (sorted_split _ s ptr items Hsorted Hin) as (pre & rest & -> & Hpre & Hrest & _).
  destruct (lookahead_for_left c pre ((s, ptr) :: rest) s eo sk)
    as [[eo' ->]|(s' & e' & -> & He')]; [lia|done|done| | |].
  { apply Forall_forall. intros e0 He0. rewrite Forall_forall in Hpre. rewrite Forall_forall in Hrange.
    specialize (Hpre e0 He0). cbn beta in Hpre.
    assert (e0.1 < c).
    { apply Hrange. apply (list_elem_of_fmap_2 fst). apply elem_of_app. by left. }
    split; [done|]. split; [done|]. split; [lia|].
    apply Hseen; [|done]. apply elem_of_app. by left. }
  - cbn [Trie.lookahead_for]. rewrite decide_False by lia. rewrite decide_False by lia.
    unfold Trie.record_match at 1. rewrite Hterm.
    destruct (lookahead_while_sem root text s (length text) (text !! c) ptr c
                (s, Some c, c) (slice text s c)) as (c2 & -> & Hc2); [done|done|lia|].
    cbn [mbind res_bind].
    destruct Hc2 as [->|(e & -> & He & Hacc)].
    + rewrite lookahead_for_break by done. by exists s, c.
    + rewrite lookahead_for_break by done. exists s, e. split; [done|].
      rewrite slice_app in Hacc by lia. apply (left_bound s); [lia|lia|done].
  - exists s', e'. split; [done|lia].
Qed.

(** The lookahead run beyond the start of [w], while the state started
    there is kept: it returns the cut around [w]. *)
Lemma lookahead_for_after c items s d lp eo sk :
  U < c → c ≤ E → c < length text →
  StronglySorted lt (keys items) → Forall (λ k, k < c) (keys items) →
  (U, lp) ∈ items → U ≤ s →
  (if decide (U < s) then c + 1 else c) = U + d → d ≤ length w →
  walk root (take d z) = Some lp →
  (∀ e0, e0 ∈ items → e0.1 < U → seen root text c e0) →
  Trie.lookahead_for text c items (s, eo, sk) = Ok (U, Some E, E).
Proof using Hw Hv Hleft Hdead.
  intros HUc Hc Hlen Hsorted Hrange Hin Hs Hidx Hd Hlp Hseen.
  destruct (sorted_split _ U lp items Hsorted Hin) as (pre & rest & -> & Hpre & Hrest & _).
  destruct (lookahead_for_left c pre ((U, lp) :: rest) s eo sk)
    as [[eo' ->]|(s' & e' & _ & He')]; [lia|done|done| | |lia].
  { apply Forall_forall. intros e0 He0. rewrite Forall_forall in Hpre.
    specialize (Hpre e0 He0). cbn beta in Hpre.
    split; [lia|]. split; [lia|]. split; [done|].
    apply Hseen; [|done]. apply elem_of_app. by left. }
  by apply (lookahead_for_on_path c d).
Qed.

(** The state started at the start of [w] is on the path of [w] as long as
    the scan is within [w]. *)
Lemma tracks_start c p :
  U ≤ c → walk root (slice text U c) = Some p → walk root (take (c - U) z) = Some p.
Proof using Type.
  intros Hc Hp. rewrite <-slice_from_start. by replace (U + (c - U)) with c by lia.
Qed.

Lemma slice_word : slice text U E = w.
Proof using Type. rewrite slice_from_start. by rewrite take_app_length. Qed.

(** The scan of the states at [c], up to the end of [w]: a match found at
    or before the start of [w] ends there at the latest; a match found
    beyond it is the cut around [w]; and without a match every state has
    been visited and the one started at the start of [w] goes on. *)
Lemma for_states_sem c ch items done' tr l :
  text !! c = Some ch → c ≤ E →
  Trie.states l = done' ++ items →
  StronglySorted lt (keys (Trie.states l)) →
  Forall (λ k, k < c) (keys (Trie.states l)) →
  Forall (visited root text c tr) done' →
  Forall (tracks root text c) items →
  (U < c → U ∈ keys (Trie.states l) ∧ U ∉ tr) →
  ∃ l' tr' reset,
    Trie.for_states text c ch items tr l = Ok (l', tr', reset) ∧
    if reset : bool then
      (c ≤ U ∧ Trie.skip l' ≤ U)
      ∨ (U < c ∧ Trie.offsets l' = Trie.offsets l ++ [U; E] ∧ Trie.skip l' = E)
    else c < E ∧ Forall (visited root text c tr') (Trie.states l') ∧ (U < c → U ∉ tr').
Proof using Hw Hw_ne Hv Hleft Hdead.
  intros Hch Hc. pose proof (lookup_lt_Some _ _ _ Hch) as Hlen.
  revert done' tr l.
  induction items as [|[start tp] items IH];
    intros done' tr l Hst Hsorted Hrange Hdone Hitems HU.
  - exists l, tr, false. split; [done|]. rewrite app_nil_r in Hst. rewrite Hst.
    split; [|split; [done|intros Hx; by destruct (HU Hx)]].
    destruct (decide (c ≤ U)) as [|HUc]; [pose proof w_length; lia|].
    destruct HU as [HUin HUtr]; [lia|]. rewrite Hst in HUin.
    apply elem_of_keys_inv in HUin as [lp HUin].
    rewrite Forall_forall in Hdone. destruct (Hdone _ HUin) as [[Hnacc _] _].
    cbn [fst] in Hnacc. destruct (decide (c = E)) as [->|]; [|lia].
    by rewrite slice_word, Hw in Hnacc.
  - apply Forall_cons in Hitems as [Htp Hitems]. unfold tracks in Htp. cbn [fst snd] in Htp.
    assert ((start, tp) ∈ Trie.states l) as Hin.
    { rewrite Hst. apply elem_of_app. right. left. }
    assert (start < c) as Hsc.
    { rewrite Forall_forall in Hrange. apply Hrange. by apply (elem_of_keys _ tp). }
    assert (start ∉ keys done') as Hnin.
    { rewrite Hst, keys_app in Hsorted.
      apply StronglySorted_app in Hsorted as (H12 & _ & _).
      intros Hk. assert (start < start); [|lia]. apply H12; [done|left]. }
    assert (∀ e0, e0 ∈ Trie.states l → e0.1 < start → e0 ∈ done') as Hbefore.
    { intros e0 He0 Hlt. rewrite Hst in He0, Hsorted.
      apply elem_of_app in He0 as [?|He0]; [done|].
      rewrite keys_app in Hsorted. apply StronglySorted_app in Hsorted as (_ & _ & Hs2).
      assert (start ≤ e0.1); [|lia].
      apply (sorted_keys_head _ _ _ tp items); [done|].
      by apply (list_elem_of_fmap_2 fst). }
    cbn [Trie.for_states]. destruct (terminal tp) eqn:Hterm.
    + assert (accepts root (slice text start c) = true) as Hacc.
      { by rewrite (accepts_walk _ _ tp). }
      destruct (decide (c ≤ U)) as [HcU|HUc].
      * destruct (lookahead_for_before c (Trie.states l) start tp (Trie.end_ l) (Trie.skip l))
          as (s' & e' & -> & He'); [done..| |].
        { intros e0 He0 Hlt. rewrite Forall_forall in Hdone.
          by destruct (Hdone e0 (Hbefore e0 He0 Hlt)). }
        simpl. eexists _, _, true. split; [done|]. left. done.
      * assert (U ≤ start) as HUs.
        { destruct (decide (U ≤ start)); [done|].
          rewrite Hleft in Hacc by lia. done. }
        destruct HU as [HUin HUtr]; [lia|].
        apply elem_of_keys_inv in HUin as [lp HUin].
        assert (∃ d, (if decide (U < start) then c + 1 else c) = U + d ∧ d ≤ length w ∧
                     walk root (take d z) = Some lp) as (d & Hidx & Hd & Hlp).
        { destruct (decide (U < start)) as [Hlt|Hge].
          - pose proof (Hbefore _ HUin Hlt) as HUdone.
            rewrite Forall_forall in Hdone.
            destruct (Hdone _ HUdone) as [[Hnacc _] Hadv]. cbn [fst snd] in *.
            assert (c ≠ E) as HcE.
            { intros ->. by rewrite slice_word, Hw in Hnacc. }
            exists (c + 1 - U). split; [lia|]. split; [lia|].
            apply tracks_start; [lia|]. by apply Hadv.
          - assert (start = U) as -> by lia.
            assert (lp = tp) as ->.
            { apply sorted_keys_NoDup in Hsorted.
              pose proof (elem_of_dict_get _ _ _ Hsorted Hin) as H1.
              pose proof (elem_of_dict_get _ _ _ Hsorted HUin) as H2. congruence. }
            exists (c - U). split; [lia|]. split; [lia|].
            by apply tracks_start; [lia|]. }
        rewrite (lookahead_for_after c (Trie.states l) start d lp); [|lia|done..| ].
        2:{ intros e0 He0 Hlt. rewrite Forall_forall in Hdone.
            destruct (Hdone e0) as [? _]; [|done]. apply Hbefore; [done|lia]. }
        simpl. eexists _, _, true. split; [done|]. right. split; [lia|done].
    + assert (accepts root (slice text start c) = false) as Hnacc.
      { by rewrite (accepts_walk _ _ tp). }
      assert (walk root (slice text start (c + 1)) = child tp ch) as Hnext.
      { rewrite (slice_snoc _ _ _ ch) by (done || lia). by apply walk_snoc. }
      destruct (child tp ch) as [p2|] eqn:Hchild.
      * destruct (IH (done' ++ [(start, p2)]) tr
                    (Trie.Locals (dict_set start p2 (Trie.states l)) (Trie.offsets l)
                       (Trie.skip l) (Trie.end_ l)))
          as (l' & tr' & reset & -> & Hres).
        { cbn [Trie.states]. rewrite Hst, dict_set_middle by done. by rewrite <-app_assoc. }
        { cbn [Trie.states]. rewrite keys_dict_set_in; [done|]. by apply (elem_of_keys _ tp). }
        { cbn [Trie.states]. rewrite keys_dict_set_in; [done|]. by apply (elem_of_keys _ tp). }
        { apply Forall_app. split; [done|]. apply Forall_singleton.
          split; [split; [done|by left]|done]. }
        { done. }
        { cbn [Trie.states]. rewrite keys_dict_set_in; [done|]. by apply (elem_of_keys _ tp). }
        by exists l', tr', reset.
      * assert (U < c → start ≠ U) as Hne.
        { intros HUc ->. apply tracks_start in Htp; [|lia].
          destruct (decide (c - U < length w)) as [Hlt|Hge].
          - destruct (path_depth (S (c - U))) as [x Hx]; [lia|].
            rewrite (walk_step _ tp ch Htp) in Hx.
            + replace (U + 1) with (S U) in * by lia. congruence.
            + rewrite <-text_lookup. by replace (U + (c - U)) with c by lia.
          - rewrite (terminal_depth _ _ Htp) in Hterm; [|lia|rewrite length_app; lia].
            rewrite bool_decide_eq_true_2 in Hterm by lia. done. }
        destruct (IH (done' ++ [(start, tp)]) (Trie.set_add start tr) l)
          as (l' & tr' & reset & -> & Hres); [by rewrite <-app_assoc|done|done| |done| |].
        { apply Forall_app. split.
          - eapply Forall_impl; [done|]. intros e0 [Hs0 Hadv0]. split; [done|].
            intros Hn. apply Hadv0. intros Hn'. apply Hn. apply elem_of_set_add. by right.
          - apply Forall_singleton. split; [split; [done|right; done]|].
            intros Hn. exfalso. apply Hn. apply elem_of_set_add. by left. }
        { intros HUc. destruct (HU HUc) as [? HUtr]. split; [done|].
          intros [Heq|?]%elem_of_set_add; [by apply (Hne HUc)|done]. }
        by exists l', tr', reset.
Qed.

(** The first character of [w] is a key of the root. *)
Lemma start_child ch : text !! U = Some ch → is_Some (child root ch).
Proof using Hw Hw_ne.
  intros Hch. pose proof w_length as Hlen.
  destruct (path_depth 1) as [p Hp]; [lia|].
  rewrite <-(Nat.add_0_r U), text_lookup in Hch.
  rewrite (walk_step 0 root ch) in Hp; [by eexists|done|done].
Qed.

(** One iteration up to the end of [w]: either the cut around [w] is made,
    or what holds of the locals holds at the next position. *)
Lemma step_sem c ch l :
  text !! c = Some ch → c ≤ E → scanning root text U c l →
  ∃ l', Trie.step root text c ch l = Ok l' ∧ loop_inv text (S c) l' ∧
        ((U < c ∧ Trie.offsets l' = Trie.offsets l ++ [U; E] ∧ Trie.skip l' = E)
         ∨ (c < E ∧ scanning root text U (S c) l')).
Proof using Hw Hw_ne Hv Hleft Hdead.
  intros Hch Hc (Hinv & Htracks & Hskip & HU).
  pose proof (lookup_lt_Some _ _ _ Hch) as Hlen.
  pose proof w_length as Hwlen.
  destruct (step_inv root text c ch l Hlen Hinv) as (l' & Hstep & Hinv' & _).
  exists l'. split; [done|]. split; [done|].
  pose proof (inv_keys_sorted _ _ _ Hinv) as Hsorted.
  pose proof (inv_keys_range _ _ _ Hinv) as Hrange.
  assert (∀ st p, c = U → child root ch = Some p → U ∈ keys (dict_set c p st)) as Hnew.
  { intros st p -> _. apply elem_of_keys_dict_set. by left. }
  assert (∀ p, child root ch = Some p → tracks root text (S c) (c, p)) as Htnew.
  { intros p Hp. unfold tracks. cbn [fst snd]. replace (S c) with (c + 1) by lia.
    rewrite (slice_singleton _ _ ch) by done. simpl. by rewrite Hp. }
  revert Hstep. unfold Trie.step.
  destruct (negb (Trie.skip l =? 0) && (c <? Trie.skip l)) eqn:Hb.
  { intros [= <-]. apply andb_true_iff in Hb as [_ Hlt%Nat.ltb_lt].
    assert (Trie.states l = []) as Hnil.
    { destruct (Trie.states l) as [|[k p] st]; [done|].
      apply Forall_cons in Hrange as [Hk _]. simpl in Hk. lia. }
    right. split; [lia|]. split; [done|]. rewrite Hnil.
    split; [constructor|]. split; [done|]. lia. }
  assert (Trie.skip l ≤ c) as Hskc.
  { apply andb_false_iff in Hb as [Hb|Hb%Nat.ltb_ge]; [|done].
    apply negb_false_iff, Nat.eqb_eq in Hb. lia. }
  destruct (for_states_sem c ch (Trie.states l) [] [] l)
    as (l1 & tr' & reset & Hfs & Hres); [done..| | |constructor|done| |].
  { done. }
  { eapply Forall_impl; [done|]. simpl. lia. }
  { intros HUc. split; [by apply HU|]. by intros ?%elem_of_nil. }
  destruct (for_states_spec text c ch (Trie.states l) [] [] l)
    as (l1' & tr1 & reset1 & Hfs' & Hgen);
    [done..|by intros ? ?%elem_of_nil|constructor|].
  rewrite Hfs in Hfs'. injection Hfs' as <- <- <-.
  rewrite Hfs. cbn [mbind res_bind]. destruct reset.
  - cbn [mbind res_bind]. intros [= <-].
    destruct Hres as [[HcU Hsk1]|(HUc & Hoff & Hsk1)]; [right|by left].
    split; [lia|]. split; [done|]. cbn [Trie.states Trie.skip].
    split; [|split; [done|]].
    + destruct (Trie.skip l1 <=? c); [|constructor].
      destruct (child root ch) as [p|] eqn:Hp; [|constructor].
      simpl. apply Forall_singleton. by apply Htnew.
    + intros HUc. assert (c = U) as Heq by lia.
      rewrite (leb_correct (Trie.skip l1) c) by lia.
      destruct (start_child ch) as [p Hp]; [by rewrite <-Heq|].
      rewrite Hp. by apply (Hnew [] p).
  - destruct Hres as (HcE & Hvis & HUtr).
    destruct Hgen as (Hkeys & Hoff & Hsk1 & Hsub & Hnd).
    destruct (del_all_spec tr' (Trie.states l1)) as (d' & Hdel & Hsubl); [done..|].
    rewrite Hdel. cbn [mbind res_bind]. intros [= <-]. right. split; [done|].
    assert (NoDup (keys (Trie.states l1))) as Hnd1.
    { rewrite Hkeys. by apply sorted_keys_NoDup. }
    assert (Forall (tracks root text (S c)) d') as Htd.
    { apply Forall_forall. intros e He.
      destruct (del_all_removed tr' (Trie.states l1) d' Hsub Hnd Hnd1 Hdel e He)
        as [He1 Hntr].
      rewrite Forall_forall in Hvis. destruct (Hvis e He1) as [_ Hadv].
      unfold tracks. replace (S c) with (c + 1) by lia. by apply Hadv. }
    split; [done|]. cbn [Trie.states Trie.skip]. rewrite Hsk1.
    rewrite (leb_correct (Trie.skip l) c) by done.
    split; [|split; [done|]].
    + destruct (child root ch) as [p|] eqn:Hp; [|done].
      apply Forall_dict_set; [by apply Htnew|done].
    + intros HUc. destruct (decide (c = U)) as [Heq|Hne].
      * destruct (start_child ch) as [p Hp]; [by rewrite <-Heq|].
        rewrite Hp. by apply Hnew.
      * assert (U ∈ keys d') as HUd.
        { assert (U ∈ keys (Trie.states l)) as [lp HUin]%elem_of_keys_inv
          by (apply HU; lia).
          assert (U ∈ keys (Trie.states l1)) as HU1.
          { rewrite Hkeys. by apply (elem_of_keys _ lp). }
          apply elem_of_keys_inv in HU1 as [lp1 HU1].
          apply (elem_of_keys _ lp1).
          apply (del_all_kept tr' (Trie.states l1)); [done..|].
          apply HUtr. lia. }
        destruct (child root ch) as [p|]; [|done].
        apply elem_of_keys_dict_set. by right.
Qed.

(** The scan from a position up to the end of [w] returns, and the offsets
    it leaves hold the cut around [w] after offsets made before it. *)
Lemma main_loop_sem rest c l :
  rest = drop c text → c ≤ E → scanning root text U c l →
  ∃ lf offs0 extra,
    Trie.main_loop root text c rest l = Ok lf ∧
    loop_inv text (length text) lf ∧
    Trie.final_cut text (Trie.states lf) (Trie.offsets lf) = offs0 ++ [U; E] ++ extra.
Proof using Hw Hw_ne Hv Hleft Hdead.
  revert c l. induction rest as [|ch rest IH]; intros c l Hrest Hc Hscan.
  - assert (length text ≤ c) as Hlen.
    { destruct (decide (length text ≤ c)); [done|].
      assert (length (drop c text) = 0) as Hl by by rewrite <-Hrest.
      rewrite length_drop in Hl. lia. }
    pose proof w_length as Hwlen.
    rewrite text_length, length_app in Hlen.
    assert (c = E) as -> by lia.
    assert (length text = E) as Hlen' by (rewrite text_length, length_app; lia).
    destruct Hscan as (Hinv & Htracks & Hskip & HU).
    exists l, (Trie.offsets l), []. split; [done|]. split; [by rewrite Hlen'|].
    assert (U ∈ keys (Trie.states l)) as [lp HUin]%elem_of_keys_inv
          by (apply HU; lia).
    destruct (sorted_split _ U lp (Trie.states l) (inv_keys_sorted _ _ _ Hinv) HUin)
      as (pre & post & Hst & Hpre & _ & _).
    rewrite Hst in Htracks. apply Forall_app in Htracks as [Htpre Htrest].
    apply Forall_cons in Htrest as [Hlp _]. unfold tracks in Hlp. cbn [fst snd] in Hlp.
    rewrite slice_word in Hlp.
    rewrite Hst, final_cut_first; [by rewrite Hlen'| |].
    + apply Forall_forall. intros e He.
      rewrite Forall_forall in Hpre, Htpre.
      specialize (Hpre e He). specialize (Htpre e He). unfold tracks in Htpre.
      cbn beta in Hpre.
      rewrite <-(accepts_walk _ _ _ Htpre). apply Hleft; lia.
    + by rewrite <-(accepts_walk _ _ _ Hlp).
  - assert (text !! c = Some ch) as Hch.
    { rewrite <-(Nat.add_0_r c), <-lookup_drop, <-Hrest. done. }
    assert (rest = drop (S c) text) as Hrest'.
    { rewrite (drop_S _ _ _ Hch) in Hrest. congruence. }
    pose proof (lookup_lt_Some _ _ _ Hch) as Hlen.
    destruct (step_sem c ch l Hch Hc Hscan) as (l1 & Hstep & Hinv1 & Hcase).
    cbn [Trie.main_loop]. rewrite Hstep. cbn [mbind res_bind].
    destruct Hcase as [(HUc & Hoff1 & Hskip1)|[HcE Hscan1]].
    + destruct (main_loop_inv root text (S c) rest l1)
        as (lf & -> & Hinvf & ex & Hex); [|done|].
      { rewrite Hrest', length_drop. lia. }
      destruct (final_cut_cases text (Trie.states lf) (Trie.offsets lf))
        as [Hfc|(s & _ & Hfc)].
      * exists lf, (Trie.offsets l), ex. split; [done|]. split; [done|].
        by rewrite Hfc, Hex, Hoff1, <-app_assoc.
      * exists lf, (Trie.offsets l), (ex ++ [s; length text]). split; [done|].
        split; [done|]. by rewrite Hfc, Hex, Hoff1, <-!app_assoc.
    + apply IH; [done|lia|done].
Qed.

(** [split] on [u ++ w ++ v]: fragments that make up [u], then [w], then
    fragments that make up [v]. *)
Lemma split_data_isolates :
  ∃ pre post, Trie.split_data root text = Ok (pre ++ w :: post)
              ∧ concat pre = u ∧ concat post = v.
Proof using Hw Hw_ne Hv Hleft Hdead.
  pose proof w_length as Hwlen.
  destruct (main_loop_sem text 0 (Trie.Locals [] [0] 0 None))
    as (lf & offs0 & extra & Hloop & Hinv & Hfc); [done|lia| |].
  { split; [apply loop_inv_init|]. split; [constructor|]. simpl. split; [lia|lia]. }
  destruct (final_offsets_sorted text lf Hinv) as [Hsorted _].
  rewrite Hfc in Hsorted.
  replace ((offs0 ++ [U; E] ++ extra) ++ [length text])
    with ((offs0 ++ [U]) ++ E :: extra ++ [length text]) in Hsorted
    by (by rewrite <-!app_assoc).
  apply StronglySorted_app in Hsorted as (_ & Hs1 & Hs2).
  destruct (cut_loop_app text (offs0 ++ [U]) (E :: extra ++ [length text]) 0)
    as (pre & Hpre & Hrun).
  { apply StronglySorted_cons. split; [|done]. apply Forall_forall. intros; lia. }
  rewrite last_snoc in Hpre. cbn [default] in Hpre.
  destruct (cut_loop_spec text (extra ++ [length text]) E (pre ++ [w]))
    as (post & Hcut & Hcat & _); [done|].
  exists pre, post. split; [|split].
  - unfold Trie.split_data. rewrite Hloop. cbn [mbind res_bind]. unfold Trie.cut_text.
    rewrite Hfc.
    replace ((offs0 ++ [U; E] ++ extra) ++ [length text])
      with ((offs0 ++ [U]) ++ E :: extra ++ [length text])
      by (by rewrite <-!app_assoc).
    rewrite Hrun, last_snoc. cbn [default app Trie.cut_loop]. unfold id.
    rewrite decide_False by lia. rewrite decide_False by lia.
    rewrite slice_word, Hcut. by rewrite <-app_assoc.
  - rewrite Hpre. unfold slice. rewrite Nat.sub_0_r, drop_0. apply take_app_length.
  - rewrite Hcat, last_snoc. simpl. unfold slice.
    rewrite (app_assoc u w v), drop_app_length'; [|rewrite length_app; lia].
    apply take_ge. rewrite !length_app. lia.
Qed.

End isolation.

(** C6, amended. An occurrence of a vocabulary word [w] in [u ++ w ++ v] is
    returned as a fragment of its own, between fragments that make up [u]
    and fragments that make up [v], when

    - no vocabulary word occurs in the text from a position before the
      start of [w] to a position beyond it (a match that starts earlier is
      taken first);
    - no vocabulary word is [w] followed by a non-empty beginning of [v]
      (the longest continuation is taken);
    - the text does not lead the lookahead astray: there is no state started
      at [L] before [w] and ended by the character at [c], up to the end of
      [w], from whose node the characters after [c] spell a vocabulary word
      that ends beyond the start of [w].  On such texts the lookahead reads
      on from the ended state; what [split] does there is left open here
      (see [split_dead_state_example]). *)
Theorem split_isolates_word (args : list (list ascii)) (u w v : str) :
  w ∈ vocabulary args →
  (∀ L e, L < length u → length u < e → e ≤ length (u ++ w ++ v) →
          slice (u ++ w ++ v) L e ∉ vocabulary args) →
  (∀ k, 0 < k ≤ length v → w ++ take k v ∉ vocabulary args) →
  (∀ L c e, L < c → L < length u → c ≤ length u + length w →
            length u < e → c + 1 < e → e ≤ length (u ++ w ++ v) →
            ¬ begins_word args (slice (u ++ w ++ v) L (c + 1)) →
            slice (u ++ w ++ v) L c ++ slice (u ++ w ++ v) (c + 1) e ∉ vocabulary args) →
  ∃ pre post, (Trie.split (u ++ w ++ v) (Trie.__init__ args)).1 = Ok (pre ++ w :: post)
              ∧ concat pre = u ∧ concat post = v.
Proof.
  intros Hw Hleft Hv Hdead. cbn [Trie.split fst].
  apply split_data_isolates.
  - by apply accepts_init.
  - unfold vocabulary in Hw. by apply list_elem_of_filter in Hw as [? _].
  - intros k Hk. specialize (Hv k Hk).
    destruct (accepts _ (w ++ take k v)) eqn:Hacc; [|done].
    by apply accepts_init in Hacc.
  - intros L e HL He Hlen. specialize (Hleft L e HL He Hlen).
    destruct (accepts _ (slice _ L e)) eqn:Hacc; [|done].
    by apply accepts_init in Hacc.
  - intros L c e HLc HL Hc He Hce Hlen Hnone.
    destruct (accepts _ (_ ++ _)) eqn:Hacc; [|done].
    apply accepts_init in Hacc. exfalso. revert Hacc. apply Hdead; [done..|].
    intros (x & Hx & Hpre)%Exists_exists.
    assert (is_Some (walk (Trie.data (Trie.__init__ args))
                       (slice (u ++ w ++ v) L (c + 1)))) as [? Hsome].
    { apply is_Some_walk_init. right. by exists x. }
    congruence.
Qed.

Lemma split_isolates_word_witness :
  chars "extra_id_100" ∈ vocabulary (chars <$> ["[CLS]"; "extra_id_1"; "extra_id_100"]%string) ∧
  (∀ L e, L < length (chars "[CLS] This is a ") → length (chars "[CLS] This is a ") < e →
          e ≤ length (chars "[CLS] This is a " ++ chars "extra_id_100" ++ chars " b") →
          slice (chars "[CLS] This is a " ++ chars "extra_id_100" ++ chars " b") L e ∉ vocabulary (chars <$> ["[CLS]"; "extra_id_1"; "extra_id_100"]%string)) ∧
  (∀ k, 0 < k ≤ length (chars " b") →
        chars "extra_id_100" ++ take k (chars " b") ∉ vocabulary (chars <$> ["[CLS]"; "extra_id_1"; "extra_id_100"]%string)) ∧
  (∀ L c e, L < c → L < length (chars "[CLS] This is a ") →
            c ≤ length (chars "[CLS] This is a ") + length (chars "extra_id_100") →
            length (chars "[CLS] This is a ") < e → c + 1 < e →
            e ≤ length (chars "[CLS] This is a " ++ chars "extra_id_100" ++ chars " b") →
            ¬ begins_word (chars <$> ["[CLS]"; "extra_id_1"; "extra_id_100"]%string)
                (slice (chars "[CLS] This is a " ++ chars "extra_id_100" ++ chars " b") L (c + 1)) →
            slice (chars "[CLS] This is a " ++ chars "extra_id_100" ++ chars " b") L c ++ slice (chars "[CLS] This is a " ++ chars "extra_id_100" ++ chars " b") (c + 1) e
              ∉ vocabulary (chars <$> ["[CLS]"; "extra_id_1"; "extra_id_100"]%string)) ∧
  ∃ pre post,
    (Trie.split (chars "[CLS] This is a " ++ chars "extra_id_100" ++ chars " b")
       (Trie.__init__ (chars <$> ["[CLS]"; "extra_id_1"; "extra_id_100"]%string))).1
    = Ok (pre ++ chars "extra_id_100" :: post)
    ∧ concat pre = chars "[CLS] This is a " ∧ concat post = chars " b".
Proof.
  set (args := chars <$> ["[CLS]"; "extra_id_1"; "extra_id_100"]%string).
  set (u := chars "[CLS] This is a "). set (w := chars "extra_id_100").
  set (v := chars " b").
  assert (length u = 16 ∧ length w = 12 ∧ length v = 2 ∧ length (u ++ w ++ v) = 30)
    as (Hlu & Hlw & Hlv & Hlt) by done.
  assert (w ∈ vocabulary args) as H1.
  { apply (bool_decide_unpack _). vm_compute. exact I. }
  assert (∀ L e, L < length u → length u < e → e ≤ length (u ++ w ++ v) →
                 slice (u ++ w ++ v) L e ∉ vocabulary args) as H2.
  { assert (Forall (λ L, Forall (λ e, slice (u ++ w ++ v) L e ∉ vocabulary args)
                           (seq 17 14)) (seq 0 16)) as HF.
    { apply (bool_decide_unpack _). vm_compute. exact I. }
    intros L e HL He Hlen. rewrite Forall_forall in HF.
    specialize (HF L). rewrite Forall_forall in HF.
    apply HF; apply elem_of_seq; lia. }
  assert (∀ k, 0 < k ≤ length v → w ++ take k v ∉ vocabulary args) as H3.
  { assert (Forall (λ k, w ++ take k v ∉ vocabulary args) (seq 1 2)) as HF.
    { apply (bool_decide_unpack _). vm_compute. exact I. }
    intros k Hk. rewrite Forall_forall in HF. apply HF. apply elem_of_seq. lia. }
  assert (∀ L c e, L < c → L < length u → c ≤ length u + length w →
                   length u < e → c + 1 < e → e ≤ length (u ++ w ++ v) →
                   ¬ begins_word args (slice (u ++ w ++ v) L (c + 1)) →
                   slice (u ++ w ++ v) L c ++ slice (u ++ w ++ v) (c + 1) e
                     ∉ vocabulary args) as H4.
  { assert (Forall (λ L, Forall (λ c, Forall (λ e,
                L < c → c + 1 < e →
                ¬ begins_word args (slice (u ++ w ++ v) L (c + 1)) →
                slice (u ++ w ++ v) L c ++ slice (u ++ w ++ v) (c + 1) e
                  ∉ vocabulary args) (seq 17 14)) (seq 0 29)) (seq 0 16)) as HF.
    { apply (bool_decide_unpack _). vm_compute. exact I. }
    intros L c e HLc HL Hc He Hce Hlen. rewrite Forall_forall in HF.
    assert (L ∈ seq 0 16) as HinL by (apply elem_of_seq; lia).
    specialize (HF L HinL). rewrite Forall_forall in HF.
    assert (c ∈ seq 0 29) as Hinc by (apply elem_of_seq; lia).
    specialize (HF c Hinc). rewrite Forall_forall in HF.
    apply HF; [apply elem_of_seq; lia|done|done]. }
  split; [exact H1|]. split; [exact H2|]. split; [exact H3|]. split; [exact H4|].
  exact (split_isolates_word args u w v H1 H2 H3 H4).
Defined.

(** C6 as stated fails where an earlier match overlaps the occurrence: with
    the words [ab] and [bc], the occurrence of [bc] in [abc] is extended by
    nothing around it, but [ab] is matched first and [bc] is no fragment. *)
Lemma split_isolation_counterexample :
  chars "bc" ∈ vocabulary [chars "ab"; chars "bc"] ∧
  not_extended [chars "ab"; chars "bc"] (chars "a") (chars "bc") [] ∧
  (Trie.split (chars "a" ++ chars "bc" ++ []) (Trie.__init__ [chars "ab"; chars "bc"])).1
    = Ok [chars "ab"; chars "c"] ∧
  chars "bc" ∉ [chars "ab"; chars "c"].
Proof.
  split; [apply (bool_decide_unpack _); vm_compute; exact I|].
  split; [|split; [reflexivity|apply (bool_decide_unpack _); vm_compute; exact I]].
  intros a2 b1 [k Hk] Hb Hin. apply prefix_nil_inv in Hb as ->.
  split; [|done]. destruct a2 as [|c a2]; [done|]. exfalso.
  assert (a2 = []) as ->.
  { apply (f_equal length) in Hk. rewrite length_app in Hk. simpl in Hk.
    destruct a2; [done|simpl in Hk; lia]. }
  destruct k as [|? ?]; [|apply (f_equal length) in Hk; rewrite length_app in Hk;
                          simpl in Hk; lia].
  simpl in Hk. injection Hk as <-.
  revert Hin. apply (bool_decide_unpack _). vm_compute. exact I.
Qed.

(** A defect of the lookahead, apart from the precedence of earlier
    matches.  When a state is found terminal, the lookahead reads on from
    every state started earlier and takes each of them to have gone on with
    the current character; the source says of an earlier partial match that
    its trie pointer was already updated, so index is + 1.  A state that the
    current character has ended was not updated: it is listed in
    [to_remove] and is still in [states] with the node it had.  The
    lookahead reads on from that node one character further in the text,
    and so matches a word with the ending character left out.

    With the words [abd] and [b], the text [abcd] holds no occurrence of
    [abd]: the state started at [a] is ended by [c], yet the lookahead run
    for [b] walks it on with [d], and the whole of [abcd] is returned as
    one fragment, although [b] occurs in it and no vocabulary word overlaps
    or extends that occurrence: the first two conditions of the isolation
    property above hold here and the third does not.  In the same way the
    words [[CLS]] and [L] leave [[CLxS]] in one piece. *)
Lemma split_dead_state_example :
  (Trie.split (chars "a" ++ chars "b" ++ chars "cd")
     (Trie.__init__ [chars "abd"; chars "b"])).1 = Ok [chars "abcd"] ∧
  chars "b" ∈ vocabulary [chars "abd"; chars "b"] ∧
  (∀ L e, L < 1 → 1 < e → e ≤ 4 →
          slice (chars "abcd") L e ∉ vocabulary [chars "abd"; chars "b"]) ∧
  (∀ k, 0 < k ≤ 2 →
        chars "b" ++ take k (chars "cd") ∉ vocabulary [chars "abd"; chars "b"]) ∧
  ¬ begins_word [chars "abd"; chars "b"] (slice (chars "abcd") 0 3) ∧
  slice (chars "abcd") 0 2 ++ slice (chars "abcd") 3 4
    ∈ vocabulary [chars "abd"; chars "b"] ∧
  (Trie.split (chars "[CLxS]") (Trie.__init__ [chars "[CLS]"; chars "L"])).1
    = Ok [chars "[CLxS]"].
Proof.
  split; [reflexivity|].
  split; [apply (bool_decide_unpack _); vm_compute; exact I|].
  split.
  { assert (Forall (λ e, slice (chars "abcd") 0 e ∉ vocabulary [chars "abd"; chars "b"])
              (seq 2 3)) as HF.
    { apply (bool_decide_unpack _). vm_compute. exact I. }
    intros L e HL He Hlen. assert (L = 0) as -> by lia.
    rewrite Forall_forall in HF. apply HF. apply elem_of_seq. lia. }
  split.
  { assert (Forall (λ k, chars "b" ++ take k (chars "cd")
                           ∉ vocabulary [chars "abd"; chars "b"]) (seq 1 2)) as HF.
    { apply (bool_decide_unpack _). vm_compute. exact I. }
    intros k Hk. rewrite Forall_forall in HF. apply HF. apply elem_of_seq. lia. }
  split; [apply (bool_decide_unpack _); vm_compute; exact I|].
  split; [apply (bool_decide_unpack _); vm_compute; exact I|reflexivity].
Qed.

(** * Further properties of the trie *)

(** ** Construction and insertion *)

Lemma accepts_add w self x :
  accepts (Trie.data (Trie.add w self)) x = true
  ↔ (x = w ∧ w ≠ []) ∨ accepts (Trie.data self) x = true.
Proof.
  destruct w as [|c w]; [naive_solver|]. cbn [Trie.add Trie.data].
  rewrite accepts_add_chars, orb_true_iff, bool_decide_eq_true. naive_solver.
Qed.

Lemma tokens_add w self x :
  x ∈ Trie._tokens (Trie.add w self) ↔ (x = w ∧ w ≠ []) ∨ x ∈ Trie._tokens self.
Proof.
  destruct w as [|c w]; [naive_solver|]. cbn [Trie.add Trie._tokens].
  rewrite elem_of_union, elem_of_singleton. naive_solver.
Qed.

(** X1. In every state reached by construction, [add] and [update], the
    empty string is no token and the root of the tree bears no termination
    marker. *)
Theorem empty_word_never_inserted (self : Trie.t) :
  reachable self →
  [] ∉ Trie._tokens self ∧ terminal (Trie.data self) = false.
Proof.
  intros Hreach.
  assert ([] ∉ Trie._tokens self) as Hnot.
  { induction Hreach as [args|w self _ IH|args self _ IH].
    - rewrite tokens_init. unfold vocabulary. rewrite list_elem_of_filter. naive_solver.
    - rewrite tokens_add. naive_solver.
    - rewrite tokens_update. unfold vocabulary. rewrite list_elem_of_filter. naive_solver. }
  split; [done|].
  rewrite (tokens_agree_reachable self Hreach), accepts_nil in Hnot.
  by destruct (terminal (Trie.data self)).
Qed.

Lemma empty_word_never_inserted_witness :
  reachable (Trie.add [] (Trie.__init__ [[]; chars "ab"; []])) ∧
  [] ∉ Trie._tokens (Trie.add [] (Trie.__init__ [[]; chars "ab"; []])) ∧
  terminal (Trie.data (Trie.add [] (Trie.__init__ [[]; chars "ab"; []]))) = false.
Proof.
  split; [apply reachable_add, reachable_init|].
  apply (empty_word_never_inserted (Trie.add [] (Trie.__init__ [[]; chars "ab"; []]))).
  apply reachable_add, reachable_init.
Defined.

(** X2. After [add(w)], on any state, the tokens and the words the tree
    accepts are those from before together with [w], unless [w] is empty. *)
Theorem add_then_lookup (self : Trie.t) (w x : str) :
  (x ∈ Trie._tokens (Trie.add w self) ↔ (x = w ∧ w ≠ []) ∨ x ∈ Trie._tokens self) ∧
  (accepts (Trie.data (Trie.add w self)) x = true
   ↔ (x = w ∧ w ≠ []) ∨ accepts (Trie.data self) x = true).
Proof. split; [apply tokens_add|apply accepts_add]. Qed.

(** X3. [update], and so the constructor, adds exactly the non-empty words
    it is given, whatever their order and however often they occur. *)
Theorem update_then_lookup (args : list (list ascii)) (self : Trie.t) (x : str) :
  (x ∈ Trie._tokens (Trie.update args self)
   ↔ (x ∈ args ∧ x ≠ []) ∨ x ∈ Trie._tokens self) ∧
  (accepts (Trie.data (Trie.update args self)) x = true
   ↔ (x ∈ args ∧ x ≠ []) ∨ accepts (Trie.data self) x = true) ∧
  (x ∈ Trie._tokens (Trie.__init__ args) ↔ x ∈ args ∧ x ≠ []).
Proof.
  assert (x ∈ vocabulary args ↔ x ∈ args ∧ x ≠ []) as Hvoc.
  { unfold vocabulary. rewrite list_elem_of_filter. naive_solver. }
  split; [by rewrite tokens_update, Hvoc|]. split; [|by rewrite tokens_init].
  clear Hvoc. revert self. induction args as [|w args IH]; intros self.
  - simpl. split; [by right|]. intros [[?%elem_of_nil _]|?]; done.
  - change (Trie.update (w :: args) self) with (Trie.update args (Trie.add w self)).
    rewrite IH, accepts_add, elem_of_cons. naive_solver.
Qed.

Lemma is_Some_walk_reachable (self : Trie.t) (p : str) :
  reachable self →
  (is_Some (walk (Trie.data self) p)
   ↔ p = [] ∨ ∃ x, x ∈ Trie._tokens self ∧ p `prefix_of` x).
Proof.
  intros Hreach. revert p. induction Hreach as [args|w self _ IH|args self _ IH]; intros p.
  - rewrite is_Some_walk_init. by setoid_rewrite tokens_init.
  - destruct w as [|c w]; [apply IH|]. cbn [Trie.add Trie.data Trie._tokens].
    rewrite is_Some_walk_add_chars, IH. split.
    + intros [Hp|[->|(x & Hx & Hp)]]; [|by left|].
      * right. exists (c :: w). split; [set_solver|done].
      * right. exists x. split; [set_solver|done].
    + intros [->|(x & Hx & Hp)]; [right; by left|].
      apply elem_of_union in Hx as [->%elem_of_singleton|Hx]; [by left|].
      right. right. by exists x.
  - rewrite is_Some_walk_update, IH. setoid_rewrite tokens_update. naive_solver.
Qed.

(** X4. The tree has no dangling path: in every reachable state, the paths
    from the root are the empty path and the beginnings of the tokens. *)
Theorem paths_are_token_prefixes (self : Trie.t) (p : str) :
  reachable self →
  (is_Some (walk (Trie.data self) p)
   ↔ p = [] ∨ ∃ x, x ∈ Trie._tokens self ∧ p `prefix_of` x).
Proof. apply is_Some_walk_reachable. Qed.

Lemma paths_are_token_prefixes_witness :
  reachable (Trie.__init__ [chars "apple"; chars "app"]) ∧
  (is_Some (walk (Trie.data (Trie.__init__ [chars "apple"; chars "app"])) (chars "appl"))
   ↔ chars "appl" = []
     ∨ ∃ x, x ∈ Trie._tokens (Trie.__init__ [chars "apple"; chars "app"])
            ∧ chars "appl" `prefix_of` x).
Proof.
  split; [apply reachable_init|].
  apply (paths_are_token_prefixes (Trie.__init__ [chars "apple"; chars "app"])
           (chars "appl")).
  apply reachable_init.
Defined.

(** ** Fragments *)

Lemma slice_nonempty text a b : a < b → b ≤ length text → slice text a b ≠ [].
Proof.
  intros Hab Hb Hnil. apply (f_equal length) in Hnil. unfold slice in Hnil.
  rewrite length_take, length_drop in Hnil. simpl in Hnil. lia.
Qed.

Lemma cut_loop_nonempty text offsets start tokens r :
  Forall (λ o, o ≤ length text) offsets →
  Forall (λ f, f ≠ []) tokens →
  Trie.cut_loop text offsets start tokens = Ok r →
  Forall (λ f, f ≠ []) r.
Proof.
  revert start tokens. induction offsets as [|e offsets IH]; intros start tokens Hle Htok.
  - simpl. by intros [= <-].
  - apply Forall_cons in Hle as [He Hle]. cbn [Trie.cut_loop].
    destruct (decide (e < start)); [done|].
    destruct (decide (start = e)); [by apply IH|].
    apply IH; [done|]. apply Forall_app. split; [done|].
    repeat constructor. apply slice_nonempty; lia.
Qed.

Lemma length_concat_nonempty {A} (ls : list (list A)) :
  Forall (λ f, f ≠ []) ls → length ls ≤ length (concat ls).
Proof.
  induction 1 as [|f ls Hf _ IH]; simpl; [done|].
  rewrite length_app. destruct f; [done|]. simpl. lia.
Qed.

(** X5. No fragment that [split] returns is empty, so there are at most as
    many fragments as the text has characters; the empty text gives no
    fragment. *)
Theorem split_fragments_nonempty (args : list (list ascii)) (text : str) :
  ∃ frags, (Trie.split text (Trie.__init__ args)).1 = Ok frags ∧
           Forall (λ f, f ≠ []) frags ∧ length frags ≤ length text.
Proof.
  destruct (split_data_spec (Trie.data (Trie.__init__ args)) text)
    as (l & frags & Hloop & _ & Hsplit & Hcat & _).
  exists frags. split; [done|].
  assert (Forall (λ f, f ≠ []) frags) as Hne.
  { destruct (main_loop_inv (Trie.data (Trie.__init__ args)) text 0 text
                (Trie.Locals [] [0] 0 None)) as (l' & Hloop' & Hinv & _);
      [done|apply loop_inv_init|].
    assert (l' = l) as -> by congruence.
    destruct (final_offsets_sorted text l Hinv) as [_ Hle].
    unfold Trie.split_data in Hsplit. rewrite Hloop in Hsplit.
    eapply cut_loop_nonempty; [exact Hle|constructor|exact Hsplit]. }
  split; [done|]. rewrite <-Hcat. by apply length_concat_nonempty.
Qed.

Lemma main_loop_no_start root text cur rest :
  (∀ c, c ∈ rest → child root c = None) →
  Trie.main_loop root text cur rest (Trie.Locals [] [0] 0 None)
  = Ok (Trie.Locals [] [0] 0 None).
Proof.
  revert cur. induction rest as [|c rest IH]; intros cur Hnone; [done|].
  cbn [Trie.main_loop]. unfold Trie.step. simpl.
  rewrite (Hnone c) by left. cbn [mbind res_bind].
  apply IH. intros; apply Hnone; by right.
Qed.

(** X6. A text none of whose characters begins a vocabulary word passes
    through whole: [split] returns the text as its single fragment, or no
    fragment for the empty text.  An empty vocabulary is the extreme case. *)
Theorem split_pass_through (args : list (list ascii)) (text : str) :
  (∀ x c, x ∈ vocabulary args → c ∈ text → head x ≠ Some c) →
  (Trie.split text (Trie.__init__ args)).1
  = Ok (if decide (text = []) then [] else [text]).
Proof.
  intros Hno. cbn [Trie.split fst]. unfold Trie.split_data.
  rewrite main_loop_no_start.
  2:{ intros c Hc. apply child_init_None. intros x Hx. by apply Hno. }
  cbn [mbind res_bind Trie.states Trie.offsets Trie.final_cut]. unfold Trie.cut_text.
  cbn [app Trie.cut_loop]. rewrite decide_False by lia. rewrite decide_True by done.
  rewrite decide_False by lia. destruct (decide (text = [])) as [->|Hne].
  - done.
  - rewrite decide_False by (destruct text; [done|simpl; lia]).
    simpl. by rewrite slice_all.
Qed.

Lemma split_pass_through_witness :
  (∀ x c, x ∈ vocabulary [chars "[CLS]"; chars "extra_id_1"] →
          c ∈ chars "This is a toy" → head x ≠ Some c) ∧
  (Trie.split (chars "This is a toy") (Trie.__init__ [chars "[CLS]"; chars "extra_id_1"])).1
  = Ok (if decide (chars "This is a toy" = []) then [] else [chars "This is a toy"]).
Proof.
  assert (∀ x c, x ∈ vocabulary [chars "[CLS]"; chars "extra_id_1"] →
                 c ∈ chars "This is a toy" → head x ≠ Some c) as Hno.
  { assert (Forall (λ x, Forall (λ c, head x ≠ Some c) (chars "This is a toy"))
              (vocabulary [chars "[CLS]"; chars "extra_id_1"])) as HF.
    { apply (bool_decide_unpack _). vm_compute. exact I. }
    intros x c Hx Hc. rewrite Forall_forall in HF. specialize (HF x Hx).
    rewrite Forall_forall in HF. by apply HF. }
  split; [exact Hno|].
  exact (split_pass_through [chars "[CLS]"; chars "extra_id_1"] (chars "This is a toy") Hno).
Defined.

(** ** [cut_text] on any offsets *)

Lemma cut_loop_int_nat text offsets start tokens :
  cut_loop_int text (Z.of_nat <$> offsets) (Z.of_nat start) tokens
  = Trie.cut_loop text offsets start tokens.
Proof.
  revert start tokens. induction offsets as [|e offsets IH]; intros start tokens; [done|].
  cbn [fmap list_fmap cut_loop_int Trie.cut_loop].
  destruct (decide (e < start)).
  { by rewrite decide_True by lia. }
  rewrite decide_False by lia.
  destruct (decide (start = e)) as [->|Hne].
  - rewrite decide_True by done. apply IH.
  - rewrite decide_False by lia. rewrite !Nat2Z.id. apply IH.
Qed.

(** On the offsets [split] computes, which are positions in the text, the
    loop over integers is the loop over positions. *)
Lemma cut_text_int_nat text offsets :
  cut_text_int text (Z.of_nat <$> offsets) = Trie.cut_text text offsets.
Proof.
  unfold cut_text_int, Trie.cut_text.
  change [Z.of_nat (length text)] with (Z.of_nat <$> [length text]).
  rewrite <-fmap_app. change 0%Z with (Z.of_nat 0). apply cut_loop_int_nat.
Qed.

Lemma cut_loop_int_unsorted text offsets start tokens :
  ¬ StronglySorted Z.le (start :: offsets) →
  cut_loop_int text offsets start tokens = Raise (NameError "logger").
Proof.
  revert start tokens. induction offsets as [|e offsets IH]; intros start tokens Hns.
  - destruct Hns. repeat constructor.
  - cbn [cut_loop_int]. destruct (decide (e < start)%Z) as [|Hge]; [done|].
    destruct (decide (start = e)) as [->|Hne].
    + apply IH. intros Hs. apply Hns. apply StronglySorted_cons. split; [|done].
      constructor; [done|]. by apply StronglySorted_cons in Hs as [? _].
    + apply IH. intros Hs. apply Hns. apply StronglySorted_cons. split; [|done].
      constructor; [lia|]. apply StronglySorted_cons in Hs as [Hall _].
      eapply Forall_impl; [exact Hall|]. simpl. lia.
Qed.

(** X7. [cut_text], called with any list of integers, returns exactly when
    the sequence made of [0], the offsets and the length of the text never
    descends (so no offset is negative or beyond the text); the fragments
    are then non-empty and make up the text.  On any other offsets it
    raises [NameError]. *)
Theorem cut_text_returns_iff_ascending (text : str) (offsets : list Z) :
  if decide (StronglySorted Z.le (0%Z :: offsets ++ [Z.of_nat (length text)])) then
    ∃ frags, cut_text_int text offsets = Ok frags ∧ concat frags = text ∧
             Forall (λ f, f ≠ []) frags
  else cut_text_int text offsets = Raise (NameError "logger").
Proof.
  destruct (decide (StronglySorted Z.le (0%Z :: offsets ++ [Z.of_nat (length text)])))
    as [Hs|Hns]; [|by apply cut_loop_int_unsorted].
  assert (offsets = Z.of_nat <$> (Z.to_nat <$> offsets)) as Hnat.
  { apply StronglySorted_cons in Hs as [Hall _]. apply Forall_app in Hall as [Hall _].
    clear -Hall. induction Hall as [|x l Hx _ IH]; [done|].
    simpl. rewrite Z2Nat.id by done. by f_equal. }
  assert (∀ x y : Z, (x ≤ y)%Z → Z.to_nat x ≤ Z.to_nat y) as Hmono by (intros; lia).
  pose proof (StronglySorted_fmap Z.to_nat Z.le le _ Hmono Hs) as Hs'.
  rewrite fmap_cons, fmap_app in Hs'. simpl in Hs'. rewrite Nat2Z.id in Hs'.
  remember (Z.to_nat <$> offsets) as offs' eqn:Hoffs. clear Hoffs Hs Hmono. subst offsets.
  unfold cut_text_int.
  change [Z.of_nat (length text)] with (Z.of_nat <$> [length text]).
  rewrite <-fmap_app. change 0%Z with (Z.of_nat 0). rewrite cut_loop_int_nat.
  destruct (cut_loop_spec text (offs' ++ [length text]) 0 [] Hs')
    as (frags & Hcut & Hcat & _).
  exists frags. split; [done|]. split.
  - rewrite Hcat, last_snoc. apply slice_all.
  - eapply (cut_loop_nonempty text _ 0 []); [|constructor|exact Hcut].
    apply StronglySorted_cons in Hs' as [_ Hs'].
    apply StronglySorted_app in Hs' as (Hall & _ & _).
    apply Forall_app. split; [|by repeat constructor].
    apply Forall_forall. intros o Ho. apply (Hall o); [done|left].
Qed.

(** ** [split] depends on the set of words only *)

Lemma node_equiv_terminal n1 n2 : node_equiv n1 n2 → terminal n1 = terminal n2.
Proof. intros H. by destruct (H []) as [_ ?]. Qed.

Lemma node_equiv_child n1 n2 c :
  node_equiv n1 n2 →
  match child n1 c, child n2 c with
  | Some m1, Some m2 => node_equiv m1 m2
  | None, None => True
  | _, _ => False
  end.
Proof.
  intros H. pose proof (H [c]) as [Hc _]. simpl in Hc.
  destruct (child n1 c) as [m1|] eqn:H1, (child n2 c) as [m2|] eqn:H2; simpl in Hc.
  - intros w. pose proof (H (c :: w)) as [Hw Ha]. rewrite !accepts_cons in Ha.
    simpl in Hw. rewrite H1, H2 in Hw, Ha. done.
  - destruct Hc as [[? ?] _]; [by eexists|done].
  - destruct Hc as [_ [? ?]]; [by eexists|done].
  - done.
Qed.

Lemma lookahead_while_equiv fuel text ls nc p1 p2 idx c :
  node_equiv p1 p2 →
  Trie.lookahead_while fuel text ls nc p1 idx c
  = Trie.lookahead_while fuel text ls nc p2 idx c.
Proof.
  revert nc p1 p2 idx c. induction fuel as [|fuel IH]; intros nc p1 p2 idx c Heq;
    cbn [Trie.lookahead_while]; destruct nc as [ch|]; simpl; try done.
  - pose proof (node_equiv_child p1 p2 ch Heq) as Hc.
    by destruct (child p1 ch), (child p2 ch).
  - pose proof (node_equiv_child p1 p2 ch Heq) as Hc.
    destruct (child p1 ch) as [m1|], (child p2 ch) as [m2|]; try done.
    unfold Trie.record_match. rewrite (node_equiv_terminal m1 m2 Hc).
    destruct (decide (idx + 1 = length text)); [done|].
    destruct (text !! (idx + 1)); [|done]. by apply IH.
Qed.

Lemma lookahead_for_equiv text cur items1 items2 c :
  states_rel items1 items2 →
  Trie.lookahead_for text cur items1 c = Trie.lookahead_for text cur items2 c.
Proof.
  intros Hrel. revert c.
  induction Hrel as [|[k1 p1] [k2 p2] items1 items2 [Hk Hp] _ IH]; intros [[s eo] sk];
    [done|].
  simpl in Hk, Hp. subst k2. cbn [Trie.lookahead_for].
  destruct (decide (s < k1)); [done|].
  unfold Trie.record_match. rewrite (node_equiv_terminal p1 p2 Hp).
  rewrite (lookahead_while_equiv _ _ _ _ p1 p2) by done.
  destruct (Trie.lookahead_while _ _ _ _ p2 _ _); simpl; [apply IH|done..].
Qed.

Lemma states_rel_keys d1 d2 : states_rel d1 d2 → keys d1 = keys d2.
Proof. induction 1 as [|[??] [??] ?? [? _] _ IH]; simpl in *; [done|]. by f_equal. Qed.

Lemma states_rel_dict_set k p1 p2 d1 d2 :
  node_equiv p1 p2 → states_rel d1 d2 →
  states_rel (dict_set k p1 d1) (dict_set k p2 d2).
Proof.
  intros Hp. unfold states_rel.
  induction 1 as [|[k1 q1] [k2 q2] d1 d2 [Hk Hq] Hd IH]; simpl in *.
  - constructor; [done|constructor].
  - subst k2. destruct (decide (k = k1)); constructor; done.
Qed.

Lemma states_rel_dict_del k d1 d2 :
  states_rel d1 d2 → res_rel states_rel (dict_del k d1) (dict_del k d2).
Proof.
  unfold states_rel.
  induction 1 as [|[k1 q1] [k2 q2] d1 d2 [Hk Hq] Hd IH]; simpl in *; [done|].
  subst k2. destruct (decide (k = k1)); [done|].
  destruct (dict_del k d1), (dict_del k d2); simpl in *; try done.
  by constructor.
Qed.

Lemma states_rel_del_all tr d1 d2 :
  states_rel d1 d2 → res_rel states_rel (Trie.del_all tr d1) (Trie.del_all tr d2).
Proof.
  revert d1 d2. induction tr as [|k tr IH]; intros d1 d2 Hd; [done|].
  cbn [Trie.del_all]. pose proof (states_rel_dict_del k d1 d2 Hd) as Hdel.
  destruct (dict_del k d1), (dict_del k d2); simpl in *; try done. by apply IH.
Qed.

Lemma for_states_equiv text cur ch items1 items2 tr l1 l2 :
  states_rel items1 items2 → locals_rel l1 l2 →
  res_rel (λ r1 r2, locals_rel r1.1.1 r2.1.1 ∧ r1.1.2 = r2.1.2 ∧ r1.2 = r2.2)
    (Trie.for_states text cur ch items1 tr l1)
    (Trie.for_states text cur ch items2 tr l2).
Proof.
  intros Hitems. revert tr l1 l2.
  induction Hitems as [|[k1 p1] [k2 p2] items1 items2 [Hk Hp] _ IH];
    intros tr l1 l2 Hl; [done|].
  simpl in Hk, Hp. subst k2. destruct Hl as (Hst & Hoff & Hskip & Hend).
  cbn [Trie.for_states]. rewrite (node_equiv_terminal p1 p2 Hp).
  destruct (terminal p2).
  - rewrite (lookahead_for_equiv text cur _ _ _ Hst), Hend, Hskip.
    destruct (Trie.lookahead_for _ _ _ _) as [[[s eo] sk]| |]; simpl; [|done..].
    destruct eo; simpl; [|done]. by rewrite Hoff.
  - pose proof (node_equiv_child p1 p2 ch Hp) as Hc.
    destruct (child p1 ch) as [m1|], (child p2 ch) as [m2|]; try done.
    + apply IH. split; [|done]. simpl. by apply states_rel_dict_set.
    + by apply IH.
Qed.

Lemma step_equiv root1 root2 text cur ch l1 l2 :
  node_equiv root1 root2 → locals_rel l1 l2 →
  res_rel locals_rel (Trie.step root1 text cur ch l1) (Trie.step root2 text cur ch l2).
Proof.
  intros Hroot Hl. pose proof Hl as (Hst & Hoff & Hskip & Hend).
  unfold Trie.step. rewrite Hskip.
  destruct (negb (Trie.skip l2 =? 0) && (cur <? Trie.skip l2)); [done|].
  pose proof (for_states_equiv text cur ch _ _ [] l1 l2 Hst Hl) as Hfor.
  destruct (Trie.for_states text cur ch (Trie.states l1) [] l1) as [[[l1' tr1] rs1]| |],
           (Trie.for_states text cur ch (Trie.states l2) [] l2) as [[[l2' tr2] rs2]| |];
    simpl in Hfor; try done.
  destruct Hfor as ((Hst' & Hoff' & Hskip' & Hend') & <- & <-).
  cbn [mbind res_bind].
  assert (res_rel states_rel
            (if rs1 then Ok [] else Trie.del_all tr1 (Trie.states l1'))
            (if rs1 then Ok [] else Trie.del_all tr1 (Trie.states l2'))) as Hdel.
  { destruct rs1; [constructor|by apply states_rel_del_all]. }
  destruct (if rs1 then Ok [] else Trie.del_all tr1 (Trie.states l1')) as [d1| |],
           (if rs1 then Ok [] else Trie.del_all tr1 (Trie.states l2')) as [d2| |];
    simpl in Hdel; try done.
  cbn [mbind res_bind res_rel]. rewrite Hskip', Hoff', Hend'.
  split; [|done]. cbn [Trie.states].
  destruct (Trie.skip l2' <=? cur); [|done].
  pose proof (node_equiv_child root1 root2 ch Hroot) as Hc.
  destruct (child root1 ch), (child root2 ch); try done.
  by apply states_rel_dict_set.
Qed.

Lemma main_loop_equiv root1 root2 text cur rest l1 l2 :
  node_equiv root1 root2 → locals_rel l1 l2 →
  res_rel locals_rel (Trie.main_loop root1 text cur rest l1)
    (Trie.main_loop root2 text cur rest l2).
Proof.
  intros Hroot. revert cur l1 l2. induction rest as [|ch rest IH]; intros cur l1 l2 Hl;
    [done|].
  cbn [Trie.main_loop]. pose proof (step_equiv root1 root2 text cur ch l1 l2 Hroot Hl) as Hs.
  destruct (Trie.step root1 text cur ch l1), (Trie.step root2 text cur ch l2);
    simpl in Hs; try done.
  cbn [mbind res_bind]. by apply IH.
Qed.

Lemma final_cut_equiv text items1 items2 offsets :
  states_rel items1 items2 →
  Trie.final_cut text items1 offsets = Trie.final_cut text items2 offsets.
Proof.
  induction 1 as [|[k1 p1] [k2 p2] items1 items2 [Hk Hp] _ IH]; [done|].
  simpl in *. subst k2. rewrite (node_equiv_terminal p1 p2 Hp). by rewrite IH.
Qed.

(** Equivalent roots give the same outcome of [split] on every text. *)
Lemma split_data_equiv root1 root2 text :
  node_equiv root1 root2 → Trie.split_data root1 text = Trie.split_data root2 text.
Proof.
  intros Hroot. unfold Trie.split_data.
  assert (locals_rel (Trie.Locals [] [0] 0 None) (Trie.Locals [] [0] 0 None)) as Hinit.
  { split; [constructor|done]. }
  pose proof (main_loop_equiv root1 root2 text 0 text _ _ Hroot Hinit) as Hloop.
  destruct (Trie.main_loop root1 _ _ _ _) as [l1| |],
           (Trie.main_loop root2 _ _ _ _) as [l2| |]; simpl in Hloop; try done.
  - destruct Hloop as (Hst & Hoff & _).
    cbn [mbind res_bind]. by rewrite (final_cut_equiv _ _ _ _ Hst), Hoff.
  - by rewrite Hloop.
Qed.

Lemma node_equiv_reachable self1 self2 :
  reachable self1 → reachable self2 →
  (∀ x, x ∈ Trie._tokens self1 ↔ x ∈ Trie._tokens self2) →
  node_equiv (Trie.data self1) (Trie.data self2).
Proof.
  intros H1 H2 Hsame w. split.
  - rewrite (is_Some_walk_reachable self1 w H1), (is_Some_walk_reachable self2 w H2).
    by setoid_rewrite Hsame.
  - pose proof (tokens_agree_reachable self1 H1 w) as Ha1.
    pose proof (tokens_agree_reachable self2 H2 w) as Ha2.
    rewrite Hsame in Ha1. rewrite Ha2 in Ha1.
    destruct (accepts (Trie.data self1) w), (accepts (Trie.data self2) w);
      naive_solver.
Qed.

(** X8. The outcome of [split] depends on the set of tokens only: two
    reachable states with the same tokens, whatever the order and the
    number of insertions that built them, split every text alike. *)
Theorem split_depends_on_tokens_only (self1 self2 : Trie.t) (text : str) :
  reachable self1 → reachable self2 → Trie._tokens self1 = Trie._tokens self2 →
  (Trie.split text self1).1 = (Trie.split text self2).1.
Proof.
  intros H1 H2 Hsame. cbn [Trie.split fst]. apply split_data_equiv.
  apply node_equiv_reachable; [done..|]. intros x. by rewrite Hsame.
Qed.

Lemma split_depends_on_tokens_only_witness :
  reachable (Trie.__init__ [chars "extra_id_1"; chars "extra_id_100"]) ∧
  reachable (Trie.add (chars "extra_id_1")
               (Trie.__init__ [chars "extra_id_100"; chars "extra_id_1"; chars "extra_id_100"])) ∧
  Trie._tokens (Trie.__init__ [chars "extra_id_1"; chars "extra_id_100"])
  = Trie._tokens (Trie.add (chars "extra_id_1")
                    (Trie.__init__ [chars "extra_id_100"; chars "extra_id_1"; chars "extra_id_100"])) ∧
  (Trie.split (chars "a extra_id_100 b")
     (Trie.__init__ [chars "extra_id_1"; chars "extra_id_100"])).1
  = (Trie.split (chars "a extra_id_100 b")
       (Trie.add (chars "extra_id_1")
          (Trie.__init__ [chars "extra_id_100"; chars "extra_id_1"; chars "extra_id_100"]))).1.
Proof.
  assert (Trie._tokens (Trie.__init__ [chars "extra_id_1"; chars "extra_id_100"])
          = Trie._tokens (Trie.add (chars "extra_id_1")
              (Trie.__init__ [chars "extra_id_100"; chars "extra_id_1"; chars "extra_id_100"])))
    as Hsame.
  { apply (bool_decide_unpack _). vm_compute. exact I. }
  split; [apply reachable_init|]. split; [apply reachable_add, reachable_init|].
  split; [exact Hsame|].
  exact (split_depends_on_tokens_only _ _ (chars "a extra_id_100 b")
           (reachable_init _) (reachable_add _ _ (reachable_init _)) Hsame).
Defined.

(** ** More on [extensions] *)

Lemma NoDup_collect_items f cs :
  NoDup (keys cs) → Forall (λ kc, NoDup (f kc.2)) cs →
  NoDup (ExtensionsTrie.collect_items f cs).
Proof.
  induction cs as [|[k c] cs IH]; simpl; [constructor|].
  intros [Hnin Hnd]%NoDup_cons [Hc Hall]%Forall_cons. simpl in Hc.
  apply NoDup_app. split_and!.
  - apply (NoDup_fmap_2 _). done.
  - intros x (w' & -> & _)%list_elem_of_fmap (k' & c' & w'' & Hin & [= <- _] & _)%elem_of_collect_items.
    apply Hnin. by eapply elem_of_keys.
  - by apply IH.
Qed.

Lemma NoDup_collect_tokens n : wf_node n → NoDup (ExtensionsTrie._collect_tokens n).
Proof.
  induction n as [t cs IH] using node_ind'. intros Hwf.
  inversion Hwf as [? ? Hnd Hall]; subst. cbn [ExtensionsTrie._collect_tokens].
  apply NoDup_app. split_and!.
  - destruct t; [apply NoDup_singleton|constructor].
  - intros x Hx (k & c & w' & _ & -> & _)%elem_of_collect_items.
    destruct t; [by apply list_elem_of_singleton in Hx|by apply elem_of_nil in Hx].
  - apply NoDup_collect_items; [done|].
    rewrite Forall_forall in *. intros kc Hkc. by apply IH, Hall.
Qed.

(** X9. [extensions] returns no string twice. *)
Theorem extensions_no_duplicates (self : Trie.t) (prefix : str) :
  reachable self → NoDup (ExtensionsTrie.extensions prefix self).
Proof.
  intros Hreach. unfold ExtensionsTrie.extensions.
  apply (NoDup_fmap_2 _). apply NoDup_collect_tokens.
  eapply wf_walk; [by apply wf_reachable|apply walk_followed].
Qed.

Lemma extensions_no_duplicates_witness :
  reachable (ExtensionsTrie.__init__ (chars <$> ["apple"; "app"; "apple"; "application"]%string))
  ∧ NoDup (ExtensionsTrie.extensions (chars "app")
             (ExtensionsTrie.__init__
                (chars <$> ["apple"; "app"; "apple"; "application"]%string))).
Proof.
  split; [apply reachable_init|].
  apply (extensions_no_duplicates
           (ExtensionsTrie.__init__ (chars <$> ["apple"; "app"; "apple"; "application"]%string))
           (chars "app")).
  apply reachable_init.
Defined.

Lemma followed_prefix n token : followed n token `prefix_of` token.
Proof.
  revert n. induction token as [|c token IH]; intros n; simpl; [done|].
  destruct (child n c) as [m|]; [|apply prefix_nil]. by apply prefix_cons.
Qed.

Lemma followed_longest n token p :
  p `prefix_of` token → is_Some (walk n p) → p `prefix_of` followed n token.
Proof.
  revert n p. induction token as [|c token IH]; intros n p Hp Hsome.
  - apply prefix_nil_inv in Hp as ->. done.
  - destruct p as [|c' p]; [apply prefix_nil|].
    pose proof (prefix_cons_inv_1 _ _ _ _ Hp) as ->.
    apply prefix_cons_inv_2 in Hp. simpl in *.
    destruct (child n c) as [m|]; simpl in *; [|by destruct Hsome].
    apply prefix_cons. by apply IH.
Qed.

(** X10. What [extensions] returns for any prefix, also one that leaves the
    tree: let [r] be the longest beginning of the prefix that is a path of
    the tree; the result holds exactly the strings [prefix + s] for which
    [r + s] is a token. *)
Theorem extensions_of_any_prefix (self : Trie.t) (prefix x : str) :
  reachable self →
  followed (Trie.data self) prefix `prefix_of` prefix ∧
  is_Some (walk (Trie.data self) (followed (Trie.data self) prefix)) ∧
  (∀ p, p `prefix_of` prefix → is_Some (walk (Trie.data self) p) →
        p `prefix_of` followed (Trie.data self) prefix) ∧
  (x ∈ ExtensionsTrie.extensions prefix self ↔
   ∃ s, x = prefix ++ s ∧ followed (Trie.data self) prefix ++ s ∈ Trie._tokens self).
Proof.
  intros Hreach. split_and!.
  - apply followed_prefix.
  - rewrite walk_followed. by eexists.
  - intros p. apply followed_longest.
  - by apply extensions_followed.
Qed.

Lemma extensions_of_any_prefix_witness :
  reachable (ExtensionsTrie.__init__ [chars "app"; chars "apple"]) ∧
  followed (Trie.data (ExtensionsTrie.__init__ [chars "app"; chars "apple"])) (chars "apx")
    `prefix_of` chars "apx" ∧
  is_Some (walk (Trie.data (ExtensionsTrie.__init__ [chars "app"; chars "apple"]))
             (followed (Trie.data (ExtensionsTrie.__init__ [chars "app"; chars "apple"]))
                (chars "apx"))) ∧
  (∀ p, p `prefix_of` chars "apx" →
        is_Some (walk (Trie.data (ExtensionsTrie.__init__ [chars "app"; chars "apple"])) p) →
        p `prefix_of` followed (Trie.data (ExtensionsTrie.__init__ [chars "app"; chars "apple"]))
                        (chars "apx")) ∧
  (chars "apxple" ∈ ExtensionsTrie.extensions (chars "apx")
                      (ExtensionsTrie.__init__ [chars "app"; chars "apple"]) ↔
   ∃ s, chars "apxple" = chars "apx" ++ s ∧
        followed (Trie.data (ExtensionsTrie.__init__ [chars "app"; chars "apple"]))
          (chars "apx") ++ s
        ∈ Trie._tokens (ExtensionsTrie.__init__ [chars "app"; chars "apple"])).
Proof.
  split; [apply reachable_init|].
  apply (extensions_of_any_prefix (ExtensionsTrie.__init__ [chars "app"; chars "apple"])
           (chars "apx") (chars "apxple")).
  apply reachable_init.
Defined.

Lemma head_collect_items_cons f cs :
  ∀ w, head (ExtensionsTrie.collect_items f cs) = Some w → w ≠ [].
Proof.
  intros w Hw ->. apply head_Some_elem_of in Hw.
  by apply elem_of_collect_items in Hw as (? & ? & ? & _ & ? & _).
Qed.

(** X18. For a prefix that is a path of the tree, the first string that
    [extensions] returns is the prefix itself exactly when the prefix is a
    token. *)
Theorem extensions_prefix_first (self : Trie.t) (prefix : str) :
  reachable self → is_Some (walk (Trie.data self) prefix) →
  (head (ExtensionsTrie.extensions prefix self) = Some prefix ↔ prefix ∈ Trie._tokens self).
Proof.
  intros Hreach [n Hn]. rewrite (tokens_agree_reachable self Hreach).
  unfold accepts, ExtensionsTrie.extensions. rewrite Hn.
  pose proof (walk_followed (Trie.data self) prefix) as Hw.
  rewrite followed_all, Hn in Hw by by eexists. injection Hw as <-.
  destruct n as [t cs]. cbn [ExtensionsTrie._collect_tokens terminal].
  destruct t; simpl.
  - by rewrite app_nil_r.
  - split; [|done]. intros Hhead. exfalso.
    destruct (ExtensionsTrie.collect_items ExtensionsTrie._collect_tokens cs)
      as [|w ws] eqn:Hitems; [done|].
    simpl in Hhead. injection Hhead as Hhead.
    apply (head_collect_items_cons ExtensionsTrie._collect_tokens cs w); [by rewrite Hitems|].
    rewrite <-(app_nil_r prefix) in Hhead at 2. by apply app_inv_head in Hhead.
Qed.

Lemma extensions_prefix_first_witness :
  reachable (ExtensionsTrie.__init__ [chars "apple"; chars "app"]) ∧
  is_Some (walk (Trie.data (ExtensionsTrie.__init__ [chars "apple"; chars "app"]))
             (chars "app")) ∧
  (head (ExtensionsTrie.extensions (chars "app")
           (ExtensionsTrie.__init__ [chars "apple"; chars "app"])) = Some (chars "app")
   ↔ chars "app" ∈ Trie._tokens (ExtensionsTrie.__init__ [chars "apple"; chars "app"])).
Proof.
  assert (is_Some (walk (Trie.data (ExtensionsTrie.__init__ [chars "apple"; chars "app"]))
                     (chars "app"))) as Hsome.
  { vm_compute. eexists. reflexivity. }
  split; [apply reachable_init|]. split; [exact Hsome|].
  exact (extensions_prefix_first (ExtensionsTrie.__init__ [chars "apple"; chars "app"])
           (chars "app") (reachable_init _) Hsome).
Defined.

(** ** More on the sorted insertion helper *)

(** The binary search returns on every list, sorted or not. *)
Lemma bisect_loop_total a x fuel lo hi :
  hi - lo ≤ fuel → lo ≤ hi → hi ≤ length a →
  ∃ i, bisect_loop fuel a x lo hi = Ok i ∧ lo ≤ i ≤ hi.
Proof.
  revert lo hi. induction fuel as [|fuel IH]; intros lo hi Hfuel Hle Hhi.
  - exists lo. simpl. rewrite decide_False by lia. split; [done|lia].
  - cbn [bisect_loop]. destruct (decide (lo < hi)) as [Hlt|Hge]; [|exists lo; split; [done|lia]].
    assert (lo ≤ (lo + hi) `div` 2 < hi) as [Hmid1 Hmid2].
    { split; [apply Nat.div_le_lower_bound|apply Nat.Div0.div_lt_upper_bound]; lia. }
    destruct (lookup_lt_is_Some_2 a ((lo + hi) `div` 2)) as [am ->]; [lia|].
    destruct (str_ltb am x).
    + destruct (IH ((lo + hi) `div` 2 + 1) hi) as (i & -> & Hi); [lia..|].
      exists i. split; [done|lia].
    + destruct (IH lo ((lo + hi) `div` 2)) as (i & -> & Hi); [lia..|].
      exists i. split; [done|lia].
Qed.

(** X11. On every list, sorted or not, the helper returns: the token is in
    the list afterwards, and the list is either untouched or the old list
    with the token put in at one place. *)
Theorem insert_one_token_total (L : list (list ascii)) (t : str) :
  ∃ L', _insert_one_token_to_ordered_list L t = Ok L' ∧ t ∈ L' ∧
        ((L' = L ∧ t ∈ L) ∨ (L' ≡ₚ t :: L ∧ length L' = S (length L))).
Proof.
  destruct (bisect_loop_total L t (length L) 0 (length L)) as (i & Hi & Hle); [lia..|].
  unfold _insert_one_token_to_ordered_list, bisect_left. rewrite Hi. cbn [mbind res_bind].
  destruct (decide (i < length L ∧ L !! i = Some t)) as [[_ Hat]|_].
  - exists L. assert (t ∈ L) by by eapply list_elem_of_lookup_2. auto.
  - eexists. split; [done|]. unfold list_insert_at. split.
    + apply elem_of_app. right. left.
    + right. split.
      * by rewrite <-Permutation_middle, take_drop.
      * rewrite length_app, length_take. simpl. rewrite length_drop. lia.
Qed.

#[local] Instance str_lt_antisymm : AntiSymm (=) str_lt.
Proof. intros a b Hab Hba. destruct (str_lt_irrefl a). by etrans. Qed.

Lemma strict_unique (l1 l2 : list (list ascii)) :
  StronglySorted str_lt l1 → StronglySorted str_lt l2 →
  (∀ x, x ∈ l1 ↔ x ∈ l2) → l1 = l2.
Proof.
  intros H1 H2 Hsame. apply (StronglySorted_unique str_lt); [done..|].
  apply NoDup_Permutation; [by apply strict_is_sorted_NoDup..|done].
Qed.

(** On a strictly sorted list the helper returns the strictly sorted list
    of the old elements and the token. *)
Lemma insert_strict L t :
  StronglySorted str_lt L →
  ∃ L', _insert_one_token_to_ordered_list L t = Ok L' ∧
        StronglySorted str_lt L' ∧ ∀ x, x ∈ L' ↔ x = t ∨ x ∈ L.
Proof.
  intros Hs. destruct (bisect_left_spec L t Hs) as (i & Hi & Hlen & Hlo & Hhi).
  unfold _insert_one_token_to_ordered_list. rewrite Hi. cbn [mbind res_bind].
  destruct (decide (i < length L ∧ L !! i = Some t)) as [[_ Hat]|Hnot].
  - exists L. split; [done|]. split; [done|]. intros x.
    assert (t ∈ L) by by eapply list_elem_of_lookup_2. naive_solver.
  - eexists. split; [done|]. split.
    + apply strict_insert_at; [done..|].
      apply Forall_lookup. intros j y Hy. rewrite Forall_lookup in Hhi.
      pose proof (Hhi j y Hy) as Hyt. unfold str_lt.
      destruct (str_ltb t y) eqn:Hty; [done|]. exfalso.
      pose proof (str_ltb_total t y Hty Hyt) as <-.
      rewrite lookup_drop in Hy. destruct j as [|j].
      * rewrite Nat.add_0_r in Hy. apply Hnot. split; [by eapply lookup_lt_Some|done].
      * destruct (lookup_lt_is_Some_2 L i) as [y0 Hy0].
        { apply lookup_lt_Some in Hy. lia. }
        pose proof (strict_lookup_lt L i (i + S j) y0 t Hs) as Hlt.
        assert (str_ltb y0 t = false) as Hge.
        { apply (Hhi 0 y0). by rewrite lookup_drop, Nat.add_0_r. }
        unfold str_lt in Hlt. rewrite Hlt in Hge; [done|lia|done..].
    + intros x. unfold list_insert_at.
      assert (x ∈ L ↔ x ∈ take i L ∨ x ∈ drop i L) as HL.
      { by rewrite <-elem_of_app, take_drop. }
      rewrite elem_of_app, elem_of_cons, HL. naive_solver.
Qed.

(** X12. On a sorted duplicate-free list a second insertion of the same
    token changes nothing. *)
Theorem insert_one_token_idempotent (L : list (list ascii)) (t : str) :
  is_sorted L = true → NoDup L →
  ∃ L', _insert_one_token_to_ordered_list L t = Ok L' ∧
        _insert_one_token_to_ordered_list L' t = Ok L'.
Proof.
  intros Hsorted Hnodup.
  pose proof (is_sorted_NoDup_strict L Hsorted Hnodup) as Hs.
  destruct (insert_strict L t Hs) as (L' & HL' & Hs' & Hmem).
  exists L'. split; [done|].
  destruct (insert_strict L' t Hs') as (L'' & -> & Hs'' & Hmem'). f_equal.
  apply strict_unique; [done..|]. intros x. rewrite Hmem', Hmem. naive_solver.
Qed.

Lemma insert_one_token_idempotent_witness :
  is_sorted (chars <$> ["a"; "c"; "e"]%string) = true ∧
  NoDup (chars <$> ["a"; "c"; "e"]%string) ∧
  ∃ L', _insert_one_token_to_ordered_list (chars <$> ["a"; "c"; "e"]%string) (chars "d") = Ok L' ∧
        _insert_one_token_to_ordered_list L' (chars "d") = Ok L'.
Proof.
  split; [reflexivity|]. split; [apply (bool_decide_unpack _); vm_compute; exact I|].
  apply (insert_one_token_idempotent (chars <$> ["a"; "c"; "e"]%string) (chars "d"));
    [reflexivity|apply (bool_decide_unpack _); vm_compute; exact I].
Defined.

(** X13. On a sorted duplicate-free list two insertions commute: the list
    after inserting [a] and then [b] is the list after inserting [b] and
    then [a], and it is sorted, duplicate-free and holds the old elements
    and the two tokens. *)
Theorem insert_one_token_commutes (L : list (list ascii)) (a b : str) :
  is_sorted L = true → NoDup L →
  ∃ L2,
    (L1 ← _insert_one_token_to_ordered_list L a; _insert_one_token_to_ordered_list L1 b)
      = Ok L2 ∧
    (L1 ← _insert_one_token_to_ordered_list L b; _insert_one_token_to_ordered_list L1 a)
      = Ok L2 ∧
    is_sorted L2 = true ∧ NoDup L2 ∧ ∀ x, x ∈ L2 ↔ x = a ∨ x = b ∨ x ∈ L.
Proof.
  intros Hsorted Hnodup.
  pose proof (is_sorted_NoDup_strict L Hsorted Hnodup) as Hs.
  destruct (insert_strict L a Hs) as (La & HLa & Hsa & Hma).
  destruct (insert_strict La b Hsa) as (Lab & HLab & Hsab & Hmab).
  destruct (insert_strict L b Hs) as (Lb & HLb & Hsb & Hmb).
  destruct (insert_strict Lb a Hsb) as (Lba & HLba & Hsba & Hmba).
  assert (Lba = Lab) as ->.
  { apply strict_unique; [done..|]. intros x. rewrite Hmba, Hmb, Hmab, Hma. naive_solver. }
  exists Lab. rewrite HLa, HLb. cbn [mbind res_bind].
  split; [done|]. split; [done|].
  destruct (strict_is_sorted_NoDup Lab Hsab) as [? ?]. split; [done|]. split; [done|].
  intros x. rewrite Hmab, Hma. naive_solver.
Qed.

Lemma insert_one_token_commutes_witness :
  is_sorted (chars <$> ["a"; "c"; "e"]%string) = true ∧
  NoDup (chars <$> ["a"; "c"; "e"]%string) ∧
  ∃ L2,
    (L1 ← _insert_one_token_to_ordered_list (chars <$> ["a"; "c"; "e"]%string) (chars "d");
     _insert_one_token_to_ordered_list L1 (chars "b")) = Ok L2 ∧
    (L1 ← _insert_one_token_to_ordered_list (chars <$> ["a"; "c"; "e"]%string) (chars "b");
     _insert_one_token_to_ordered_list L1 (chars "d")) = Ok L2 ∧
    is_sorted L2 = true ∧ NoDup L2 ∧
    ∀ x, x ∈ L2 ↔ x = chars "d" ∨ x = chars "b" ∨ x ∈ chars <$> ["a"; "c"; "e"]%string.
Proof.
  split; [reflexivity|]. split; [apply (bool_decide_unpack _); vm_compute; exact I|].
  apply (insert_one_token_commutes (chars <$> ["a"; "c"; "e"]%string) (chars "d") (chars "b"));
    [reflexivity|apply (bool_decide_unpack _); vm_compute; exact I].
Defined.

(** * Character classification *)

(** X14. Tab, line feed and carriage return are whitespace and are not
    control characters, whatever category the table gives them. *)
Theorem ascii_whitespace_not_control (category : ascii → string) (c : ascii) :
  c ∈ ["009"%char; "010"%char; "013"%char] →
  _is_whitespace category c = true ∧ _is_control category c = false.
Proof.
  intros Hc. unfold _is_whitespace, _is_control.
  assert (c = "009"%char ∨ c = "010"%char ∨ c = "013"%char) as Hc'.
  { rewrite !elem_of_cons in Hc. destruct Hc as [?|[?|[?|?%elem_of_nil]]]; auto. done. }
  rewrite (decide_True _ _ Hc'), (decide_True _ _ (or_intror Hc')). done.
Qed.

Lemma ascii_whitespace_not_control_witness :
  "010"%char ∈ ["009"%char; "010"%char; "013"%char] ∧
  _is_whitespace (λ _, "Cc"%string) "010"%char = true ∧
  _is_control (λ _, "Cc"%string) "010"%char = false.
Proof.
  split; [apply (bool_decide_unpack _); vm_compute; exact I|].
  apply (ascii_whitespace_not_control (λ _, "Cc"%string) "010"%char).
  apply (bool_decide_unpack _). vm_compute. exact I.
Defined.

(** X15. If the table does not put the space in a category whose name
    begins with C, no character is both whitespace and control. *)
Theorem whitespace_control_disjoint (category : ascii → string) (c : ascii) :
  String.prefix "C" (category " "%char) = false →
  _is_whitespace category c && _is_control category c = false.
Proof.
  intros Hspace. unfold _is_whitespace, _is_control.
  destruct (decide (c = "009"%char ∨ c = "010"%char ∨ c = "013"%char)) as [|Hn];
    [by rewrite andb_false_r|].
  destruct (decide (c = " "%char ∨ c = "009"%char ∨ c = "010"%char ∨ c = "013"%char))
    as [[->|?]|_]; [by rewrite Hspace|done|].
  destruct (decide (category c = "Zs"%string)) as [->|]; done.
Qed.

Lemma whitespace_control_disjoint_witness :
  String.prefix "C" ((λ c : ascii, if decide (c = " "%char) then "Zs" else "Cc")%string " "%char)
    = false ∧
  _is_whitespace (λ c : ascii, if decide (c = " "%char) then "Zs" else "Cc")%string "000"%char
  && _is_control (λ c : ascii, if decide (c = " "%char) then "Zs" else "Cc")%string "000"%char
  = false.
Proof.
  split; [reflexivity|].
  apply (whitespace_control_disjoint
           (λ c : ascii, if decide (c = " "%char) then "Zs" else "Cc")%string "000"%char).
  reflexivity.
Defined.

(** X16. A character is punctuation exactly when it is a printable ASCII
    character (code 33 to 126) that is no digit and no letter, or the table
    gives it a category whose name begins with P. *)
Theorem punctuation_characterised (category : ascii → string) (c : ascii) :
  _is_punctuation category c = true ↔
  (33 ≤ nat_of_ascii c ≤ 126 ∧
   ¬ (48 ≤ nat_of_ascii c ≤ 57 ∨ 65 ≤ nat_of_ascii c ≤ 90 ∨ 97 ≤ nat_of_ascii c ≤ 122))
  ∨ String.prefix "P" (category c) = true.
Proof.
  unfold _is_punctuation. cbv zeta.
  destruct (((33 <=? nat_of_ascii c) && (nat_of_ascii c <=? 47))
            || ((58 <=? nat_of_ascii c) && (nat_of_ascii c <=? 64))
            || ((91 <=? nat_of_ascii c) && (nat_of_ascii c <=? 96))
            || ((123 <=? nat_of_ascii c) && (nat_of_ascii c <=? 126))) eqn:Hr.
  - rewrite !orb_true_iff, !andb_true_iff, !Nat.leb_le in Hr.
    split; [intros _; left; lia|done].
  - rewrite !orb_false_iff, !andb_false_iff, !Nat.leb_gt in Hr.
    destruct (String.prefix "P" (category c)).
    + split; [by right|done].
    + split; [done|]. intros [?|?]; [lia|done].
Qed.

(** X17. [_is_end_of_word] and [_is_start_of_word] raise [IndexError] on
    the empty string and on it only, and the end of a text is classified as
    the start of the reversed text. *)
Theorem word_boundary_predicates (category : ascii → string) (text : str) :
  (_is_end_of_word category text = Raise IndexError ↔ text = []) ∧
  (_is_start_of_word category text = Raise IndexError ↔ text = []) ∧
  _is_end_of_word category text = _is_start_of_word category (reverse text).
Proof.
  unfold _is_end_of_word, _is_start_of_word. split_and!.
  - destruct text as [|c text] using rev_ind; [done|].
    rewrite last_snoc. split; [done|]. intros Heq. by destruct text.
  - by destruct text.
  - destruct text as [|c text] using rev_ind; [done|].
    by rewrite last_snoc, reverse_snoc.
Qed.

(** * [split] on the store *)

(** ** Running a computation *)

Lemma run_bind_ok {A B} (m : M A) (f : A → M B) s a s' :
  m s = (Ok a, s') → (m ≫= f) s = f a s'.
Proof. intros H. unfold mbind, M_bind. by rewrite H. Qed.

Lemma run_bind_raise {A B} (m : M A) (f : A → M B) s e s' :
  m s = (Raise e, s') → (m ≫= f) s = (Raise e, s').
Proof. intros H. unfold mbind, M_bind. by rewrite H. Qed.

Lemma run_bind_fuel {A B} (m : M A) (f : A → M B) s s' :
  m s = (OutOfFuel, s') → (m ≫= f) s = (OutOfFuel, s').
Proof. intros H. unfold mbind, M_bind. by rewrite H. Qed.

(** ** What leaves the store alone *)

Lemma frame_ret {A} (a : A) : frame (mret a).
Proof. done. Qed.

Lemma frame_lift {A} (r : res A) : frame (lift r).
Proof. done. Qed.

Lemma frame_load l : frame (load l).
Proof. done. Qed.

Lemma frame_get_self_data : frame get_self_data.
Proof. done. Qed.

Lemma frame_bind {A B} (m : M A) (f : A → M B) :
  frame m → (∀ a, frame (f a)) → frame (m ≫= f).
Proof.
  intros Hm Hf s. unfold mbind, M_bind. specialize (Hm s).
  destruct (m s) as [[a|e|] s']; simpl in Hm; subst s'; [apply Hf|done..].
Qed.

(** An assignment to a dict does not: it is what [frame] rules out. *)
Lemma store_dict_not_frame l d : hterminal d = true → ¬ frame (store_dict l d).
Proof.
  intros Hd Hframe.
  specialize (Hframe (Store (λ _, HDict false []) 0 ∅ 0)).
  apply (f_equal (λ s, hterminal (heap s l))) in Hframe. simpl in Hframe.
  rewrite decide_True in Hframe by done. congruence.
Qed.

Lemma frame_terminal p : frame (StoreTrie.terminal p).
Proof. apply frame_bind; [apply frame_load|intros; apply frame_ret]. Qed.

Lemma frame_child p c : frame (StoreTrie.child p c).
Proof. apply frame_bind; [apply frame_load|intros; apply frame_ret]. Qed.

Lemma frame_record_match p ls idx c : frame (StoreTrie.record_match p ls idx c).
Proof. apply frame_bind; [apply frame_terminal|intros; apply frame_ret]. Qed.

Lemma frame_lookahead_while fuel text ls nc p idx c :
  frame (StoreTrie.lookahead_while fuel text ls nc p idx c).
Proof.
  revert nc p idx c. induction fuel as [|fuel IH]; intros nc p idx c;
    (destruct nc as [ch|]; [|apply frame_ret]); cbn [StoreTrie.lookahead_while];
    (apply frame_bind; [apply frame_child|]); intros [p'|]; try apply frame_ret.
  - apply frame_lift.
  - apply frame_bind; [apply frame_record_match|]. intros c'.
    destruct (decide (idx + 1 = length text)); [apply frame_ret|].
    destruct (text !! (idx + 1)); [apply IH|apply frame_lift].
Qed.

Lemma frame_lookahead_for text current items c :
  frame (StoreTrie.lookahead_for text current items c).
Proof.
  revert c. induction items as [|[ls lp] items IH]; intros [[s eo] sk]; [apply frame_ret|].
  cbn [StoreTrie.lookahead_for]. destruct (decide (s < ls)); [apply frame_ret|].
  apply frame_bind; [apply frame_record_match|]. intros c1.
  apply frame_bind; [apply frame_lookahead_while|]. intros c2. apply IH.
Qed.

Lemma frame_for_states text current ch items tr l :
  frame (StoreTrie.for_states text current ch items tr l).
Proof.
  revert tr l. induction items as [|[start tp] items IH]; intros tr l; [apply frame_ret|].
  cbn [StoreTrie.for_states]. apply frame_bind; [apply frame_terminal|]. intros [|].
  - apply frame_bind; [apply frame_lookahead_for|]. intros [[s [e|]] sk];
      [apply frame_ret|apply frame_lift].
  - apply frame_bind; [apply frame_child|]. intros [p|]; apply IH.
Qed.

Lemma frame_step text current ch l : frame (StoreTrie.step text current ch l).
Proof.
  unfold StoreTrie.step.
  destruct (negb (StoreTrie.skip l =? 0) && (current <? StoreTrie.skip l));
    [apply frame_ret|].
  apply frame_bind; [apply frame_for_states|]. intros [[l' tr] reset].
  apply frame_bind; [apply frame_lift|]. intros st.
  apply frame_bind; [|intros; apply frame_ret].
  destruct (StoreTrie.skip l' <=? current); [|apply frame_ret].
  apply frame_bind; [apply frame_get_self_data|]. intros root.
  apply frame_bind; [apply frame_child|]. intros o. apply frame_ret.
Qed.

Lemma frame_main_loop text current rest l :
  frame (StoreTrie.main_loop text current rest l).
Proof.
  revert current l. induction rest as [|ch rest IH]; intros current l; [apply frame_ret|].
  cbn [StoreTrie.main_loop]. apply frame_bind; [apply frame_step|]. intros l'. apply IH.
Qed.

Lemma frame_final_cut text items offsets : frame (StoreTrie.final_cut text items offsets).
Proof.
  induction items as [|[start tp] items IH]; [apply frame_ret|].
  cbn [StoreTrie.final_cut]. apply frame_bind; [apply frame_terminal|].
  intros [|]; [apply frame_ret|apply IH].
Qed.

Lemma frame_split text : frame (StoreTrie.split text).
Proof.
  unfold StoreTrie.split. apply frame_bind; [apply frame_main_loop|]. intros l.
  apply frame_bind; [apply frame_final_cut|]. intros offs. apply frame_lift.
Qed.

(** ** The store model computes what the tree model computes *)

Lemma repr_terminal s p n :
  repr (heap s) p n → StoreTrie.terminal p s = (Ok (terminal n), s).
Proof.
  intros Hr. destruct Hr as [l t cs ns Hl _].
  unfold StoreTrie.terminal, load, mbind, M_bind, mret, M_ret. by rewrite Hl.
Qed.

Lemma repr_dict_get h (c : ascii) (cs : list (ascii * loc)) (ns : list (ascii * node)) :
  Forall2 (λ kc kn, kc.1 = kn.1 ∧ repr h kc.2 kn.2) cs ns →
  match dict_get c cs, dict_get c ns with
  | Some l', Some n' => repr h l' n'
  | None, None => True
  | _, _ => False
  end.
Proof.
  induction 1 as [|[k1 l1] [k2 n2] cs ns [Hk Hr] _ IH]; simpl in *; [done|].
  subst k2. by destruct (decide (c = k1)).
Qed.

Lemma repr_child s p n c :
  repr (heap s) p n →
  ∃ o, StoreTrie.child p c s = (Ok o, s) ∧
       match o, child n c with
       | Some l', Some n' => repr (heap s) l' n'
       | None, None => True
       | _, _ => False
       end.
Proof.
  intros Hr. destruct Hr as [l t cs ns Hl Hcs].
  exists (dict_get c cs). split.
  - unfold StoreTrie.child, load, mbind, M_bind, mret, M_ret. by rewrite Hl.
  - apply (repr_dict_get _ c _ _ Hcs).
Qed.

Lemma repr_record_match s p n ls idx c :
  repr (heap s) p n →
  StoreTrie.record_match p ls idx c s = (Ok (Trie.record_match n ls idx c), s).
Proof.
  intros Hr. unfold StoreTrie.record_match.
  by rewrite (run_bind_ok _ _ _ _ _ (repr_terminal s p n Hr)).
Qed.

Lemma repr_lookahead_while s fuel text ls nc p n idx c :
  repr (heap s) p n →
  StoreTrie.lookahead_while fuel text ls nc p idx c s
  = (Trie.lookahead_while fuel text ls nc n idx c, s).
Proof.
  revert nc p n idx c. induction fuel as [|fuel IH]; intros nc p n idx c Hr;
    (destruct nc as [ch|]; [|done]);
    cbn [StoreTrie.lookahead_while Trie.lookahead_while mbind option_bind];
    destruct (repr_child s p n ch Hr) as (o & Ho & Hrel);
    rewrite (run_bind_ok _ _ _ _ _ Ho);
    destruct o as [p'|], (child n ch) as [n'|]; try done.
  rewrite (run_bind_ok _ _ _ _ _ (repr_record_match s p' n' ls (idx + 1) c Hrel)).
  destruct (decide (idx + 1 = length text)); [done|].
  destruct (text !! (idx + 1)); [by apply IH|done].
Qed.

Lemma repr_lookahead_for s text current items_h items c :
  states_repr (heap s) items_h items →
  StoreTrie.lookahead_for text current items_h c s
  = (Trie.lookahead_for text current items c, s).
Proof.
  intros Hitems. revert c.
  induction Hitems as [|[k1 p] [k2 n] items_h items [Hk Hr] _ IH]; intros [[st eo] sk];
    [done|].
  simpl in Hk, Hr. subst k2. cbn [StoreTrie.lookahead_for Trie.lookahead_for].
  destruct (decide (st < k1)); [done|].
  rewrite (run_bind_ok _ _ _ _ _ (repr_record_match s p n _ _ _ Hr)).
  pose proof (repr_lookahead_while s (length text) text k1
                (text !! (if decide (k1 < st) then current + 1 else current)) p n
                (if decide (k1 < st) then current + 1 else current)
                (Trie.record_match n k1 (if decide (k1 < st) then current + 1 else current)
                   (st, Some (if decide (k1 < st) then current + 1 else current), sk)) Hr)
    as Hw.
  destruct (Trie.lookahead_while _ _ _ _ n _ _) as [c'| |].
  - rewrite (run_bind_ok _ _ _ _ _ Hw). cbn [mbind res_bind]. apply IH.
  - by rewrite (run_bind_raise _ _ _ _ _ Hw).
  - by rewrite (run_bind_fuel _ _ _ _ Hw).
Qed.

Lemma states_repr_dict_set h k p n dh d :
  repr h p n → states_repr h dh d → states_repr h (dict_set k p dh) (dict_set k n d).
Proof.
  intros Hp. unfold states_repr.
  induction 1 as [|[k1 q1] [k2 q2] dh d [Hk Hq] Hd IH]; simpl in *.
  - constructor; [done|constructor].
  - subst k2. destruct (decide (k = k1)); constructor; done.
Qed.

Lemma states_repr_dict_del h k dh d :
  states_repr h dh d → res_rel (states_repr h) (dict_del k dh) (dict_del k d).
Proof.
  unfold states_repr.
  induction 1 as [|[k1 q1] [k2 q2] dh d [Hk Hq] Hd IH]; simpl in *; [done|].
  subst k2. destruct (decide (k = k1)); [done|].
  destruct (dict_del k dh), (dict_del k d); simpl in *; try done.
  by constructor.
Qed.

Lemma states_repr_del_all h tr dh d :
  states_repr h dh d →
  res_rel (states_repr h) (StoreTrie.del_all tr dh) (Trie.del_all tr d).
Proof.
  revert dh d. induction tr as [|k tr IH]; intros dh d Hd; [done|].
  cbn [StoreTrie.del_all Trie.del_all].
  pose proof (states_repr_dict_del h k dh d Hd) as Hdel.
  destruct (dict_del k dh), (dict_del k d); simpl in *; try done. by apply IH.
Qed.

Lemma repr_for_states s text current ch items_h items tr lh l :
  states_repr (heap s) items_h items → locals_repr (heap s) lh l →
  ∃ r, StoreTrie.for_states text current ch items_h tr lh s = (r, s) ∧
       res_rel (λ a b, locals_repr (heap s) a.1.1 b.1.1 ∧ a.1.2 = b.1.2 ∧ a.2 = b.2)
         r (Trie.for_states text current ch items tr l).
Proof.
  intros Hitems. revert tr lh l.
  induction Hitems as [|[k1 p] [k2 n] items_h items [Hk Hr] _ IH]; intros tr lh l Hl.
  { eexists. split; [done|]. done. }
  simpl in Hk, Hr. subst k2. destruct Hl as (Hst & Hoff & Hskip & Hend).
  cbn [StoreTrie.for_states Trie.for_states].
  rewrite (run_bind_ok _ _ _ _ _ (repr_terminal s p n Hr)).
  destruct (terminal n).
  - pose proof (repr_lookahead_for s text current _ _
                  (k1, StoreTrie.end_ lh, StoreTrie.skip lh) Hst) as Hla.
    rewrite Hend, Hskip in Hla |- *.
    destruct (Trie.lookahead_for _ _ _ _) as [[[st eo] sk]| |].
    + rewrite (run_bind_ok _ _ _ _ _ Hla). cbn [mbind res_bind].
      destruct eo as [e|]; eexists; (split; [done|]); simpl; [|done].
      by rewrite Hoff.
    + rewrite (run_bind_raise _ _ _ _ _ Hla). by eexists.
    + rewrite (run_bind_fuel _ _ _ _ Hla). by eexists.
  - destruct (repr_child s p n ch Hr) as (o & Ho & Hrel).
    rewrite (run_bind_ok _ _ _ _ _ Ho).
    destruct o as [p'|], (child n ch) as [n'|]; try done.
    + apply IH. split; [|done]. simpl. by apply states_repr_dict_set.
    + by apply IH.
Qed.

Lemma repr_step s root text current ch lh l :
  repr (heap s) (self_data s) root → locals_repr (heap s) lh l →
  ∃ r, StoreTrie.step text current ch lh s = (r, s) ∧
       res_rel (locals_repr (heap s)) r (Trie.step root text current ch l).
Proof.
  intros Hroot Hl. pose proof Hl as (Hst & Hoff & Hskip & Hend).
  unfold StoreTrie.step, Trie.step. rewrite Hskip.
  destruct (negb (Trie.skip l =? 0) && (current <? Trie.skip l)).
  { by eexists. }
  destruct (repr_for_states s text current ch _ _ [] lh l Hst Hl) as (r & Hrun & Hrel).
  destruct r as [[[lh' trh] rsh]| |],
           (Trie.for_states text current ch (Trie.states l) [] l) as [[[l' tr'] rs]| |];
    simpl in Hrel; try done.
  2:{ rewrite (run_bind_raise _ _ _ _ _ Hrun). subst. by eexists. }
  2:{ rewrite (run_bind_fuel _ _ _ _ Hrun). by eexists. }
  destruct Hrel as ((Hst' & Hoff' & Hskip' & Hend') & -> & ->).
  rewrite (run_bind_ok _ _ _ _ _ Hrun). cbn [mbind res_bind].
  assert (res_rel (states_repr (heap s))
            (if rs then Ok [] else StoreTrie.del_all tr' (StoreTrie.states lh'))
            (if rs then Ok [] else Trie.del_all tr' (Trie.states l'))) as Hdel.
  { destruct rs; [constructor|by apply states_repr_del_all]. }
  destruct (if rs then Ok [] else StoreTrie.del_all tr' (StoreTrie.states lh')) as [dh| |],
           (if rs then Ok [] else Trie.del_all tr' (Trie.states l')) as [d| |];
    simpl in Hdel; try done; [| |].
  2:{ subst. rewrite (run_bind_raise _ _ s _ s) by done. by eexists. }
  2:{ rewrite (run_bind_fuel _ _ s s) by done. by eexists. }
  rewrite (run_bind_ok _ _ s dh s) by done. cbn [mbind res_bind].
  rewrite Hskip', Hoff', Hend'.
  destruct (Trie.skip l' <=? current).
  - rewrite (run_bind_ok _ _ s
               (match dict_get ch (hchildren (heap s (self_data s))) with
                | Some p => dict_set current p dh
                | None => dh
                end) s).
    + eexists. split; [done|]. simpl. split; [|done]. simpl.
      destruct Hroot as [lr t cs ns Hlr Hcs]. rewrite Hlr. simpl.
      pose proof (repr_dict_get _ ch _ _ Hcs) as Hc. unfold child. simpl.
      destruct (dict_get ch cs), (dict_get ch ns); try done.
      by apply states_repr_dict_set.
    + unfold get_self_data, StoreTrie.child, load, mbind, M_bind, mret, M_ret. done.
  - rewrite (run_bind_ok _ _ s dh s) by done. eexists. split; [done|]. by simpl.
Qed.

Lemma repr_main_loop s root text current rest lh l :
  repr (heap s) (self_data s) root → locals_repr (heap s) lh l →
  ∃ r, StoreTrie.main_loop text current rest lh s = (r, s) ∧
       res_rel (locals_repr (heap s)) r (Trie.main_loop root text current rest l).
Proof.
  intros Hroot. revert current lh l. induction rest as [|ch rest IH]; intros current lh l Hl.
  { by eexists. }
  cbn [StoreTrie.main_loop Trie.main_loop].
  destruct (repr_step s root text current ch lh l Hroot Hl) as (r & Hrun & Hrel).
  destruct r as [lh'| |], (Trie.step root text current ch l) as [l'| |];
    simpl in Hrel; try done.
  - rewrite (run_bind_ok _ _ _ _ _ Hrun). cbn [mbind res_bind]. by apply IH.
  - rewrite (run_bind_raise _ _ _ _ _ Hrun). subst. by eexists.
  - rewrite (run_bind_fuel _ _ _ _ Hrun). by eexists.
Qed.

Lemma repr_final_cut s text items_h items offsets :
  states_repr (heap s) items_h items →
  StoreTrie.final_cut text items_h offsets s = (Ok (Trie.final_cut text items offsets), s).
Proof.
  induction 1 as [|[k1 p] [k2 n] items_h items [Hk Hr] _ IH]; [done|].
  simpl in Hk, Hr. subst k2. cbn [StoreTrie.final_cut Trie.final_cut].
  rewrite (run_bind_ok _ _ _ _ _ (repr_terminal s p n Hr)).
  destruct (terminal n); [done|apply IH].
Qed.

(** On a store that holds the tree [root] at [self.data], [split] returns
    what the tree model returns, and the store is as before. *)
Lemma repr_split s root text :
  repr (heap s) (self_data s) root →
  StoreTrie.split text s = (Trie.split_data root text, s).
Proof.
  intros Hroot. unfold StoreTrie.split, Trie.split_data.
  destruct (repr_main_loop s root text 0 text (StoreTrie.Locals [] [0] 0 None)
              (Trie.Locals [] [0] 0 None) Hroot) as (r & Hrun & Hrel).
  { split; [constructor|done]. }
  destruct r as [lh| |], (Trie.main_loop root text 0 text _) as [l| |];
    simpl in Hrel; try done.
  - destruct Hrel as (Hst & Hoff & _).
    rewrite (run_bind_ok _ _ _ _ _ Hrun). cbn [mbind res_bind].
    rewrite (run_bind_ok _ _ _ _ _ (repr_final_cut s text _ _ _ Hst)).
    by rewrite Hoff.
  - rewrite (run_bind_raise _ _ _ _ _ Hrun). by subst.
  - by rewrite (run_bind_fuel _ _ _ _ Hrun).
Qed.

(** [add], modelled on the same store, does change it: on the store that
    holds the word [ab], adding [b] leaves another store, which holds the
    tree of [ab] and [b], and a later [split] tells the two apart. *)
Lemma add_changes_store :
  (StoreTrie.add (chars "b") example_store).2 ≠ example_store ∧
  repr (heap (StoreTrie.add (chars "b") example_store).2)
    (self_data (StoreTrie.add (chars "b") example_store).2)
    (Trie.data (Trie.add (chars "b") (Trie.__init__ [chars "ab"]))) ∧
  self_tokens (StoreTrie.add (chars "b") example_store).2
  = Trie._tokens (Trie.add (chars "b") (Trie.__init__ [chars "ab"])) ∧
  (StoreTrie.split (chars "bab") example_store).1 = Ok [chars "b"; chars "ab"] ∧
  (StoreTrie.split (chars "bab") (StoreTrie.add (chars "b") example_store).2).1
  = Ok [chars "b"; chars "ab"] ∧
  (StoreTrie.split (chars "bb") example_store).1 = Ok [chars "bb"] ∧
  (StoreTrie.split (chars "bb") (StoreTrie.add (chars "b") example_store).2).1
  = Ok [chars "b"; chars "b"].
Proof.
  split.
  { intros Heq. apply (f_equal next_loc) in Heq. vm_compute in Heq. done. }
  split.
  { apply (repr_node _ 0 false [("a"%char, 1); ("b"%char, 3)]); [reflexivity|].
    constructor; [|constructor; [|constructor]]; (split; [reflexivity|]).
    - apply (repr_node _ 1 false [("b"%char, 2)]); [reflexivity|].
      constructor; [|constructor]. split; [reflexivity|].
      apply (repr_node _ 2 true []); [reflexivity|constructor].
    - apply (repr_node _ 3 true []); [reflexivity|constructor]. }
  split; [|by vm_compute].
  cbn. set_solver.
Qed.

(** C9. [split] leaves the Trie as it found it: the store after the call,
    that is every node dict, [self.data] and [self._tokens], is the store
    before it, whatever the store and the text; so a later [split], on the
    same or on another text, answers as it would have before the call, and
    the tree the store held is the tree it still holds.  ([add], by
    contrast, assigns to node dicts and to [self._tokens]; see
    [add_changes_store].) *)
Theorem split_leaves_store_unchanged (s : store) (text text' : str) :
  (StoreTrie.split text s).2 = s ∧
  (StoreTrie.split text' (StoreTrie.split text s).2).1 = (StoreTrie.split text' s).1 ∧
  (∀ n, repr (heap s) (self_data s) n →
        repr (heap (StoreTrie.split text s).2) (self_data (StoreTrie.split text s).2) n ∧
        self_tokens (StoreTrie.split text s).2 = self_tokens s ∧
        (StoreTrie.split text s).1
        = (Trie.split text {| Trie.data := n; Trie._tokens := self_tokens s |}).1).
Proof.
  pose proof (frame_split text s) as Hframe.
  split; [done|]. split; [by rewrite Hframe|].
  intros n Hn. rewrite Hframe. split; [done|]. split; [done|].
  by rewrite (repr_split s n text Hn).
Qed.

Lemma split_leaves_store_unchanged_witness :
  repr (heap example_store) (self_data example_store) (Trie.data (Trie.__init__ [chars "ab"])) ∧
  (StoreTrie.split (chars "a ab") example_store).2 = example_store ∧
  (StoreTrie.split (chars "abab") (StoreTrie.split (chars "a ab") example_store).2).1
  = (StoreTrie.split (chars "abab") example_store).1 ∧
  (∀ n, repr (heap example_store) (self_data example_store) n →
        repr (heap (StoreTrie.split (chars "a ab") example_store).2)
          (self_data (StoreTrie.split (chars "a ab") example_store).2) n ∧
        self_tokens (StoreTrie.split (chars "a ab") example_store).2
        = self_tokens example_store ∧
        (StoreTrie.split (chars "a ab") example_store).1
        = (Trie.split (chars "a ab")
             {| Trie.data := n; Trie._tokens := self_tokens example_store |}).1).
Proof.
  split.
  - apply (repr_node _ 0 false [("a"%char, 1)]); [reflexivity|].
    constructor; [|constructor]. split; [reflexivity|].
    apply (repr_node _ 1 false [("b"%char, 2)]); [reflexivity|].
    constructor; [|constructor]. split; [reflexivity|].
    apply (repr_node _ 2 true []); [reflexivity|constructor].
  - apply (split_leaves_store_unchanged example_store (chars "a ab") (chars "abab")).
Defined.
